(** * CivCloneJS: the simulation core, embedded and verified

    A shallow embedding of the server's hex map ([src/server/game/map/index.ts]),
    its tiles ([dist/server/tile.js]) and improvements
    ([src/server/game.ts], [dist/server/game/map/tile/improvement.js]), with the
    properties the specification states about them.

    JavaScript objects used as dictionaries are [gmap]s, arrays are lists,
    object identity is a handle (a tile is identified by its index in
    [Map.tiles], a city by its index in [Map.cities], a trader by its index in
    the trader heap), and a [TypeError] raised by a property access on
    [undefined] is the [TypeError] of the [result] monad. *)

From Stdlib Require Import ZArith Lia Bool.
From Stdlib Require QArith_base.
From stdpp Require Import gmap strings list fin_maps sorting.

Local Open Scope string_scope.
Local Open Scope Z_scope.
Local Open Scope list_scope.

(** ** JavaScript numbers that the counters can hold

    A visibility counter is a JavaScript number: an integer once it has been
    initialised, [NaN] after arithmetic on [undefined].  The entry of an object
    that was never written is [undefined]: the key is absent from the [gmap]. *)

Inductive jsnum : Type :=
  | NaN
  | Num (z : Z).

#[global] Instance jsnum_eq_dec : EqDecision jsnum.
Proof. solve_decision. Defined.

(** [ToNumber(v)]: a missing entry ([undefined]) converts to [NaN]. *)
Definition toNumber (v : option jsnum) : jsnum :=
  match v with
  | Some n => n
  | None => NaN
  end.

(** [n + d] for an integer [d]; [NaN] is absorbing. *)
Definition jsnum_add (n : jsnum) (d : Z) : jsnum :=
  match n with
  | NaN => NaN
  | Num z => Num (z + d)
  end.

(** [if (v)]: [undefined], [NaN] and [0] are falsy, every other number
    (negative ones too) is truthy. *)
Definition truthy (v : option jsnum) : bool :=
  match v with
  | Some (Num z) => negb (z =? 0)
  | _ => false
  end.

(** [v >= 0] as JavaScript evaluates it: false on [undefined] and [NaN]. *)
Definition jsnum_nonneg (v : option jsnum) : bool :=
  match v with
  | Some (Num z) => 0 <=? z
  | _ => false
  end.

(** [v > 0]. *)
Definition jsnum_pos (v : option jsnum) : bool :=
  match v with
  | Some (Num z) => 0 <? z
  | _ => false
  end.

(** [if (o[k])] on a dictionary of booleans. *)
Definition flag (v : option bool) : bool :=
  match v with
  | Some b => b
  | None => false
  end.

(** ** Coordinates *)

Record Coords : Type := mkCoords { cx : Z; cy : Z }.

#[global] Instance Coords_eq_dec : EqDecision Coords.
Proof. solve_decision. Defined.

(** ** Yield (dist/server/tile.js, lines 12-24) *)

(** [YieldParams]: every key is optional. *)
Record YieldParams : Type := mkParams {
  p_food : option Z;
  p_production : option Z;
}.

Record Yield : Type := mkYield {
  food : Z;
  production : Z;
}.

#[global] Instance YieldParams_eq_dec : EqDecision YieldParams.
Proof. solve_decision. Defined.
#[global] Instance Yield_eq_dec : EqDecision Yield.
Proof. solve_decision. Defined.

(** [x ?? 0] *)
Definition orZero (x : option Z) : Z :=
  match x with
  | Some z => z
  | None => 0
  end.

(** [new Yield(params)] *)
Definition newYield (params : YieldParams) : Yield :=
  {| food := orZero (p_food params);
     production := orZero (p_production params) |}.

(** [Yield.add(other)] *)
Definition Yield_add (this other : Yield) : Yield :=
  {| food := food this + food other;
     production := production this + production other |}.

(** A [Yield] read where a [YieldParams] is expected: every key present. *)
Definition paramsOf (y : Yield) : YieldParams :=
  {| p_food := Some (food y); p_production := Some (production y) |}.

Definition noParams : YieldParams := {| p_food := None; p_production := None |}.

(** Componentwise order on yields. *)
Definition Yield_le (a b : Yield) : Prop :=
  food a <= food b /\ production a <= production b.

(** ** Tables written as object literals *)

(** [table[key]]: [None] is [undefined]. *)
Fixpoint assoc {A : Type} (key : string) (table : list (string * A)) : option A :=
  match table with
  | [] => None
  | (k, v) :: rest => if bool_decide (k = key) then Some v else assoc key rest
  end.

(** The keys every object literal inherits from [Object.prototype]: for
    these [table[key]] is not [undefined] when the table has no entry of its
    own, but a function (the prototype itself for ["__proto__"]). *)
Definition objectPrototypeKeys : list string :=
  [ "constructor"; "__defineGetter__"; "__defineSetter__"; "hasOwnProperty";
    "__lookupGetter__"; "__lookupSetter__"; "isPrototypeOf";
    "propertyIsEnumerable"; "toString"; "valueOf"; "__proto__";
    "toLocaleString" ].

Definition inherited (key : string) : bool :=
  bool_decide (key ∈ objectPrototypeKeys).

(** ** ResourceStore (yield.ts is not among the sources) *)

(** Modelled from the spec: [ResourceStore] of yield.ts, which is missing;
    the spec (section 3) gives it as a Yield with a per-key capacity, whose
    [incr] adds, whose [decr] is a subtraction saturating at zero, whose [cap]
    clamps to the capacity, whose [fulfills(cost)] is componentwise [>=] and
    whose [divNumber(n)] divides every key by [n], rounding down. *)
Record ResourceStore : Type := mkStore {
  value : Yield;
  capacity : Yield;
}.

#[global] Instance ResourceStore_eq_dec : EqDecision ResourceStore.
Proof. solve_decision. Defined.

(** Modelled from the spec: [new ResourceStore(capacity)] starts empty. *)
Definition newResourceStore (cap : YieldParams) : ResourceStore :=
  {| value := newYield noParams; capacity := newYield cap |}.

(** Modelled from the spec: subtraction of yields saturates at zero. *)
Definition Yield_decr (a b : Yield) : Yield :=
  {| food := Z.max (food a - food b) 0;
     production := Z.max (production a - production b) 0 |}.

(** Modelled from the spec: per-element minimum. *)
Definition Yield_min (a b : Yield) : Yield :=
  {| food := Z.min (food a) (food b);
     production := Z.min (production a) (production b) |}.

(** Modelled from the spec: [incr] adds into the store. *)
Definition incr (s : ResourceStore) (y : Yield) : ResourceStore :=
  {| value := Yield_add (value s) y; capacity := capacity s |}.

(** Modelled from the spec: [decr] on the stored value. *)
Definition decr (s : ResourceStore) (y : Yield) : ResourceStore :=
  {| value := Yield_decr (value s) y; capacity := capacity s |}.

(** Modelled from the spec: [fulfills(cost)] is componentwise [>=]. *)
Definition fulfills (s : ResourceStore) (cost : Yield) : bool :=
  (food cost <=? food (value s)) && (production cost <=? production (value s)).

(** Modelled from the spec: [divNumber(n)], a per-key floor division. *)
Definition divNumber (s : ResourceStore) (n : Z) : Yield :=
  {| food := food (value s) / n; production := production (value s) / n |}.

(** Modelled from the spec: [setCapacity]; the capacity handed over is a raw
    table entry, and a type without an entry gets the empty capacity, as in
    the constructor of [Improvement] ([storeCapTable[type] ?? {}]). *)
Definition setCapacity (s : ResourceStore) (cap : option YieldParams) : ResourceStore :=
  {| value := value s;
     capacity := newYield (match cap with Some c => c | None => noParams end) |}.

(** Modelled from the spec: [cap] clamps the stored value to the capacity. *)
Definition cap (s : ResourceStore) : ResourceStore :=
  {| value := Yield_min (value s) (capacity s); capacity := capacity s |}.

(** ** Trader (trade.ts is not among the sources) *)

(** A distance of the path tree: an integer, [Infinity], or the [NaN] that
    arithmetic on a missing entry gives. *)
Inductive dist : Type :=
  | Fin (z : Z)
  | Infinity
  | NotANumber.

#[global] Instance dist_eq_dec : EqDecision dist.
Proof. solve_decision. Defined.

(** Modelled from the spec: [Trader] of trade.ts, which is missing; the spec
    (sections 3 and 4.4) gives its fields.  The producer and the sink are
    referred to by the index of their tile. *)
Record Trader : Type := mkTrader {
  t_civID : Z;
  t_route : list Coords * dist;
  t_source : Z;
  t_sink : Z;
  t_speed : Z;
  t_capacity : Yield;
  t_carried : Yield;
  t_expired : bool;
}.

(** Modelled from the spec: [store(share)] loads up to [capacity - carried]
    and returns the overflow. *)
Definition Trader_store (t : Trader) (share : Yield) : Trader * Yield :=
  let room := Yield_decr (t_capacity t) (t_carried t) in
  let load := Yield_min share room in
  ({| t_civID := t_civID t; t_route := t_route t; t_source := t_source t;
      t_sink := t_sink t; t_speed := t_speed t; t_capacity := t_capacity t;
      t_carried := Yield_add (t_carried t) load; t_expired := t_expired t |},
   Yield_decr share load).

(** Modelled from the spec: [expire()]. *)
Definition Trader_expire (t : Trader) : Trader :=
  {| t_civID := t_civID t; t_route := t_route t; t_source := t_source t;
     t_sink := t_sink t; t_speed := t_speed t; t_capacity := t_capacity t;
     t_carried := t_carried t; t_expired := true |}.

(** ** WorkErrand (errand.ts is not among the sources) *)

Inductive ErrandType : Type :=
  | CONSTRUCTION
  | UNIT_TRAINING
  | RESEARCH.

#[global] Instance ErrandType_eq_dec : EqDecision ErrandType.
Proof. solve_decision. Defined.

(** [ErrandAction], the literal the handlers of the map pass. *)
Record ErrandAction : Type := mkAction {
  a_type : ErrandType;
  a_option : string;
  a_location : option Coords;
}.

(** Modelled from the spec: [WorkErrand] of errand.ts, which is missing; the
    spec (section 3) gives its fields. *)
Record WorkErrand : Type := mkErrand {
  e_type : ErrandType;
  e_option : string;
  e_location : option Coords;
  e_cost : Yield;
  e_storedThisTurn : Yield;
  e_completed : bool;
}.

#[global] Instance WorkErrand_eq_dec : EqDecision WorkErrand.
Proof. solve_decision. Defined.

Definition set_storedThisTurn (e : WorkErrand) (y : Yield) : WorkErrand :=
  {| e_type := e_type e; e_option := e_option e; e_location := e_location e;
     e_cost := e_cost e; e_storedThisTurn := y; e_completed := e_completed e |}.

Definition set_completed (e : WorkErrand) (b : bool) : WorkErrand :=
  {| e_type := e_type e; e_option := e_option e; e_location := e_location e;
     e_cost := e_cost e; e_storedThisTurn := e_storedThisTurn e; e_completed := b |}.

(** ** Improvement (src/server/game.ts, lines 169-353) *)

Definition yieldTable : list (string * Yield) :=
  [ ("settlement", newYield {| p_food := Some 2; p_production := Some 2 |});
    ("encampment", newYield {| p_food := None; p_production := Some 1 |});
    ("farm", newYield {| p_food := Some 1; p_production := None |});
    ("forest", newYield {| p_food := Some 1; p_production := None |}) ].

Definition storeCapTable : list (string * YieldParams) :=
  [ ("settlement", {| p_food := Some 20; p_production := Some 2 |});
    ("encampment", {| p_food := Some 10; p_production := Some 1 |});
    ("farm", {| p_food := Some 20; p_production := None |}) ].

Definition naturalImprovementTable : list (string * bool) :=
  [ ("forest", true) ].

Definition improvementHeightTable : list (string * Z) :=
  [ ("forest", 5) ].

(** The [metadata] field is an opaque value that no code reads; it is left
    out.  [i_traders] and [i_suppliers] are the fields [traders] and
    [suppliers]: handles into the trader heap.  [isNatural] is the field as
    [if (this.isNatural)] reads it: a missing one ([undefined]) is [false],
    the function that an inherited key leaves there is [true]. *)
Record Improvement : Type := mkImprovement {
  i_type : string;
  pillaged : bool;
  isNatural : bool;
  i_yield : Yield;
  storage : ResourceStore;
  errand : option WorkErrand;
  i_traders : list nat;
  i_suppliers : list nat;
}.

(** [new Improvement(type, baseYield)] for a [type] that is not empty.  No
    table has an entry for a key of [Object.prototype]: there
    [naturalImprovementTable[type]] is a function, which [if (this.isNatural)]
    takes for [true], and the other two entries have no key the constructors
    of [Yield] and of the store read.  With the empty [type] the constructor
    returns at once ([if (!(type && baseYield)) return]) and leaves an object
    without any field: [Improvement] has no such value, and what is proved
    below of a handler that is given the type either takes a type that is not
    empty or does not look into the improvement that was built. *)
Definition newImprovement (type : string) (baseYield : Yield) : Improvement :=
  let natural := flag (assoc type naturalImprovementTable) || inherited type in
  {| i_type := type;
     pillaged := false;
     isNatural := natural;
     i_yield :=
       if natural then newYield noParams
       else Yield_add baseYield
              (match assoc type yieldTable with
               | Some y => y
               | None => newYield noParams
               end);
     storage :=
       newResourceStore
         (match assoc type storeCapTable with
          | Some c => c
          | None => noParams
          end);
     errand := None;
     i_traders := [];
     i_suppliers := [] |}.

Definition set_storage (i : Improvement) (s : ResourceStore) : Improvement :=
  {| i_type := i_type i; pillaged := pillaged i; isNatural := isNatural i;
     i_yield := i_yield i; storage := s; errand := errand i;
     i_traders := i_traders i; i_suppliers := i_suppliers i |}.

Definition set_errand (i : Improvement) (e : option WorkErrand) : Improvement :=
  {| i_type := i_type i; pillaged := pillaged i; isNatural := isNatural i;
     i_yield := i_yield i; storage := storage i; errand := e;
     i_traders := i_traders i; i_suppliers := i_suppliers i |}.

Definition set_traders (i : Improvement) (l : list nat) : Improvement :=
  {| i_type := i_type i; pillaged := pillaged i; isNatural := isNatural i;
     i_yield := i_yield i; storage := storage i; errand := errand i;
     i_traders := l; i_suppliers := i_suppliers i |}.

Definition set_suppliers (i : Improvement) (l : list nat) : Improvement :=
  {| i_type := i_type i; pillaged := pillaged i; isNatural := isNatural i;
     i_yield := i_yield i; storage := storage i; errand := errand i;
     i_traders := i_traders i; i_suppliers := l |}.

(** [ImprovementData], the value of [getData()]. *)
Record ImprovementData : Type := mkImprovementData {
  d_type : string;
  d_pillaged : bool;
  d_storage : ResourceStore;
  d_errand : option WorkErrand;
  d_isNatural : bool;
}.

#[global] Instance ImprovementData_eq_dec : EqDecision ImprovementData.
Proof. solve_decision. Defined.

(** [Improvement.getData()]; the data of an errand is the errand's fields. *)
Definition Improvement_getData (i : Improvement) : ImprovementData :=
  {| d_type := i_type i; d_pillaged := pillaged i; d_storage := storage i;
     d_errand := errand i; d_isNatural := isNatural i |}.

(** [subscribeTrader(trader)] and [subscribeSupplier(trader)] *)
Definition subscribeTrader (i : Improvement) (trader : nat) : Improvement :=
  set_traders i (i_traders i ++ [trader]).

Definition subscribeSupplier (i : Improvement) (trader : nat) : Improvement :=
  set_suppliers i (i_suppliers i ++ [trader]).

(** [Improvement.store(resources)] *)
Definition store (i : Improvement) (resources : Yield) : Improvement :=
  set_errand (set_storage i (incr (storage i) resources))
    (match errand i with
     | Some e => Some (set_storedThisTurn e (Yield_add (e_storedThisTurn e) resources))
     | None => None
     end).

(** [for (const supplier of this.suppliers) supplier.expire()], on the heap
    of traders. *)
Definition expireAll (heap : list Trader) (ids : list nat) : list Trader :=
  foldl (fun h id =>
           match h !! id with
           | Some t => <[id := Trader_expire t]> h
           | None => h
           end) heap ids.

(** The loop of [work()] over [this.traders]: an expired trader is spliced
    out, every other one is offered [storage / traderCount] and the store is
    charged what the trader took.  Returns the heap, the store and the traders
    kept.  (A handle outside the heap does not occur; it is kept untouched.) *)
Fixpoint shareOut (heap : list Trader) (st : ResourceStore) (ids : list nat)
    (traderCount : Z) : list Trader * ResourceStore * list nat :=
  match ids with
  | [] => (heap, st, [])
  | id :: rest =>
      match heap !! id with
      | None =>
          let '(h, s, kept) := shareOut heap st rest (traderCount - 1) in
          (h, s, id :: kept)
      | Some t =>
          if t_expired t then shareOut heap st rest (traderCount - 1)
          else
            let traderShare := divNumber st traderCount in
            let '(t', surplus) := Trader_store t traderShare in
            let st' := decr st (Yield_decr traderShare surplus) in
            let '(h, s, kept) :=
              shareOut (<[id := t']> heap) st' rest (traderCount - 1) in
            (h, s, id :: kept)
      end
  end.

(** The first half of [work()]: when the errand is paid for, it is
    completed, its suppliers expire, the cost leaves the store and the
    capacity goes back to the entry of the type; what was stored this turn is
    reset. *)
Definition settleErrand (heap : list Trader) (i : Improvement)
    : list Trader * Improvement :=
  match errand i with
  | Some e =>
      if fulfills (storage i) (e_cost e) then
        let heap' := expireAll heap (i_suppliers i) in
        let st := setCapacity (decr (storage i) (e_cost e))
                    (assoc (i_type i) storeCapTable) in
        (heap',
         set_errand (set_storage i st)
           (Some (set_storedThisTurn (set_completed e true) (newYield noParams))))
      else
        (heap, set_errand i (Some (set_storedThisTurn e (newYield noParams))))
  | None => (heap, i)
  end.

(** [Improvement.work()] (game.ts, lines 303-339) *)
Definition work (heap : list Trader) (i : Improvement) : list Trader * Improvement :=
  let '(heap1, i1) := settleErrand heap i in
  let '(heap2, st2, kept) :=
    shareOut heap1 (storage i1) (i_traders i1) (Z.of_nat (length (i_traders i1))) in
  let i2 := set_traders (set_storage i1 st2) kept in
  let i3 := store i2 (i_yield i2) in
  (heap2, set_storage i3 (cap (storage i3))).

(** [Improvement.work()] as compiled earlier
    (dist/server/game/map/tile/improvement.js, lines 80-111): the yield goes
    into the store with [this.storage.incr(this.yield)], without the errand
    counting it. *)
Definition work_dist (heap : list Trader) (i : Improvement)
    : list Trader * Improvement :=
  let '(heap1, i1) := settleErrand heap i in
  let '(heap2, st2, kept) :=
    shareOut heap1 (storage i1) (i_traders i1) (Z.of_nat (length (i_traders i1))) in
  let i2 := set_traders (set_storage i1 st2) kept in
  let i3 := set_storage i2 (incr (storage i2) (i_yield i2)) in
  (heap2, set_storage i3 (cap (storage i3))).

(** ** Unit (dist/server/game.js, lines 154-174, with the fields [coords] and
    [visionRange] that the map reads) *)

Record Unit : Type := mkUnit {
  u_type : string;
  u_hp : Z;
  u_movement : Z;
  u_civID : Z;
  u_coords : Coords;
  u_visionRange : Z;
}.

Record UnitData : Type := mkUnitData {
  ud_type : string;
  ud_hp : Z;
  ud_movement : Z;
  ud_civID : Z;
}.

#[global] Instance UnitData_eq_dec : EqDecision UnitData.
Proof. solve_decision. Defined.

(** [Unit.getData()] *)
Definition Unit_getData (u : Unit) : UnitData :=
  {| ud_type := u_type u; ud_hp := u_hp u; ud_movement := u_movement u;
     ud_civID := u_civID u |}.

Definition set_coords (u : Unit) (c : Coords) : Unit :=
  {| u_type := u_type u; u_hp := u_hp u; u_movement := u_movement u;
     u_civID := u_civID u; u_coords := c; u_visionRange := u_visionRange u |}.

(** ** City (city.ts is not among the sources) *)

(** Modelled from the spec: [City] of city.ts, which is missing; the spec
    (section 3) gives it a name, the owning civilization, the centre and the
    set of owned coordinates (kept in insertion order, as a JavaScript Set). *)
Record City : Type := mkCity {
  c_center : Coords;
  c_name : string;
  c_civID : Z;
  c_tiles : list Coords;
}.

Record CityData : Type := mkCityData {
  cd_name : string;
  cd_civID : Z;
}.

#[global] Instance CityData_eq_dec : EqDecision CityData.
Proof. solve_decision. Defined.

(** Modelled from the spec: [new City(center, name, civID)] owns no tile yet. *)
Definition newCity (center : Coords) (name : string) (civID : Z) : City :=
  {| c_center := center; c_name := name; c_civID := civID; c_tiles := [] |}.

(** Modelled from the spec: [City.getData()]. *)
Definition City_getData (c : City) : CityData :=
  {| cd_name := c_name c; cd_civID := c_civID c |}.

(** Modelled from the spec: [addTile] and [removeTile] on the set of owned
    coordinates. *)
Definition addTile (c : City) (coords : Coords) : City :=
  {| c_center := c_center c; c_name := c_name c; c_civID := c_civID c;
     c_tiles := if bool_decide (coords ∈ c_tiles c) then c_tiles c
                else c_tiles c ++ [coords] |}.

Definition removeTile (c : City) (coords : Coords) : City :=
  {| c_center := c_center c; c_name := c_name c; c_civID := c_civID c;
     c_tiles := filter (fun x => x ≠ coords) (c_tiles c) |}.

(** ** Tile (dist/server/tile.js) *)

(** tile name: [land mp, water mp] (0 = impassable) *)
Definition tileMovementCostTable : list (string * list Z) :=
  [ ("plains", [1; 0]);
    ("desert", [1; 0]);
    ("ocean", [0; 1]);
    ("river", [3; 1]);
    ("mountain", [0; 0]) ].

(** The fields of tile.js, and two that the map of index.ts reads through
    methods of the later Tile class: the height handed to the constructor
    ([elevation]) and the knowledge map ([knowledges]).  [owner] is the handle
    of a city; [movementCost] is [None] for a type outside the table. *)
Record Tile : Type := mkTile {
  movementCost : option (list Z);
  tile_type : string;
  tile_unit : option Unit;
  improvement : option Improvement;
  owner : option nat;
  discoveredBy : gmap Z bool;
  visibleTo : gmap Z jsnum;
  baseYield : Yield;
  elevation : Z;
  knowledges : gmap string Z;
}.

(** [new Tile(type, tileHeight, baseYield)] *)
Definition newTile (type : string) (tileHeight : Z) (baseYield : Yield) : Tile :=
  {| movementCost := assoc type tileMovementCostTable;
     tile_type := type;
     tile_unit := None;
     improvement := None;
     owner := None;
     discoveredBy := ∅;
     visibleTo := ∅;
     baseYield := baseYield;
     elevation := tileHeight;
     knowledges := ∅ |}.

Definition set_unit (t : Tile) (u : option Unit) : Tile :=
  {| movementCost := movementCost t; tile_type := tile_type t; tile_unit := u;
     improvement := improvement t; owner := owner t;
     discoveredBy := discoveredBy t; visibleTo := visibleTo t;
     baseYield := baseYield t; elevation := elevation t;
     knowledges := knowledges t |}.

Definition set_improvement (t : Tile) (i : option Improvement) : Tile :=
  {| movementCost := movementCost t; tile_type := tile_type t;
     tile_unit := tile_unit t; improvement := i; owner := owner t;
     discoveredBy := discoveredBy t; visibleTo := visibleTo t;
     baseYield := baseYield t; elevation := elevation t;
     knowledges := knowledges t |}.

Definition set_owner (t : Tile) (o : option nat) : Tile :=
  {| movementCost := movementCost t; tile_type := tile_type t;
     tile_unit := tile_unit t; improvement := improvement t; owner := o;
     discoveredBy := discoveredBy t; visibleTo := visibleTo t;
     baseYield := baseYield t; elevation := elevation t;
     knowledges := knowledges t |}.

Definition set_sight (t : Tile) (d : gmap Z bool) (v : gmap Z jsnum) : Tile :=
  {| movementCost := movementCost t; tile_type := tile_type t;
     tile_unit := tile_unit t; improvement := improvement t; owner := owner t;
     discoveredBy := d; visibleTo := v;
     baseYield := baseYield t; elevation := elevation t;
     knowledges := knowledges t |}.

(** [TileData]: what a civilization is sent about a tile.  A key that the
    object literal does not have is [None]; the keys [unit] and [visible] of
    the visible snapshot are present, [unit] possibly holding [undefined]. *)
Record TileData : Type := mkTileData {
  td_type : string;
  td_movementCost : option (list Z);
  td_improvement : option ImprovementData;
  td_owner : option CityData;
  td_yield : Yield;
  td_unit : option (option UnitData);
  td_visible : option bool;
}.

#[global] Instance TileData_eq_dec : EqDecision TileData.
Proof. solve_decision. Defined.

(** [Tile.getTileYield()] *)
Definition getTileYield (t : Tile) : Yield :=
  match improvement t with
  | Some i => Yield_add (baseYield t) (i_yield i)
  | None => baseYield t
  end.

(** [Tile.getDiscoveredData()]; [cities] resolves the handle [owner]. *)
Definition getDiscoveredData (cities : list City) (t : Tile) : TileData :=
  {| td_type := tile_type t;
     td_movementCost := movementCost t;
     td_improvement := Improvement_getData <$> improvement t;
     td_owner := City_getData <$> (owner t ≫= fun o => cities !! o);
     td_yield := getTileYield t;
     td_unit := None;
     td_visible := None |}.

(** [Tile.getVisibleData()]: the discovered data, and [unit] and [visible]. *)
Definition getVisibleData (cities : list City) (t : Tile) : TileData :=
  let d := getDiscoveredData cities t in
  {| td_type := td_type d;
     td_movementCost := td_movementCost d;
     td_improvement := td_improvement d;
     td_owner := td_owner d;
     td_yield := td_yield d;
     td_unit := Some (Unit_getData <$> tile_unit t);
     td_visible := Some true |}.

(** [Tile.setUnit(unit)] *)
Definition setUnit (t : Tile) (u : option Unit) : Tile := set_unit t u.

(** [Tile.setVisibility(civID, visible)]: [visibleTo[civID]++] or
    [visibleTo[civID]--], then the discovery flag. *)
Definition setVisibility (t : Tile) (civID : Z) (visible : bool) : Tile :=
  let old := toNumber (visibleTo t !! civID) in
  let v := <[civID := jsnum_add old (if visible then 1 else -1)]> (visibleTo t) in
  let d :=
    if visible && negb (flag (discoveredBy t !! civID))
    then <[civID := true]> (discoveredBy t)
    else discoveredBy t in
  set_sight t d v.

(** [Tile.clearVisibility(civID)] *)
Definition clearVisibility (t : Tile) (civID : Z) : Tile :=
  set_sight t (discoveredBy t) (<[civID := Num 0]> (visibleTo t)).

(** Modelled from the spec: [Tile.getTotalElevation()] of the later Tile class
    (tile/index.ts is missing): the height of the tile plus the height of its
    improvement, read from [improvementHeightTable] of game.ts. *)
Definition getTotalElevation (t : Tile) : Z :=
  elevation t +
  match improvement t with
  | Some i => orZero (assoc (i_type i) improvementHeightTable)
  | None => 0
  end.

(** ** Results of the methods that can fail

    [TypeError] is the exception JavaScript raises when a property of
    [undefined] is read; [OutOfFuel] is the bounded loop of the model giving
    up, which the termination theorem excludes. *)

Inductive result (A : Type) : Type :=
  | Ok (a : A)
  | TypeError
  | OutOfFuel.

Arguments Ok {A} a.
Arguments TypeError {A}.
Arguments OutOfFuel {A}.

#[global] Instance result_ret : MRet result := fun A a => Ok a.
#[global] Instance result_bind : MBind result :=
  fun A B f r =>
    match r with
    | Ok a => f a
    | TypeError => TypeError
    | OutOfFuel => OutOfFuel
    end.

(** [o.field] where [o] may be [undefined]. *)
Definition defined {A : Type} (o : option A) : result A :=
  match o with
  | Some a => Ok a
  | None => TypeError
  end.

(** ** The parts of the repository that are not among the sources *)

Inductive MovementClass : Type :=
  | LAND
  | WATER
  | AIR.

Inductive KnowledgeBranch : Type :=
  | OFFENSE
  | DEFESNSE
  | CIVICS
  | DEVELOPMENT.

#[global] Instance KnowledgeBranch_eq_dec : EqDecision KnowledgeBranch.
Proof. solve_decision. Defined.

(** The helpers of utils.ts, the cost table of errand.ts, the knowledge list
    of knowledge.ts and the methods of the later Tile class are missing from
    the sources; the map is embedded over any choice of them. *)
Class Externals : Type := {
  (** utils.ts: the six neighbours of a hex *)
  getAdjacentCoords : Coords -> list Coords;
  (** utils.ts: the neighbour in direction [d] *)
  getCoordInDirection : Coords -> Z -> Coords;
  (** errand.ts: [WorkErrand.errandCostTable[type][option]] *)
  errandCostTable : ErrandType -> string -> Yield;
  (** tile/index.ts: [Tile.getTrainableUnitTypes()] *)
  getTrainableUnitTypes : Tile -> list string;
  (** tile/index.ts: [Tile.canSupply(requirement)] *)
  canSupply : Tile -> Yield -> bool;
  (** knowledge.ts: [Knowledge.getKnowledgeList()], as (name, branch) *)
  getKnowledgeList : list (string * KnowledgeBranch);
  (** tile/index.ts: [Tile.getKnowledges(completed)] *)
  getKnowledges : Tile -> bool -> list string;
  (** tile/index.ts: [Tile.getKnowledgeSpillover()], name to
      [spilloverPoints, maxPoints] *)
  getKnowledgeSpillover : Tile -> list (string * (Z * Z));
  (** tile/index.ts: [Tile.addKnowledge(knowledge, points, decay, maxPoints)],
      the knowledge given by its name *)
  addKnowledge : Tile -> string -> Z -> QArith_base.Q -> Z -> Tile;
}.

(** Modelled from the spec: [mod] of utils.ts, which is missing: [x] is taken
    modulo the width, into [0, width). *)
Definition mod_ (a b : Z) : Z := a mod b.

(** ** Map (src/server/game/map/index.ts) *)

(** An entry of the update queue: the closure
    [civID => ['tileUpdate', [coords, this.getCivTile(civID, tile)]]], which
    captures [coords] and the tile object (its index, or [undefined]). *)
Record Update : Type := TileUpdate {
  up_coords : Coords;
  up_tile : option Z;
}.

#[global] Instance Update_eq_dec : EqDecision Update.
Proof. solve_decision. Defined.

(** [tiles] is the array of tile objects, [cities] the array of cities (a
    city's handle is its index), [traders] the handles of the live traders
    and [traderHeap] every trader object created so far. *)
Record Map : Type := mkMap {
  height : Z;
  width : Z;
  tiles : list Tile;
  cities : list City;
  traders : list nat;
  traderHeap : list Trader;
  updates : list Update;
}.

(** [new Map(height, width)], with the tiles the generator has put in. *)
Definition newMap (height width : Z) (tiles : list Tile) : Map :=
  {| height := height; width := width; tiles := tiles; cities := [];
     traders := []; traderHeap := []; updates := [] |}.

Definition set_tiles (m : Map) (ts : list Tile) : Map :=
  {| height := height m; width := width m; tiles := ts; cities := cities m;
     traders := traders m; traderHeap := traderHeap m; updates := updates m |}.

Definition set_cities (m : Map) (cs : list City) : Map :=
  {| height := height m; width := width m; tiles := tiles m; cities := cs;
     traders := traders m; traderHeap := traderHeap m; updates := updates m |}.

Definition set_traders_of_map (m : Map) (ts : list nat) (heap : list Trader) : Map :=
  {| height := height m; width := width m; tiles := tiles m; cities := cities m;
     traders := ts; traderHeap := heap; updates := updates m |}.

Definition set_updates (m : Map) (us : list Update) : Map :=
  {| height := height m; width := width m; tiles := tiles m; cities := cities m;
     traders := traders m; traderHeap := traderHeap m; updates := us |}.

(** [pos({x, y})] *)
Definition pos (m : Map) (c : Coords) : Z :=
  cy c * width m + mod_ (cx c) (width m).

(** [coords(pos)] *)
Definition coords (m : Map) (p : Z) : Coords :=
  {| cx := mod_ p (width m); cy := p / width m |}.

(** [this.tiles[p]]: [undefined] outside the array. *)
Definition tileAt (m : Map) (p : Z) : option Tile :=
  if p <? 0 then None else tiles m !! Z.to_nat p.

(** [getTile(coords)] *)
Definition getTile (m : Map) (c : Coords) : option Tile :=
  tileAt m (pos m c).

(** The tile object at index [p] is mutated in place. *)
Definition updateTileAt (m : Map) (p : Z) (f : Tile -> Tile) : Map :=
  match tileAt m p with
  | Some t => set_tiles m (<[Z.to_nat p := f t]> (tiles m))
  | None => m
  end.

(** [isInBounds({x, y})] *)
Definition isInBounds (m : Map) (c : Coords) : bool :=
  (0 <=? mod_ (cx c) (width m)) && (mod_ (cx c) (width m) <? width m)
  && (0 <=? cy c) && (cy c <? height m).

(** [getUpdates()]: drains the queue. *)
Definition getUpdates (m : Map) : list Update * Map :=
  (updates m, set_updates m []).

Section MapMethods.
Context `{Externals}.

(** [tileUpdate(coords)]: pushes the closure; nothing is read from the tile
    before the closure runs. *)
Definition tileUpdate (m : Map) (c : Coords) : Map :=
  set_updates m
    (updates m ++
       [ {| up_coords := c;
            up_tile := match getTile m c with
                       | Some _ => Some (pos m c)
                       | None => None
                       end |} ]).

(** The three objects [getNeighborsRecurse] mutates: the set of tiles seen
    (tile objects, here their indices), the list of coordinates and the
    remaining range recorded for a position. *)
Record Neighbors : Type := mkNeighbors {
  tileSet : gset Z;
  coordList : list Coords;
  rangeMap : gmap Z Z;
}.

(** [!rangeMap[pos] || rangeMap[pos] < r - 1] *)
Definition expandable (rangeMap : gmap Z Z) (p r : Z) : bool :=
  match rangeMap !! p with
  | None => true
  | Some v => (v =? 0) || (v <? r - 1)
  end.

(** [getNeighborsRecurse(coords, r, tileSet, coordList, rangeMap, filter)].
    The recursion is on [n = r + 1]: [n = 0] is [r < 0], and in the body
    [r = n'] for [n = S n']. *)
Fixpoint getNeighborsRecurse (n : nat) (m : Map) (c : Coords) (st : Neighbors)
    (filter : option (Tile -> Coords -> bool)) : Neighbors :=
  match n with
  | O => st
  | S n' =>
      let r := Z.of_nat n' in
      match getTile m c with
      | None => st
      | Some tile =>
          let st1 :=
            if bool_decide (pos m c ∈ tileSet st) then st
            else if match filter with
                    | None => true
                    | Some f => f tile c
                    end
                 then {| tileSet := {[pos m c]} ∪ tileSet st;
                         coordList := coordList st ++ [c];
                         rangeMap := <[pos m c := r]> (rangeMap st) |}
                 else st in
          foldl (fun s coord =>
                   if expandable (rangeMap s) (pos m coord) r
                   then getNeighborsRecurse n' m coord s filter
                   else s)
                st1 (getAdjacentCoords c)
      end
  end.

(** [getNeighborsCoords(coords, r = 1, options)] *)
Definition getNeighborsCoords (m : Map) (c : Coords) (r : Z)
    (filter : option (Tile -> Coords -> bool)) : list Coords :=
  coordList
    (getNeighborsRecurse (Z.to_nat (r + 1)) m c
       {| tileSet := ∅; coordList := []; rangeMap := ∅ |} filter).

(** [getCivTile(civID, tile)]: [null] is [None]. *)
Definition getCivTile (m : Map) (civID : Z) (tile : Tile) : option TileData :=
  if flag (discoveredBy tile !! civID) then
    if truthy (visibleTo tile !! civID)
    then Some (getVisibleData (cities m) tile)
    else Some (getDiscoveredData (cities m) tile)
  else None.

(** [getCivMap(civID)] *)
Definition getCivMap (m : Map) (civID : Z) : list (option TileData) :=
  map (getCivTile m civID) (tiles m).

(** Running an entry of the update queue for a civilization. *)
Definition runUpdate (m : Map) (civID : Z) (u : Update)
    : result (Coords * option TileData) :=
  tile ← defined (up_tile u ≫= tileAt m);
  Ok (up_coords u, getCivTile m civID tile).

(** [tile.owner?.civID] *)
Definition ownerCivID (m : Map) (tile : Tile) : option Z :=
  c_civID <$> (owner tile ≫= fun o => cities m !! o).

Definition updateCity (m : Map) (o : nat) (f : City -> City) : Map :=
  match cities m !! o with
  | Some c => set_cities m (<[o := f c]> (cities m))
  | None => m
  end.

(** [setTileOwner(coords, owner, overwrite)]; [o] is the handle of [owner].
    (A handle outside [cities] does not occur.) *)
Definition setTileOwner (m : Map) (c : Coords) (o : nat) (overwrite : bool)
    : result Map :=
  tile ← defined (getTile m c);
  let p := pos m c in
  let assign (m0 : Map) : result Map :=
    city ← defined (cities m0 !! o);
    let m1 := updateTileAt m0 p (fun t => set_owner t (Some o)) in
    let m2 := updateTileAt m1 p (fun t => setVisibility t (c_civID city) true) in
    Ok (updateCity m2 o (fun ci => addTile ci c)) in
  match owner tile with
  | Some old =>
      if negb overwrite then Ok m
      else
        oldCity ← defined (cities m !! old);
        let m1 := updateCity m old (fun ci => removeTile ci c) in
        assign (updateTileAt m1 p (fun t => setVisibility t (c_civID oldCity) false))
  | None => assign m
  end.

(** [setTileVisibility(civID, coords, visible)] *)
Definition setTileVisibility (m : Map) (civID : Z) (c : Coords) (visible : bool)
    : result Map :=
  _ ← defined (getTile m c);
  Ok (tileUpdate (updateTileAt m (pos m c) (fun t => setVisibility t civID visible)) c).

(** A [for ... of] loop over coordinates with a body that can fail. *)
Fixpoint forEach {St : Type} (l : list Coords) (body : St -> Coords -> result St)
    (s : St) : result St :=
  match l with
  | [] => Ok s
  | c :: rest => s' ← body s c; forEach rest body s'
  end.

(** The two objects [getVisibleTilesRecurse] mutates. *)
Record Sight : Type := mkSight {
  coordsArray : list Coords;
  seen : gset Z;
}.

(** [getVisibleTilesRecurse(coords, maxElevation, slope, r, direction,
    coordsArray, tileSet, stepsUntilSpread, stepLength)].  The recursion is on
    [n = r]: [n = 0] is [r <= 0]. *)
Fixpoint getVisibleTilesRecurse (n : nat) (m : Map) (c : Coords)
    (maxElevation slope direction : Z) (st : Sight)
    (stepsUntilSpread stepLength : Z) : result Sight :=
  match n with
  | O => Ok st
  | S n' =>
      tile ← defined (getTile m c);
      let st1 :=
        if negb (bool_decide (pos m c ∈ seen st))
           && (maxElevation <=? getTotalElevation tile)
        then {| coordsArray := coordsArray st ++ [c];
                seen := {[pos m c]} ∪ seen st |}
        else st in
      let ray (d : Z) (steps : Z) (s : Sight) : result Sight :=
        let newCoords := getCoordInDirection c d in
        newTile ← defined (getTile m newCoords);
        let newSlope := getTotalElevation newTile - maxElevation in
        getVisibleTilesRecurse n' m newCoords (maxElevation + slope)
          (Z.max slope newSlope) direction s steps stepLength in
      if stepsUntilSpread =? 0 then
        s2 ← ray (direction - 1) stepLength st1;
        s3 ← ray direction stepLength s2;
        ray (direction + 1) stepLength s3
      else
        ray direction (stepsUntilSpread - 1) st1
  end.

(** The loop [for (let direction = 0; direction < 6; direction++)] of
    [getVisibleTilesCoords]. *)
Fixpoint wedges (dirs : list Z) (m : Map) (unitCoords : Coords) (tile : Tile)
    (range : Z) (st : Sight) : result Sight :=
  match dirs with
  | [] => Ok st
  | direction :: rest =>
      let newCoords := getCoordInDirection unitCoords direction in
      newTile ← defined (getTile m newCoords);
      let slope := getTotalElevation newTile - getTotalElevation tile in
      st' ← getVisibleTilesRecurse (Z.to_nat range) m newCoords
              (getTotalElevation tile + slope) slope direction st 0 1;
      wedges rest m unitCoords tile range st'
  end.

(** [getVisibleTilesCoords(unit, range)]; [range] is [None] when the argument
    is left out. *)
Definition getVisibleTilesCoords (m : Map) (unit : Unit) (range : option Z)
    : result (list Coords) :=
  tile ← defined (getTile m (u_coords unit));
  let st := {| coordsArray := [u_coords unit];
               seen := {[pos m (u_coords unit)]} |} in
  st' ← wedges [0; 1; 2; 3; 4; 5] m (u_coords unit) tile
          (match range with
           | Some r => r
           | None => u_visionRange unit
           end) st;
  Ok (coordsArray st').

(** [moveUnitTo(unit, coords)]; returns the map and the unit, whose
    [coords] have changed. *)
Definition moveUnitTo (m : Map) (unit : Unit) (c : Coords) : result (Map * Unit) :=
  srcVisible ← getVisibleTilesCoords m unit None;
  m1 ← forEach srcVisible
         (fun s visibleCoords => setTileVisibility s (u_civID unit) visibleCoords false) m;
  _ ← defined (getTile m1 (u_coords unit));
  let m2 := updateTileAt m1 (pos m1 (u_coords unit)) (fun t => setUnit t None) in
  let m3 := tileUpdate m2 (u_coords unit) in
  let unit' := set_coords unit c in
  _ ← defined (getTile m3 c);
  let m4 := updateTileAt m3 (pos m3 c) (fun t => setUnit t (Some unit')) in
  let m5 := tileUpdate m4 c in
  newVisible ← getVisibleTilesCoords m5 unit' None;
  m6 ← forEach newVisible
         (fun s visibleCoords => setTileVisibility s (u_civID unit) visibleCoords true) m5;
  Ok (m6, unit').

(** [updateCivTileVisibility(civID)] (dist/server/game.js, lines 76-85), for
    the units of the civilization: every counter of the civilization is
    cleared, then every tile within 3 of a unit is lit.  The tiles within 3
    are those of [getNeighborsCoords]: [getNeighbors] of the earlier map is
    not among the sources. *)
Definition updateCivTileVisibility (m : Map) (civID : Z) (units : list Unit) : Map :=
  let m0 := set_tiles m (map (fun t => clearVisibility t civID) (tiles m)) in
  foldl (fun s unit =>
           foldl (fun s' c =>
                    updateTileAt s' (pos s' c) (fun t => setVisibility t civID true))
                 s (getNeighborsCoords s (u_coords unit) 3 None))
        m0 units.

(** *** The path tree *)

(** [a + b] on distances. *)
Definition dist_add (a b : dist) : dist :=
  match a, b with
  | Fin x, Fin y => Fin (x + y)
  | NotANumber, _ | _, NotANumber => NotANumber
  | _, _ => Infinity
  end.

(** [a > b] on distances; false when either is [NaN]. *)
Definition dist_gt (a b : dist) : bool :=
  match a, b with
  | Fin x, Fin y => y <? x
  | Infinity, Fin _ => true
  | _, _ => false
  end.

(** [a <= range] for a finite [range]. *)
Definition dist_le (a : dist) (range : Z) : bool :=
  match a with
  | Fin x => x <=? range
  | _ => false
  end.

(** [dst[p]] read as a number. *)
Definition distAt (dst : gmap Z dist) (p : Z) : dist :=
  match dst !! p with
  | Some d => d
  | None => NotANumber
  end.

(** The index of a movement class in [tile.movementCost]. *)
Definition modeIndex (mode : MovementClass) : nat :=
  match mode with
  | LAND => 0
  | WATER => 1
  | AIR => 2
  end.

(** [mode !== MovementClass.AIR ? tile.movementCost[mode] || Infinity : 1] *)
Definition movementCostFor (mode : MovementClass) (tile : Tile) : result dist :=
  match mode with
  | AIR => Ok (Fin 1)
  | _ =>
      costs ← defined (movementCost tile);
      Ok (match costs !! modeIndex mode with
          | Some c => if c =? 0 then Infinity else Fin c
          | None => Infinity
          end)
  end.

(** The queue and the two dictionaries of [getPathTree]. *)
Record PathState : Type := mkPathState {
  queue : list Coords;
  paths : gmap Z Coords;
  dst : gmap Z dist;
}.

(** The body of the inner loop of [getPathTree], for one [adjPos]. *)
Definition relax (m : Map) (range : Z) (mode : MovementClass) (atPos : Coords)
    (st : PathState) (adjPos : Coords) : result PathState :=
  tile ← defined (getTile m adjPos);
  movementCost ← movementCostFor mode tile;
  let candidate := dist_add (distAt (dst st) (pos m atPos)) movementCost in
  if match dst st !! pos m adjPos with
     | None => true
     | Some d => dist_gt d candidate
     end
  then
    let dst' := <[pos m adjPos := candidate]> (dst st) in
    if dist_le candidate range
    then Ok {| queue := queue st ++ [adjPos];
               paths := <[pos m adjPos := atPos]> (paths st);
               dst := dst' |}
    else Ok {| queue := queue st; paths := paths st; dst := dst' |}
  else Ok st.

(** [while (queue.length)], bounded by [fuel] iterations. *)
Fixpoint pathLoop (fuel : nat) (m : Map) (range : Z) (mode : MovementClass)
    (st : PathState) : result (gmap Z Coords * gmap Z dist) :=
  match queue st with
  | [] => Ok (paths st, dst st)
  | atPos :: rest =>
      match fuel with
      | O => OutOfFuel
      | S fuel' =>
          st' ← forEach (getNeighborsCoords m atPos 1 None)
                  (relax m range mode atPos)
                  {| queue := rest; paths := paths st; dst := dst st |};
          pathLoop fuel' m range mode st'
      end
  end.

(** Iterations granted to the loop: more than it ever needs when the
    movement costs are not negative. *)
Definition pathFuel (m : Map) (range : Z) : nat :=
  S (length (tiles m) * (Z.to_nat range + 2)).

(** [getPathTree(srcPos, range, mode)]: returns [[paths, dst]]. *)
Definition getPathTree (m : Map) (srcPos : Coords) (range : Z) (mode : MovementClass)
    : result (gmap Z Coords * gmap Z dist) :=
  pathLoop (pathFuel m range) m range mode
    {| queue := [srcPos]; paths := ∅; dst := {[pos m srcPos := Fin 0]} |}.

(** *** Trade routes *)

Definition TRADER_SPEED : Z := 1.
Definition TRADER_CAPACITY : Yield := {| food := 10; production := 10 |}.

(** [findPath(pathTree, srcPosKey, target)]; [null] is [None].  The source
    recurses along the parents; on a cycle it would not return, which is
    [OutOfFuel] here. *)
Fixpoint findPath (fuel : nat) (m : Map) (pathTree : gmap Z Coords)
    (srcPosKey : Z) (target : Coords) : result (option (list Coords)) :=
  match fuel with
  | O => OutOfFuel
  | S fuel' =>
      match pathTree !! srcPosKey with
      | Some parent =>
          if pos m parent =? pos m target then Ok (Some [target])
          else
            subPath ← findPath fuel' m pathTree (pos m parent) target;
            match subPath with
            | None => Ok None
            | Some sub => Ok (Some (parent :: sub))
            end
      | None => Ok None
      end
  end.

(** The tile object [getTile(c)], for [===]. *)
Definition tileRef (m : Map) (c : Coords) : option Z :=
  match getTile m c with
  | Some _ => Some (pos m c)
  | None => None
  end.

(** [findRoute(pathTree, dst, srcPosKey, target)] *)
Definition findRoute (m : Map) (pathTree : gmap Z Coords) (dst : gmap Z dist)
    (srcPosKey : Z) (target : Coords) : result (option (list Coords * dist)) :=
  let srcCoords := coords m srcPosKey in
  path ← findPath (S (size pathTree)) m pathTree srcPosKey target;
  match path with
  | None => Ok None
  | Some path =>
      let fullPath := srcCoords :: path in
      if bool_decide (tileRef m srcCoords = tileRef m srcCoords)
         && bool_decide (Some (tileRef m target) = tileRef m <$> last path)
      then Ok (Some (fullPath, distAt dst srcPosKey))
      else Ok None
  end.

(** [keys.sort((a, b) => dst[a] > dst[b] ? 1 : -1)] as an insertion sort.
    The comparator never returns 0, so the source leaves the order among
    equal distances to the engine: here every key is inserted, from the first
    to the last, in front of the keys at the same distance, which is what the
    insertion sort of the engine does with this comparator (the later key
    comes first). *)
Fixpoint insertByDist (dst : gmap Z dist) (a : Z) (l : list Z) : list Z :=
  match l with
  | [] => [a]
  | b :: rest =>
      if dist_gt (distAt dst a) (distAt dst b)
      then b :: insertByDist dst a rest
      else a :: l
  end.

Definition sortByDist (dst : gmap Z dist) (keys : list Z) : list Z :=
  foldl (fun sorted a => insertByDist dst a sorted) [] keys.

(** [Object.keys(d)]: the integer keys in ascending order. *)
Definition keysOf {A : Type} (d : gmap Z A) : list Z :=
  merge_sort Z.le (map fst (map_to_list d)).

(** [new Trader(civID, route, source, sink, speed, capacity)] followed by
    [addTrader]: the trader enters the heap, subscribes to its producer and
    its sink, and joins the live traders.  Modelled from the spec (sections 3
    and 4.2), the constructor being in trade.ts. *)
Definition addNewTrader (m : Map) (civID : Z) (route : list Coords * dist)
    (source sink : Z) (capacity : Yield) : result Map :=
  _ ← defined (tileAt m source ≫= improvement);
  _ ← defined (tileAt m sink ≫= improvement);
  let id := length (traderHeap m) in
  let trader :=
    {| t_civID := civID; t_route := route; t_source := source; t_sink := sink;
       t_speed := TRADER_SPEED; t_capacity := capacity;
       t_carried := newYield noParams; t_expired := false |} in
  let m1 := updateTileAt m source
              (fun t => set_improvement t
                          ((fun i => subscribeTrader i id) <$> improvement t)) in
  let m2 := updateTileAt m1 sink
              (fun t => set_improvement t
                          ((fun i => subscribeSupplier i id) <$> improvement t)) in
  Ok (set_traders_of_map m2 (traders m2 ++ [id]) (traderHeap m2 ++ [trader])).

(** The loop of [createTradeRoutes] over the sorted keys. *)
Fixpoint tradeRoutesLoop (posKeys : list Z) (m : Map) (civID : Z) (c : Coords)
    (sink : Z) (requirement : Yield) (pathTree : gmap Z Coords) (dst : gmap Z dist)
    : result Map :=
  match posKeys with
  | [] => Ok m
  | p :: rest =>
      tile ← defined (tileAt m p);
      m' ← (if bool_decide (ownerCivID m tile = Some civID)
               && canSupply tile requirement
            then
              route ← findRoute m pathTree dst p c;
              match route with
              | None => Ok m
              | Some route =>
                  addNewTrader m civID route p sink
                    (Yield_min TRADER_CAPACITY requirement)
              end
            else Ok m);
      tradeRoutesLoop rest m' civID c sink requirement pathTree dst
  end.

(** [createTradeRoutes(civID, coords, sink, requirement, range = 5, mode = 0)];
    [sink] is the index of the tile whose improvement is handed over. *)
Definition createTradeRoutes (m : Map) (civID : Z) (c : Coords) (sink : Z)
    (requirement : Yield) (range : Z) (mode : MovementClass) : result Map :=
  '(pathTree, dst) ← getPathTree m c range mode;
  tradeRoutesLoop (sortByDist dst (keysOf dst)) m civID c sink requirement
    pathTree dst.

(** *** Actions *)

(** [canSettleOn(tile)] *)
Definition canSettleOn (tile : Tile) : bool :=
  negb (bool_decide (is_Some (owner tile)))
  && negb (bool_decide (tile_type tile = "ocean"))
  && negb (bool_decide (tile_type tile = "frozen_ocean"))
  && negb (bool_decide (tile_type tile = "mountain"))
  && negb (bool_decide (tile_type tile = "coastal"))
  && negb (bool_decide (tile_type tile = "frozen_coastal"))
  && negb (bool_decide (tile_type tile = "river")).

(** [canBuildOn(tile)] *)
Definition canBuildOn (tile : Tile) : bool :=
  negb (bool_decide (tile_type tile = "ocean"))
  && negb (bool_decide (tile_type tile = "frozen_ocean"))
  && negb (bool_decide (tile_type tile = "mountain")).

(** [buildImprovementAt(coords, type, ownerID)] *)
Definition buildImprovementAt (m : Map) (c : Coords) (type : string) (ownerID : Z)
    : result Map :=
  tile ← defined (getTile m c);
  if negb (bool_decide (ownerCivID m tile = Some ownerID)) then Ok m
  else if negb (canBuildOn tile) then Ok m
  else
    let m1 := updateTileAt m (pos m c)
                (fun t => set_improvement t (Some (newImprovement type (baseYield t)))) in
    Ok (tileUpdate m1 c).

(** [settleCityAt(coords, name, civID)] *)
Definition settleCityAt (m : Map) (c : Coords) (name : string) (civID : Z)
    : result (Map * bool) :=
  tile ← defined (getTile m c);
  if negb (canSettleOn tile) then Ok (m, false)
  else
    let city := length (cities m) in
    let m1 := set_cities m (cities m ++ [newCity c name civID]) in
    m2 ← forEach (getNeighborsCoords m1 c 1 None)
           (fun s neighbor =>
              s' ← setTileOwner s neighbor city false;
              Ok (tileUpdate s' neighbor)) m1;
    m3 ← buildImprovementAt m2 c "settlement" civID;
    Ok (m3, true).

(** Modelled from the spec: [new WorkErrand(storage, action)] of errand.ts,
    which is missing: the cost comes from the cost table, nothing is stored
    yet, and the capacity of the shared store is raised to the cost. *)
Definition newWorkErrand (storage : ResourceStore) (action : ErrandAction)
    : WorkErrand * ResourceStore :=
  let cost := errandCostTable (a_type action) (a_option action) in
  ({| e_type := a_type action; e_option := a_option action;
      e_location := a_location action; e_cost := cost;
      e_storedThisTurn := newYield noParams; e_completed := false |},
   setCapacity storage (Some (paramsOf cost))).

(** [Improvement.startErrand(errand)] *)
Definition startErrand (i : Improvement) (action : ErrandAction) : Improvement :=
  let '(e, st) := newWorkErrand (storage i) action in
  set_errand (set_storage i st) (Some e).

(** [startErrandAt(coords, improvement, errand)]; the improvement handed over
    is the one of the tile at index [p]. *)
Definition startErrandAt (m : Map) (c : Coords) (p : Z) (action : ErrandAction) : Map :=
  tileUpdate
    (updateTileAt m p
       (fun t => set_improvement t
                   ((fun i => startErrand i action) <$> improvement t)))
    c.

(** [(tile.improvement as Worksite).errand.cost], read after the errand has
    started. *)
Definition errandCostAt (m : Map) (p : Z) : result Yield :=
  i ← defined (tileAt m p ≫= improvement);
  e ← defined (errand i);
  Ok (e_cost e).

(** [startConstructionAt(coords, improvementType, ownerID)] *)
Definition startConstructionAt (m : Map) (c : Coords) (improvementType : string)
    (ownerID : Z) : result Map :=
  tile ← defined (getTile m c);
  if negb (bool_decide (ownerCivID m tile = Some ownerID)) then Ok m
  else
    let p := pos m c in
    let m1 := updateTileAt m p
                (fun t => set_improvement t (Some (newImprovement "worksite" (baseYield t)))) in
    let m2 := startErrandAt m1 c p
                {| a_type := CONSTRUCTION; a_option := improvementType;
                   a_location := None |} in
    cost ← errandCostAt m2 p;
    m3 ← createTradeRoutes m2 ownerID c p cost 5 LAND;
    Ok (tileUpdate m3 c).

(** [trainUnitAt(coords, unitType, ownerID)] *)
Definition trainUnitAt (m : Map) (c : Coords) (unitType : string) (ownerID : Z)
    : result Map :=
  tile ← defined (getTile m c);
  m' ← match improvement tile with
       | Some i =>
           if bool_decide (ownerCivID m tile = Some ownerID)
              && bool_decide (unitType ∈ getTrainableUnitTypes tile)
              && negb (bool_decide (is_Some (errand i)))
           then
             let p := pos m c in
             let m1 := startErrandAt m c p
                         {| a_type := UNIT_TRAINING; a_option := unitType;
                            a_location := Some c |} in
             cost ← errandCostAt m1 p;
             createTradeRoutes m1 ownerID c p cost 5 LAND
           else Ok m
       | None => Ok m
       end;
  Ok (tileUpdate m' c).

Definition researchableKnowledgeBranchTable : list (string * list KnowledgeBranch) :=
  [ ("campus", [OFFENSE; DEFESNSE; CIVICS; DEVELOPMENT]) ].

(** [Improvement.getResearchableKnowledgeBranches()]:
    [researchableKnowledgeBranchTable[this.type] ?? []].  For a key of
    [Object.prototype] the value is neither [undefined] nor an array: [None]
    here. *)
Definition getResearchableKnowledgeBranches (i : Improvement)
    : option (list KnowledgeBranch) :=
  match assoc (i_type i) researchableKnowledgeBranchTable with
  | Some l => Some l
  | None => if inherited (i_type i) then None else Some []
  end.

(** [Improvement.getResearchableKnowledgeNames()]: [.reduce] is called on
    what [getResearchableKnowledgeBranches()] returns, which raises a
    [TypeError] when that is not an array. *)
Definition getResearchableKnowledgeNames (i : Improvement) : result (list string) :=
  match getResearchableKnowledgeBranches i with
  | Some branches =>
      Ok (map fst (filter (fun k => snd k ∈ branches) getKnowledgeList))
  | None => TypeError
  end.

(** [researchKnowledgeAt(coords, knowledgeName, ownerID)]: the list of
    knowledges is asked for once the owner and the improvement have passed. *)
Definition researchKnowledgeAt (m : Map) (c : Coords) (knowledgeName : string)
    (ownerID : Z) : result Map :=
  tile ← defined (getTile m c);
  m' ← match improvement tile with
       | Some i =>
           if bool_decide (ownerCivID m tile = Some ownerID) then
             names ← getResearchableKnowledgeNames i;
             if bool_decide (knowledgeName ∈ names)
                && negb (bool_decide (is_Some (errand i)))
             then
               let p := pos m c in
               let m1 := startErrandAt m c p
                           {| a_type := RESEARCH; a_option := knowledgeName;
                              a_location := Some c |} in
               cost ← errandCostAt m1 p;
               createTradeRoutes m1 ownerID c p cost 5 LAND
             else Ok m
           else Ok m
       | None => Ok m
       end;
  Ok (tileUpdate m' c).

(** *** Knowledge spillover (the second half of the callback of [turn]) *)

(** A call [tile.addKnowledge(knowledge, points, decay, maxPoints)] on the
    tile at [ak_coords]. *)
Record AddKnowledge : Type := mkAddKnowledge {
  ak_coords : Coords;
  ak_name : string;
  ak_points : Z;
  ak_decay : QArith_base.Q;
  ak_maxPoints : Z;
}.

(** Lines 505-514 of [turn], for the tile [tile] at [coords]: returns the map
    and, in order, the calls of [addKnowledge] that were made. *)
Definition spillover (m : Map) (tile : Tile) (c : Coords) : Map * list AddKnowledge :=
  if bool_decide (0 < length (getKnowledges tile false))%nat then
    foldl (fun '(s, calls) '(name, (spilloverPoints, maxPoints)) =>
             foldl (fun '(s', calls') neighborCoords =>
                      (updateTileAt s' (pos s' neighborCoords)
                         (fun t => addKnowledge t name spilloverPoints
                                     (QArith_base.Qmake 1 10) maxPoints),
                       (calls' ++ [ {| ak_coords := neighborCoords;
                                       ak_name := name;
                                       ak_points := spilloverPoints;
                                       ak_decay := QArith_base.Qmake 1 10;
                                       ak_maxPoints := maxPoints |} ])%list))
                   (s, calls) (getNeighborsCoords s c 1 None))
          (m, []) (getKnowledgeSpillover tile)
  else (m, []).

End MapMethods.

(** ** A sample world, to run the embedding on

    The hex layout is the odd-x offset of the spec (section 4.1); the tables
    are small samples of the missing ones. *)

(** Modelled from the spec: [getAdjacentCoords] of utils.ts, which is missing:
    the six neighbours, with y offsets that depend on the parity of x. *)
Definition sampleAdjacentCoords (c : Coords) : list Coords :=
  let x := cx c in
  let y := cy c in
  if mod_ x 2 =? 1 then
    [ mkCoords x (y + 1); mkCoords (x + 1) (y + 1); mkCoords (x + 1) y;
      mkCoords x (y - 1); mkCoords (x - 1) y; mkCoords (x - 1) (y + 1) ]
  else
    [ mkCoords x (y + 1); mkCoords (x + 1) y; mkCoords (x + 1) (y - 1);
      mkCoords x (y - 1); mkCoords (x - 1) (y - 1); mkCoords (x - 1) y ].

(** Modelled from the spec: [getCoordInDirection] of utils.ts, which is
    missing: the neighbour in direction [d], taken modulo 6. *)
Definition sampleCoordInDirection (c : Coords) (d : Z) : Coords :=
  match sampleAdjacentCoords c !! Z.to_nat (mod_ d 6) with
  | Some n => n
  | None => c
  end.

(** Modelled from the spec: [addKnowledge] clamps to [maxPoints] and never
    decreases (section 4.5); the decay is not used by the sample. *)
Definition sampleAddKnowledge (t : Tile) (name : string) (points : Z)
    (decay : QArith_base.Q) (maxPoints : Z) : Tile :=
  let old := orZero (knowledges t !! name) in
  {| movementCost := movementCost t; tile_type := tile_type t;
     tile_unit := tile_unit t; improvement := improvement t; owner := owner t;
     discoveredBy := discoveredBy t; visibleTo := visibleTo t;
     baseYield := baseYield t; elevation := elevation t;
     knowledges := <[name := Z.max old (Z.min maxPoints (old + points))]> (knowledges t) |}.

Definition sampleExternals : Externals :=
  {| getAdjacentCoords := sampleAdjacentCoords;
     getCoordInDirection := sampleCoordInDirection;
     errandCostTable := fun _ _ => {| food := 5; production := 0 |};
     getTrainableUnitTypes :=
       fun t =>
         match improvement t with
         | Some i =>
             if bool_decide (i_type i = "settlement") then ["settler"]
             else if bool_decide (i_type i = "encampment")
                  then ["warrior"; "archer"; "scout"]
                  else []
         | None => []
         end;
     canSupply :=
       fun t requirement =>
         match improvement t with
         | Some i =>
             ((0 <? food requirement) && (0 <? food (value (storage i))))
             || ((0 <? production requirement) && (0 <? production (value (storage i))))
         | None => false
         end;
     getKnowledgeList := [ ("scout", OFFENSE); ("r1", CIVICS) ];
     getKnowledges := fun t _ => map fst (map_to_list (knowledges t));
     getKnowledgeSpillover :=
       fun t => map (fun kv => (fst kv, (1, 100))) (map_to_list (knowledges t));
     addKnowledge := sampleAddKnowledge |}.

(** A map of [height] rows and [width] columns of plains, of height 0 and
    base yield [{food: 1}]. *)
Definition plainsTile : Tile :=
  newTile "plains" 0 (newYield {| p_food := Some 1; p_production := None |}).

Definition plainsMap (height width : Z) : Map :=
  newMap height width (replicate (Z.to_nat (height * width)) plainsTile).

(** ** The statements of the specification that are compared with the code *)

(** A tile on which [clearVisibility(civID)] has never run: it comes from the
    constructor through any other method. *)
Inductive uninitialised (civID : Z) : Tile -> Prop :=
  | uninitialised_new type tileHeight baseYield :
      uninitialised civID (newTile type tileHeight baseYield)
  | uninitialised_setVisibility t c visible :
      uninitialised civID t -> uninitialised civID (setVisibility t c visible)
  | uninitialised_clearVisibility t c :
      c <> civID -> uninitialised civID t -> uninitialised civID (clearVisibility t c)
  | uninitialised_setUnit t u :
      uninitialised civID t -> uninitialised civID (setUnit t u)
  | uninitialised_set_improvement t i :
      uninitialised civID t -> uninitialised civID (set_improvement t i)
  | uninitialised_set_owner t o :
      uninitialised civID t -> uninitialised civID (set_owner t o).

(** The discovered snapshot as the specification words it (section 4.2): the
    visible snapshot minus the unit, carrying [visible = false]. *)
Definition discoveredSnapshot_spec (cities : list City) (t : Tile) : TileData :=
  let d := getVisibleData cities t in
  {| td_type := td_type d;
     td_movementCost := td_movementCost d;
     td_improvement := td_improvement d;
     td_owner := td_owner d;
     td_yield := td_yield d;
     td_unit := None;
     td_visible := Some false |}.

(** [getCivTile] as the specification words it: [null] when not discovered,
    the visible snapshot when [visibleTo[civ] > 0], the discovered snapshot
    otherwise. *)
Definition getCivTile_spec (m : Map) (civID : Z) (tile : Tile) : option TileData :=
  if flag (discoveredBy tile !! civID) then
    if jsnum_pos (visibleTo tile !! civID)
    then Some (getVisibleData (cities m) tile)
    else Some (discoveredSnapshot_spec (cities m) tile)
  else None.

(** A scout of civilization 0. *)
Definition scoutAt (c : Coords) : Unit :=
  {| u_type := "scout"; u_hp := 100; u_movement := 5; u_civID := 0;
     u_coords := c; u_visionRange := 2 |}.

(** A plains tile that civilization 0 has discovered, holding a scout, with
    the visibility counter of civilization 0 at [n]. *)
Definition discoveredTile (n : jsnum) : Tile :=
  set_sight (set_unit plainsTile (Some (scoutAt (mkCoords 0 0))))
    {[ 0 := true ]} {[ 0 := n ]}.

(** A map whose array holds a tile at every index below [height * width]. *)
Definition populated (m : Map) : Prop :=
  0 < width m /\ Z.of_nat (length (tiles m)) = height m * width m.

(** The tile at index [p] belongs to the city [city] of civilization [civID],
    named [name] and centred on [centre], and has kept its type and base
    yield. *)
Definition settled (w : Z) (p : Z) (city : nat) (civID : Z) (name : string)
    (centre : Coords) (type : string) (s : Map) : Prop :=
  width s = w
  /\ (exists t, tileAt s p = Some t /\ owner t = Some city /\ tile_type t = type)
  /\ (exists ci, cities s !! city = Some ci /\ c_civID ci = civID
                 /\ c_name ci = name /\ c_center ci = centre).

(** Two maps with the same width and as many tiles: [getTile] is defined on
    the same coordinates. *)
Definition sameShape (m s : Map) : Prop :=
  width s = width m /\ length (tiles s) = length (tiles m).

(** ** A town that trains a warrior

    Civilization 0 settles Rome on the middle of a 3 by 3 map of plains,
    replaces the settlement by an encampment and starts training a warrior
    there. *)

(** The map a handler returns, or [m] when it raised. *)
Definition mapOr (m : Map) (r : result Map) : Map :=
  match r with
  | Ok m' => m'
  | _ => m
  end.

Definition settledMap : Map :=
  match settleCityAt (H := sampleExternals) (plainsMap 3 3) (mkCoords 1 1) "Rome" 0 with
  | Ok (m, _) => m
  | _ => plainsMap 3 3
  end.

Definition encampmentMap : Map :=
  mapOr settledMap (buildImprovementAt settledMap (mkCoords 1 1) "encampment" 0).

Definition trainingMap : Map :=
  mapOr encampmentMap
    (trainUnitAt (H := sampleExternals) encampmentMap (mkCoords 1 1) "warrior" 0).

(** ** A farm that supplies a town

    Civilization 0 settles Rome on the middle of a 3 by 3 map of plains and
    builds a farm on the tile at (1, 2); the farm works for a turn and stores
    what it yields; then trade routes towards Rome are created for a
    requirement of 5 food. *)
Definition farmedMap : Map :=
  mapOr settledMap (buildImprovementAt settledMap (mkCoords 1 2) "farm" 0).

Definition workedMap : Map :=
  updateTileAt farmedMap (pos farmedMap (mkCoords 1 2))
    (fun t => set_improvement t
                ((fun i => snd (work (traderHeap farmedMap) i)) <$> improvement t)).

Definition routedMap : Map :=
  mapOr workedMap
    (createTradeRoutes (H := sampleExternals) workedMap 0 (mkCoords 1 1) 4
       {| food := 5; production := 0 |} 5 LAND).

(** The type of the improvement at [c] and its errand: type, option and
    whether it is completed. *)
Definition errandAt (m : Map) (c : Coords)
    : option (string * option (ErrandType * string * bool)) :=
  match getTile m c with
  | Some t =>
      match improvement t with
      | Some i =>
          Some (i_type i,
                (fun e => (e_type e, e_option e, e_completed e)) <$> errand i)
      | None => None
      end
  | None => None
  end.

(** ** The neighbourhood of radius 1, written out

    Of the coordinates [l], in order, those that have a tile whose index is
    not in [seen] yet; a tile is taken once. *)
Fixpoint addFresh (m : Map) (seen : gset Z) (l : list Coords) : list Coords :=
  match l with
  | [] => []
  | a :: rest =>
      if bool_decide (is_Some (getTile m a)) && negb (bool_decide (pos m a ∈ seen))
      then a :: addFresh m ({[pos m a]} ∪ seen) rest
      else addFresh m seen rest
  end.

(** A 3 by 3 map of plains whose middle tile holds 10 points of the
    knowledge "scout". *)
Definition knowledgeTile : Tile :=
  sampleAddKnowledge plainsTile "scout" 10 (QArith_base.Qmake 1 10) 100.

Definition knowledgeMap : Map :=
  updateTileAt (plainsMap 3 3) 4 (fun _ => knowledgeTile).

(** The call of [addKnowledge] that [turn] makes on the tile at [nc] for the
    entry [k] of the spillover: [k] is the name and
    [[spilloverPoints, maxPoints]]; the decay is 0.1. *)
Definition spilloverCall (k : string * (Z * Z)) (nc : Coords) : AddKnowledge :=
  {| ak_coords := nc;
     ak_name := fst k;
     ak_points := fst (snd k);
     ak_decay := QArith_base.Qmake 1 10;
     ak_maxPoints := snd (snd k) |}.

(** ** Measures for the path tree *)

(** The movement costs of every tile are there and are not negative, as in
    [tileMovementCostTable]. *)
Definition wellCosted (m : Map) : Prop :=
  forall tile, tile ∈ tiles m ->
    exists costs, movementCost tile = Some costs /\ Forall (fun c => 0 <= c) costs.

(** [wellCosted], decided. *)
Definition wellCostedb (m : Map) : bool :=
  forallb (fun tile =>
             match movementCost tile with
             | Some costs => forallb (fun c => 0 <=? c) costs
             | None => false
             end) (tiles m).

(** What an entry of [dst] can still lose: an entry that is missing weighs
    [R + 2], one beyond the range [R + 1], one within the range its
    distance. *)
Definition weight (R : nat) (d : option dist) : nat :=
  match d with
  | None => R + 2
  | Some (Fin v) => Z.to_nat (Z.min v (Z.of_nat R + 1))
  | Some _ => R + 1
  end.

(** The weight of the entries of the [n] tiles. *)
Definition potential (R n : nat) (dst : gmap Z dist) : nat :=
  sum_list_with (fun i => weight R (dst !! Z.of_nat i)) (seq 0 n).

(** Every finite distance is at least 0. *)
Definition nonNegative (dst : gmap Z dist) : Prop :=
  forall p v, dst !! p = Some (Fin v) -> 0 <= v.

(** Every tile with a parent has a distance within the range. *)
Definition parentsWithinRange (range : Z) (paths : gmap Z Coords) (dst : gmap Z dist)
    : Prop :=
  forall p parent, paths !! p = Some parent ->
    exists d, dst !! p = Some (Fin d) /\ d <= range.


(** ** A ring of mountains

    A 7 by 7 map of plains with mountains on the ring at distance 2 from the
    middle tile (3, 3). *)
Definition mountainTile : Tile := newTile "mountain" 0 (newYield noParams).

Definition ringMap : Map :=
  let base := plainsMap 7 7 in
  let near :=
    map (pos base)
      (getNeighborsCoords (H := sampleExternals) base (mkCoords 3 3) 1 None) in
  foldl (fun m c =>
           if bool_decide (pos base c ∈ near) then m
           else updateTileAt m (pos base c) (fun _ => mountainTile))
        base
        (getNeighborsCoords (H := sampleExternals) base (mkCoords 3 3) 2 None).

(** ** A town without units

    On a 3 by 3 map of plains the counters of both civilizations are cleared
    ([updateCivTileVisibility] for a civilization that has no unit); then
    civilization 0 settles Rome in the middle. *)
Definition clearedMap : Map :=
  updateCivTileVisibility (H := sampleExternals)
    (updateCivTileVisibility (H := sampleExternals) (plainsMap 3 3) 0 []) 1 [].

Definition romeMap : Map :=
  match settleCityAt (H := sampleExternals) clearedMap (mkCoords 1 1) "Rome" 0 with
  | Ok (m, _) => m
  | _ => clearedMap
  end.

(** [tile.visibleTo[civID]] of the tile at [c]. *)
Definition counterAt (m : Map) (c : Coords) (civID : Z) : option jsnum :=
  getTile m c ≫= fun t => visibleTo t !! civID.

(** Two maps with the same width and the same total elevations: lines of
    sight are the same on both. *)
Definition sameTerrain (m s : Map) : Prop :=
  width s = width m
  /\ forall p, getTotalElevation <$> tileAt s p = getTotalElevation <$> tileAt m p.

(** How often the tile at index [p] is among the coordinates [l]. *)
Definition hits (m : Map) (p : Z) (l : list Coords) : Z :=
  Z.of_nat (length (filter (fun c => pos m c = p) l)).

(** The list of coordinates of a line of sight names no tile twice, and
    every tile it names is in the set of tiles seen. *)
Definition tidy (m : Map) (st : Sight) : Prop :=
  NoDup (pos m <$> coordsArray st)
  /\ forall c, c ∈ coordsArray st -> pos m c ∈ seen st.

(** ** A scout that moves

    On a 9 by 9 map of plains the counters of civilization 0 are rebuilt
    from its one scout at (4, 4); the scout then moves to (4, 5). *)
Definition litMap : Map :=
  updateCivTileVisibility (H := sampleExternals) (plainsMap 9 9) 0
    [scoutAt (mkCoords 4 4)].

Definition movedMap : Map :=
  match moveUnitTo (H := sampleExternals) litMap (scoutAt (mkCoords 4 4)) (mkCoords 4 5) with
  | Ok (m, _) => m
  | _ => litMap
  end.

(** What a construction, a training or a research leaves visible of the
    improvement of a tile: its type and its errand. *)
Definition errandOf (t : Tile) : option (string * option WorkErrand) :=
  (fun i => (i_type i, errand i)) <$> improvement t.

(** Two maps with the same width whose tiles have the same improvement types
    and errands. *)
Definition sameErrands (m s : Map) : Prop :=
  width s = width m
  /\ forall p, errandOf <$> tileAt s p = errandOf <$> tileAt m p.

(** ** Distances on the hex grid *)

Section Steps.
Context `{Externals}.

(** [c'] is [c] or can be reached from it in at most [n] steps, each to one
    of the coordinates [getAdjacentCoords] gives. *)
Fixpoint withinSteps (n : nat) (c c' : Coords) : Prop :=
  c' = c
  \/ match n with
     | O => False
     | S n' => exists a, a ∈ getAdjacentCoords c /\ withinSteps n' a c'
     end.

End Steps.

(** The list of coordinates of a neighbourhood names no tile twice, and
    every tile it names is in the set of tiles. *)
Definition neat (m : Map) (st : Neighbors) : Prop :=
  NoDup (pos m <$> coordList st)
  /\ forall c, c ∈ coordList st -> pos m c ∈ tileSet st.

(** ** Calls that change what a civilization sees of a tile *)

(** A sequence of calls [setVisibility(civID, visible)] on one tile. *)
Definition setVisibilities (t : Tile) (calls : list (Z * bool)) : Tile :=
  foldl (fun t0 (call : Z * bool) => setVisibility t0 (fst call) (snd call)) t calls.

(** What the calls for [civID] add up to: 1 for a call with [true], -1 for a
    call with [false]. *)
Definition lightSum (civID : Z) (calls : list (Z * bool)) : Z :=
  foldr (fun (call : Z * bool) acc =>
           if bool_decide (fst call = civID)
           then (if snd call then 1 else -1) + acc
           else acc) 0 calls.

(** Whether [civID] is lit by one of the calls. *)
Definition litBy (civID : Z) (calls : list (Z * bool)) : bool :=
  existsb (fun call : Z * bool => bool_decide (fst call = civID) && snd call) calls.

(** ** Founding a city *)

Section FoundingInvariant.
Context `{Externals}.

(** What the map [s] has kept of the map [m] while the city with handle
    [city] is being founded around [c]. *)
Definition foundingInv (m : Map) (c : Coords) (city : nat) (s : Map) : Prop :=
  width s = width m
  /\ length (cities s) = S (length (cities m))
  /\ city = length (cities m)
  /\ (forall o ci, cities m !! o = Some ci -> cities s !! o = Some ci)
  /\ (forall p t o, tileAt m p = Some t -> owner t = Some o ->
        exists t', tileAt s p = Some t' /\ owner t' = Some o)
  /\ (forall p t t', tileAt m p = Some t -> owner t = None ->
        tileAt s p = Some t' ->
        owner t' = None
        \/ (owner t' = Some city
            /\ exists c', c' ∈ getNeighborsCoords m c 1 None /\ pos m c' = p)).

End FoundingInvariant.

(** ** The path tree as a tree *)

Section PathTreeInvariant.
Context `{Externals}.

(** The parent entry [paths[p] = a] is in good standing: [p] is the index of
    a coordinate next to [a], both have a distance, the one of [a] is smaller
    by the cost of entering [p] at least, and [a] is the source or has a
    parent itself. *)
Definition goodParent (m : Map) (mode : MovementClass) (srcPos : Coords)
    (paths : gmap Z Coords) (dst : gmap Z dist) (p : Z) (a : Coords) : Prop :=
  exists dp da adj tile cost,
    dst !! p = Some (Fin dp) /\ dst !! pos m a = Some (Fin da)
    /\ adj ∈ getNeighborsCoords m a 1 None /\ pos m adj = p
    /\ getTile m adj = Some tile /\ movementCostFor mode tile = Ok (Fin cost)
    /\ 0 < cost /\ 0 <= da /\ da + cost <= dp
    /\ (pos m a = pos m srcPos \/ is_Some (paths !! pos m a)).

(** The source is at distance 0 and has no parent, and every parent entry is
    in good standing. *)
Definition rootedTree (m : Map) (mode : MovementClass) (srcPos : Coords)
    (paths : gmap Z Coords) (dst : gmap Z dist) : Prop :=
  dst !! pos m srcPos = Some (Fin 0)
  /\ paths !! pos m srcPos = None
  /\ forall p a, paths !! p = Some a -> goodParent m mode srcPos paths dst p a.

(** The invariant of the loop of [getPathTree]. *)
Definition treeInv (m : Map) (range : Z) (mode : MovementClass) (srcPos : Coords)
    (st : PathState) : Prop :=
  rootedTree m mode srcPos (paths st) (dst st)
  /\ nonNegative (dst st)
  /\ parentsWithinRange range (paths st) (dst st)
  /\ forall a, a ∈ queue st ->
       pos m a = pos m srcPos \/ is_Some (paths st !! pos m a).

End PathTreeInvariant.

(** [path] is what following the parent entries from the index [p] gives: it
    names every parent on the way, and [target] in place of the last one,
    whose index is the index of [target]. *)
Fixpoint followsParents (m : Map) (pathTree : gmap Z Coords) (p : Z)
    (path : list Coords) (target : Coords) : Prop :=
  match path with
  | [] => False
  | x :: rest =>
      exists parent,
        pathTree !! p = Some parent
        /\ match rest with
           | [] => x = target /\ pos m parent = pos m target
           | _ :: _ =>
               x = parent /\ pos m parent <> pos m target
               /\ followsParents m pathTree (pos m parent) rest target
           end
  end.

(** The indices with a parent whose distance is below [d]. *)
Definition cheaper (dst : gmap Z dist) (d : Z) (k : Z) : bool :=
  match dst !! k with
  | Some (Fin x) => x <? d
  | _ => false
  end.

Definition below (paths : gmap Z Coords) (dst : gmap Z dist) (d : Z) : gset Z :=
  filter (fun k => cheaper dst d k = true) (dom paths).

(** ** A farm, where nothing can be researched *)

Definition farmTile : Tile :=
  set_improvement plainsTile (Some (newImprovement "farm" (baseYield plainsTile))).

Definition farmMap : Map := updateTileAt (plainsMap 2 2) 0 (fun _ => farmTile).

(** ** Players and civilization numbers (dist/server/game.js, src/server/game.ts) *)

(** [Player] (dist/server/game.js, lines 202-209): [isAI] is [!connection];
    the connection itself is the recipient of the messages sent. *)
Record Player : Type := mkPlayer {
  pl_civID : Z;
  pl_ready : bool;
  pl_isAI : bool;
}.

(** [Math.min(...l)] of a list that is not empty. *)
Definition minimum (l : list Z) : option Z :=
  match l with
  | [] => None
  | x :: rest => Some (foldl Z.min x rest)
  end.

(** The loop [for (const player in this.players)] of [newPlayerCivID]
    (src/server/game.ts, lines 129-132); [players] are the entries of
    [this.players] in the order of the enumeration, [freeCivs] the keys of the
    object of the same name.  [inl] is the early [return]. *)
Fixpoint claimCivs (username : string) (players : list (string * Player))
    (freeCivs : list Z) : Z + list Z :=
  match players with
  | [] => inr freeCivs
  | (player, p) :: rest =>
      if bool_decide (username = player) then inl (pl_civID p)
      else claimCivs username rest (filter (fun i => i ≠ pl_civID p) freeCivs)
  end.

(** [Game.newPlayerCivID(username)] (src/server/game.ts, lines 123-141, and
    src/server/game/index.ts, lines 220-238); [null] is [None]. *)
Definition newPlayerCivID (playerCount : Z) (players : list (string * Player))
    (username : string) : option Z :=
  match claimCivs username players (seqZ 0 playerCount) with
  | inl civID => Some civID
  | inr freeIDs => minimum freeIDs
  end.

(** [Game.newPlayerCivID()] as compiled earlier (dist/server/game.js, lines
    94-109): every player takes its number out. *)
Definition newPlayerCivID_dist (playerCount : Z) (players : list (string * Player))
    : option Z :=
  minimum
    (foldl (fun freeCivs (entry : string * Player) =>
              filter (fun i => i ≠ pl_civID (snd entry)) freeCivs)
           (seqZ 0 playerCount) players).

(** ** Leaders (dist/server/game/leader.js) *)

Record LeaderTemplate : Type := mkTemplate {
  lt_color : string;
  lt_textColor : string;
  lt_name : string;
}.

Definition leaderTemplates : list LeaderTemplate :=
  [ {| lt_color := "#820000"; lt_textColor := "#ccc"; lt_name := "Rokun" |};
    {| lt_color := "#0a2ead"; lt_textColor := "#ccc"; lt_name := "Azura" |};
    {| lt_color := "#03a300"; lt_textColor := "#222"; lt_name := "Vertos" |};
    {| lt_color := "#bd9a02"; lt_textColor := "#222"; lt_name := "Solei" |};
    {| lt_color := "#560e8a"; lt_textColor := "#ccc"; lt_name := "Imperius" |};
    {| lt_color := "#bd7400"; lt_textColor := "#333"; lt_name := "Baranog" |} ].

(** [civID] is [null] ([None]) while the leader is not taken. *)
Record Leader : Type := mkLeader {
  l_id : Z;
  l_color : string;
  l_textColor : string;
  l_secondaryColor : string;
  l_name : string;
  l_civID : option Z;
}.

#[global] Instance Leader_eq_dec : EqDecision Leader.
Proof. solve_decision. Defined.

(** The object [getData()] returns, which is also what [Leader.import] is
    given. *)
Record LeaderData : Type := mkLeaderData {
  ld_id : Z;
  ld_color : string;
  ld_textColor : string;
  ld_secondaryColor : string;
  ld_name : string;
  ld_civID : option Z;
}.

(** [leaderTemplates[id]]: [undefined] outside the array. *)
Definition templateAt (id : Z) : option LeaderTemplate :=
  if id <? 0 then None else leaderTemplates !! Z.to_nat id.

(** [new Leader(id)]: destructuring [leaderTemplates[id]] raises a
    [TypeError] when there is no such template. *)
Definition newLeader (id : Z) : result Leader :=
  t ← defined (templateAt id);
  Ok {| l_id := id; l_color := lt_color t; l_textColor := lt_textColor t;
        l_secondaryColor := lt_color t; l_name := lt_name t; l_civID := None |}.

(** [Leader.import(data)] *)
Definition Leader_import (data : LeaderData) : result Leader :=
  leader ← newLeader (ld_id data);
  Ok {| l_id := l_id leader; l_color := ld_color data;
        l_textColor := ld_textColor data;
        l_secondaryColor := ld_secondaryColor data; l_name := ld_name data;
        l_civID := None |}.

(** [select(civID)], [unselect()], [isTaken()] and [getData()] *)
Definition select (l : Leader) (civID : Z) : Leader :=
  {| l_id := l_id l; l_color := l_color l; l_textColor := l_textColor l;
     l_secondaryColor := l_secondaryColor l; l_name := l_name l;
     l_civID := Some civID |}.

Definition unselect (l : Leader) : Leader :=
  {| l_id := l_id l; l_color := l_color l; l_textColor := l_textColor l;
     l_secondaryColor := l_secondaryColor l; l_name := l_name l;
     l_civID := None |}.

Definition isTaken (l : Leader) : bool :=
  match l_civID l with
  | Some _ => true
  | None => false
  end.

Definition Leader_getData (l : Leader) : LeaderData :=
  {| ld_id := l_id l; ld_color := l_color l; ld_textColor := l_textColor l;
     ld_secondaryColor := l_secondaryColor l; ld_name := l_name l;
     ld_civID := l_civID l |}.

(** ** The modulus of the client (src/client/app.ts, lines 82-88) *)

(** The numbers of JavaScript are doubles.  The model is on the integers
    among them: every integer up to [2^53] in absolute value, and beyond that
    the multiples of a power of two that have 53 significant bits. *)
Definition maxSafe : Z := 2 ^ 53.

(** The double nearest to the integer [x], ties going to the even
    significand; [None] is an infinity, which is what rounding gives from
    [2^1024] on. *)
Definition roundDouble (x : Z) : option Z :=
  if Z.abs x <=? maxSafe then Some x
  else
    let e := Z.log2 (Z.abs x) - 52 in
    let q := Z.abs x / 2 ^ e in
    let r := Z.abs x mod 2 ^ e in
    let half := 2 ^ (e - 1) in
    let q' :=
      if r <? half then q
      else if half <? r then q + 1
           else if Z.even q then q else q + 1 in
    let y := q' * 2 ^ e in
    if 2 ^ 1024 <=? y then None else Some (Z.sgn x * y).

(** [a % b] on integers: exact on doubles, the remainder has the sign of
    [a]; it is [NaN] when [b] is 0.  (The negative zero that [%] gives for a
    negative [a] is 0.) *)
Definition js_rem (a b : Z) : jsnum :=
  if b =? 0 then NaN else Num (Z.rem a b).

(** [mod(a, b)] on integers: the sum [(a % b) + b] is rounded to a double,
    and the remainder of an infinity is [NaN]. *)
Definition client_mod (a b : Z) : jsnum :=
  if 0 <=? a then js_rem a b
  else
    match js_rem a b with
    | NaN => NaN
    | Num r =>
        match roundDouble (r + b) with
        | Some s => js_rem s b
        | None => NaN
        end
    end.

(** ** The traders of a trade route *)

(** A trader as [createTradeRoutes(civID, coords, sink, requirement, range)]
    creates it on the map [m]: it works for [civID] and supplies [sink]; its
    producer is another tile than the one at [coords], owned by [civID]; and
    its route starts at the producer, ends at [coords] and comes with a
    distance that is positive and within the range. *)
Definition tradeRouteTrader (m : Map) (civID : Z) (c : Coords) (sink : Z)
    (requirement : Yield) (range : Z) (t : Trader) : Prop :=
  t_civID t = civID /\ t_sink t = sink /\ t_speed t = TRADER_SPEED
  /\ t_capacity t = Yield_min TRADER_CAPACITY requirement
  /\ t_expired t = false
  /\ t_source t <> pos m c
  /\ exists path d tile,
       t_route t = (coords m (t_source t) :: path, Fin d)
       /\ 0 < d <= range /\ last path = Some c
       /\ tileAt m (t_source t) = Some tile
       /\ ownerCivID m tile = Some civID.

(** What [createTradeRoutes] has kept of the map [m] and added to it so
    far. *)
Definition tradeRoutesInv (m : Map) (civID : Z) (c : Coords) (sink : Z)
    (requirement : Yield) (range : Z) (s : Map) : Prop :=
  sameShape m s
  /\ cities s = cities m
  /\ updates s = updates m
  /\ (forall p, owner <$> tileAt s p = owner <$> tileAt m p)
  /\ exists new,
       traderHeap s = traderHeap m ++ new
       /\ traders s = traders m ++ seq (length (traderHeap m)) (length new)
       /\ Forall (tradeRouteTrader m civID c sink requirement range) new.

(** ** The encampment of Rome *)

Definition encampmentTile : Tile :=
  match getTile encampmentMap (mkCoords 1 1) with
  | Some t => t
  | None => plainsTile
  end.

Definition encampment : Improvement :=
  match improvement encampmentTile with
  | Some i => i
  | None => newImprovement "encampment" (baseYield plainsTile)
  end.

(** ** The queue of updates *)

(** Every update of the queue has captured a tile of the map: when it runs,
    [getCivTile] is handed a tile, not [undefined]. *)
Definition queueDefined (m : Map) : Prop :=
  Forall (fun u => is_Some (up_tile u ≫= tileAt m)) (updates m).

(** The map [s] has the tiles of [m] at the same indices (possibly changed)
    and the queue of [m], followed by updates that have captured a tile. *)
Definition queueExtends (m s : Map) : Prop :=
  sameShape m s
  /\ exists new,
       updates s = updates m ++ new
       /\ Forall (fun u => is_Some (up_tile u ≫= tileAt m)) new.

(** ** The path tree as a fixed point *)

Section PathTreeFixedPoint.
Context `{Externals}.

(** The test of the inner loop of [getPathTree] fails for the step from a
    tile at distance [d] to [v]: [v] has a distance, which is not greater
    than [d] plus the cost of entering [v]. *)
Definition relaxedStep (m : Map) (mode : MovementClass) (dst : gmap Z dist)
    (d : Z) (v : Coords) : Prop :=
  exists tile cost dv,
    getTile m v = Some tile /\ movementCostFor mode tile = Ok cost
    /\ dst !! pos m v = Some dv
    /\ dist_gt dv (dist_add (Fin d) cost) = false.

(** Every step from the tile with index [q], at distance [d], is relaxed. *)
Definition settledAt (m : Map) (mode : MovementClass) (dst : gmap Z dist)
    (q d : Z) : Prop :=
  forall u v, pos m u = q -> v ∈ getNeighborsCoords m u 1 None ->
    relaxedStep m mode dst d v.

(** The neighbourhoods of two coordinates with the same index have the same
    indices: the hex layout agrees with the wrap of x. *)
Definition neighboursByIndex (m : Map) : Prop :=
  forall a a' v, pos m a = pos m a' -> v ∈ getNeighborsCoords m a 1 None ->
    exists v', v' ∈ getNeighborsCoords m a' 1 None /\ pos m v' = pos m v.

(** The invariant of the inner loop of [getPathTree] while [atPos], at
    distance [L], is expanded and the neighbours [done] have been looked at:
    every other tile within the range (or the source) is in the queue or
    settled, and the steps to [done] are relaxed. *)
Definition expanding (m : Map) (range : Z) (mode : MovementClass) (srcPos atPos : Coords)
    (L : Z) (done : list Coords) (st : PathState) : Prop :=
  dst st !! pos m atPos = Some (Fin L)
  /\ (forall v, v ∈ done -> relaxedStep m mode (dst st) L v)
  /\ forall q d, dst st !! q = Some (Fin d) ->
       d <= range \/ q = pos m srcPos -> q <> pos m atPos ->
       (exists a, a ∈ queue st /\ pos m a = q) \/ settledAt m mode (dst st) q d.

(** The invariant of the outer loop: every tile within the range (or the
    source) is in the queue or settled. *)
Definition settling (m : Map) (range : Z) (mode : MovementClass) (srcPos : Coords)
    (st : PathState) : Prop :=
  forall q d, dst st !! q = Some (Fin d) ->
    d <= range \/ q = pos m srcPos ->
    (exists a, a ∈ queue st /\ pos m a = q) \/ settledAt m mode (dst st) q d.

(** No distance is [NaN]. *)
Definition numeric (dst : gmap Z dist) : Prop :=
  forall p d, dst !! p = Some d -> d <> NotANumber.

(** [reach m range mode srcPos v total]: a walk from [srcPos] ends at [v] and
    costs [total].  Every step goes from a coordinate to one of its
    [getNeighborsCoords], at the movement cost of the tile that is entered,
    and leaves a coordinate that the walk has reached within the range. *)
Inductive reach (m : Map) (range : Z) (mode : MovementClass) (srcPos : Coords)
    : Coords -> Z -> Prop :=
  | reach_source : reach m range mode srcPos srcPos 0
  | reach_step (w v : Coords) (total : Z) (tile : Tile) (cost : Z) :
      reach m range mode srcPos w total -> total <= range ->
      v ∈ getNeighborsCoords m w 1 None ->
      getTile m v = Some tile -> movementCostFor mode tile = Ok (Fin cost) ->
      reach m range mode srcPos v (total + cost).

End PathTreeFixedPoint.

(** ** Lights and vision cones *)

(** The units that stand on a tile of the map. *)
Definition unitsOn (m : Map) : list Unit := omap tile_unit (tiles m).

Section Cones.
Context `{Externals}.

(** Modelled on the words of the specification (section 5), "the true count
    of overlapping vision cones": how many of the units of [civID] that stand
    on the map have the tile at index [p] in their line of sight. *)
Definition coneCount (m : Map) (civID : Z) (p : Z) : result Z :=
  foldr (fun unit acc =>
           n ← acc;
           visible ← getVisibleTilesCoords m unit None;
           Ok (n + hits m p visible))
        (Ok 0)
        (filter (fun unit => u_civID unit = civID) (unitsOn m)).

End Cones.

(** The tiles of [s] have the counters of the tiles of [m]. *)
Definition sameCounters (m s : Map) : Prop :=
  width s = width m
  /\ forall p, visibleTo <$> tileAt s p = visibleTo <$> tileAt m p.

(** What the founding of the city [city] of [civID] has done to the tile [t],
    which is [t'] now: nothing to its owner and its counters; or the tile
    was free, belongs to the city now and has been lit once for [civID]. *)
Definition cityLight (civID : Z) (city : nat) (t t' : Tile) : Prop :=
  (owner t' = owner t /\ visibleTo t' = visibleTo t)
  \/ (owner t = None /\ owner t' = Some city
      /\ visibleTo t' = visibleTo (setVisibility t civID true)).

(** ** A town and a scout

    On a 9 by 9 map of plains the scout of civilization 0 is put on the tile
    at (4, 4) and the counters of the civilization are rebuilt, as the
    constructor of the game does for every unit it adds ([addUnit], which is
    a call of [moveUnitTo], then [updateCivTileVisibility]:
    dist/server/game.js, lines 10-15 and 86-89); the civilization settles
    Rome in the corner at (0, 0), which the scout does not see; then the
    scout moves to (4, 5). *)
Definition scoutMap : Map :=
  let placed :=
    match moveUnitTo (H := sampleExternals) (plainsMap 9 9) (scoutAt (mkCoords 4 4))
            (mkCoords 4 4) with
    | Ok (m, _) => m
    | _ => plainsMap 9 9
    end in
  updateCivTileVisibility (H := sampleExternals) placed 0 [scoutAt (mkCoords 4 4)].

Definition scoutRomeMap : Map :=
  match settleCityAt (H := sampleExternals) scoutMap (mkCoords 0 0) "Rome" 0 with
  | Ok (m, _) => m
  | _ => scoutMap
  end.

Definition scoutMovedMap : Map :=
  match moveUnitTo (H := sampleExternals) scoutRomeMap (scoutAt (mkCoords 4 4))
          (mkCoords 4 5) with
  | Ok (m, _) => m
  | _ => scoutRomeMap
  end.

(** ** A forest that is cleared

    The map of the scout with a forest on the tile at (4, 5), next to the
    scout.  The civilization settles Rome at (5, 5), next to the forest, and
    the scout moves to (5, 4); a farm is begun on the tile of the forest,
    which puts a worksite in the place of the forest; then the scout moves
    on to (6, 5). *)
Definition forestMap : Map :=
  let base := plainsMap 9 9 in
  let wooded :=
    updateTileAt base (pos base (mkCoords 4 5))
      (fun t => set_improvement t (Some (newImprovement "forest" (baseYield t)))) in
  let placed :=
    match moveUnitTo (H := sampleExternals) wooded (scoutAt (mkCoords 4 4))
            (mkCoords 4 4) with
    | Ok (m, _) => m
    | _ => wooded
    end in
  updateCivTileVisibility (H := sampleExternals) placed 0 [scoutAt (mkCoords 4 4)].

Definition forestRomeMap : Map :=
  match settleCityAt (H := sampleExternals) forestMap (mkCoords 5 5) "Rome" 0 with
  | Ok (m, _) => m
  | _ => forestMap
  end.

Definition forestMovedMap : Map :=
  match moveUnitTo (H := sampleExternals) forestRomeMap (scoutAt (mkCoords 4 4))
          (mkCoords 5 4) with
  | Ok (m, _) => m
  | _ => forestRomeMap
  end.

Definition clearingMap : Map :=
  match startConstructionAt (H := sampleExternals) forestMovedMap (mkCoords 4 5)
          "farm" 0 with
  | Ok m => m
  | _ => forestMovedMap
  end.

Definition clearingMovedMap : Map :=
  match moveUnitTo (H := sampleExternals) clearingMap (scoutAt (mkCoords 5 4))
          (mkCoords 6 5) with
  | Ok (m, _) => m
  | _ => clearingMap
  end.

(** * Properties *)

(** ** Tiles: visibility counters and snapshots *)

Lemma setVisibility_counter (t : Tile) (civID : Z) (visible : bool) :
  visibleTo (setVisibility t civID visible) !! civID
  = Some (jsnum_add (toNumber (visibleTo t !! civID)) (if visible then 1 else -1)).
Proof. unfold setVisibility; simpl. apply lookup_insert_eq. Qed.

Lemma setVisibility_counter_other (t : Tile) (civID c : Z) (visible : bool) :
  c <> civID ->
  visibleTo (setVisibility t civID visible) !! c = visibleTo t !! c.
Proof. intros Hne. unfold setVisibility; simpl. by apply lookup_insert_ne. Qed.

Lemma setVisibility_discovers (t : Tile) (civID : Z) :
  flag (discoveredBy (setVisibility t civID true) !! civID) = true.
Proof.
  unfold setVisibility; simpl.
  destruct (flag (discoveredBy t !! civID)) eqn:Hd; simpl.
  - exact Hd.
  - by rewrite lookup_insert_eq.
Qed.

Lemma clearVisibility_counter (t : Tile) (civID : Z) :
  visibleTo (clearVisibility t civID) !! civID = Some (Num 0).
Proof. unfold clearVisibility; simpl. apply lookup_insert_eq. Qed.

(** Without a [clearVisibility(civID)] the counter of [civID] is [undefined]
    or [NaN]. *)
Lemma uninitialised_counter (civID : Z) (t : Tile) :
  uninitialised civID t -> toNumber (visibleTo t !! civID) = NaN.
Proof.
  induction 1 as [ | t c visible _ IH | t c Hne _ IH | | | ]; try done.
  - destruct (decide (c = civID)) as [-> | Hc].
    + rewrite setVisibility_counter, IH. reflexivity.
    + rewrite setVisibility_counter_other by congruence. exact IH.
  - unfold clearVisibility; simpl. rewrite lookup_insert_ne by done. exact IH.
Qed.

(** C10. On a tile whose counter for [civID] was never initialised by
    [clearVisibility(civID)], [setVisibility(civID, true)] leaves the counter
    at [NaN], which is not positive, and still marks the tile as discovered;
    [getCivTile] then returns the discovered snapshot, without the unit and
    without [visible = true]. *)
Theorem lightOn_uninitialised_stays_dark (m : Map) (t : Tile) (civID : Z) :
  uninitialised civID t ->
  let t' := setVisibility t civID true in
  visibleTo t' !! civID = Some NaN
  /\ jsnum_pos (visibleTo t' !! civID) = false
  /\ flag (discoveredBy t' !! civID) = true
  /\ getCivTile m civID t' = Some (getDiscoveredData (cities m) t')
  /\ (forall d, getCivTile m civID t' = Some d ->
                td_unit d = None /\ td_visible d <> Some true).
Proof.
  intros Hun t'.
  assert (Hc : visibleTo t' !! civID = Some NaN).
  { unfold t'. rewrite setVisibility_counter, (uninitialised_counter _ _ Hun).
    reflexivity. }
  assert (Hd : flag (discoveredBy t' !! civID) = true)
    by apply setVisibility_discovers.
  assert (Hg : getCivTile m civID t' = Some (getDiscoveredData (cities m) t')).
  { unfold getCivTile. rewrite Hd, Hc. reflexivity. }
  repeat split; try assumption.
  - by rewrite Hc.
  - rewrite Hg in H. by inversion H.
  - rewrite Hg in H. inversion H; subst d. simpl. discriminate.
Qed.

Lemma lightOn_uninitialised_stays_dark_witness :
  uninitialised 0 plainsTile
  /\ getCivTile (plainsMap 2 2) 0 (setVisibility plainsTile 0 true)
     = Some (getDiscoveredData [] (setVisibility plainsTile 0 true)).
Proof.
  assert (Hun : uninitialised 0 plainsTile) by apply uninitialised_new.
  split; [exact Hun |].
  exact (proj1 (proj2 (proj2 (proj2
           (lightOn_uninitialised_stays_dark (plainsMap 2 2) plainsTile 0 Hun))))).
Defined.

(** C2, as the specification states it, fails on the code in two places: a
    discovered tile that is not visible gets a snapshot without any [visible]
    key (not [visible = false]), and a negative counter is truthy, so the tile
    gets the visible snapshot although [visibleTo[civ] > 0] is false. *)
Lemma getCivTile_spec_counterexample :
  getCivTile (plainsMap 2 2) 0 (discoveredTile (Num 0))
    <> getCivTile_spec (plainsMap 2 2) 0 (discoveredTile (Num 0))
  /\ getCivTile (plainsMap 2 2) 0 (discoveredTile (Num (-1)))
       <> getCivTile_spec (plainsMap 2 2) 0 (discoveredTile (Num (-1))).
Proof. split; vm_compute; discriminate. Qed.

(** C2, amended. [getCivTile] returns [null] when the tile is not discovered
    by the civilization; the visible snapshot (the discovered data, the unit
    and [visible = true]) when the counter is truthy, that is a number other
    than 0, in particular when it is positive; and otherwise (0, [NaN] or
    [undefined]) the discovered snapshot, which is the visible one minus the
    keys [unit] and [visible]. *)
Theorem getCivTile_cases (m : Map) (civID : Z) (tile : Tile) :
  (flag (discoveredBy tile !! civID) = false -> getCivTile m civID tile = None)
  /\ (flag (discoveredBy tile !! civID) = true ->
      (forall z, visibleTo tile !! civID = Some (Num z) -> z <> 0 ->
         getCivTile m civID tile = Some (getVisibleData (cities m) tile))
      /\ (jsnum_pos (visibleTo tile !! civID) = true ->
         getCivTile m civID tile = Some (getVisibleData (cities m) tile))
      /\ (visibleTo tile !! civID = Some (Num 0)
          \/ visibleTo tile !! civID = Some NaN
          \/ visibleTo tile !! civID = None ->
         getCivTile m civID tile = Some (getDiscoveredData (cities m) tile)))
  /\ getVisibleData (cities m) tile
     = {| td_type := tile_type tile;
          td_movementCost := movementCost tile;
          td_improvement := Improvement_getData <$> improvement tile;
          td_owner := City_getData <$> (owner tile ≫= fun o => cities m !! o);
          td_yield := getTileYield tile;
          td_unit := Some (Unit_getData <$> tile_unit tile);
          td_visible := Some true |}
  /\ getDiscoveredData (cities m) tile
     = {| td_type := td_type (getVisibleData (cities m) tile);
          td_movementCost := td_movementCost (getVisibleData (cities m) tile);
          td_improvement := td_improvement (getVisibleData (cities m) tile);
          td_owner := td_owner (getVisibleData (cities m) tile);
          td_yield := td_yield (getVisibleData (cities m) tile);
          td_unit := None;
          td_visible := None |}.
Proof.
  unfold getCivTile.
  split; [intros ->; reflexivity |].
  split; [| split; reflexivity].
  intros ->. repeat split.
  - intros z -> Hz. simpl.
    destruct (z =? 0) eqn:E; [apply Z.eqb_eq in E; contradiction | reflexivity].
  - destruct (visibleTo tile !! civID) as [[| z] |]; simpl; try discriminate.
    intros Hz. apply Z.ltb_lt in Hz.
    destruct (z =? 0) eqn:E; [apply Z.eqb_eq in E; lia | reflexivity].
  - intros [-> | [-> | ->]]; reflexivity.
Qed.

Lemma getCivTile_cases_witness :
  flag (discoveredBy (discoveredTile (Num 1)) !! 0) = true
  /\ jsnum_pos (visibleTo (discoveredTile (Num 1)) !! 0) = true
  /\ getCivTile (plainsMap 2 2) 0 (discoveredTile (Num 1))
     = Some (getVisibleData [] (discoveredTile (Num 1))).
Proof.
  assert (Hd : flag (discoveredBy (discoveredTile (Num 1)) !! 0) = true)
    by reflexivity.
  assert (Hp : jsnum_pos (visibleTo (discoveredTile (Num 1)) !! 0) = true)
    by reflexivity.
  split; [exact Hd |]. split; [exact Hp |].
  exact (proj1 (proj2 (proj1 (proj2
           (getCivTile_cases (plainsMap 2 2) 0 (discoveredTile (Num 1)))) Hd)) Hp).
Defined.

(** ** Improvements: the store after a turn of work *)

Lemma cap_within_capacity (s : ResourceStore) :
  Yield_le (value (cap s)) (capacity (cap s)).
Proof. unfold Yield_le, cap, Yield_min; simpl. lia. Qed.

(** The last step of [work()] is [this.storage.cap()], in both versions. *)
Lemma work_ends_with_cap (heap : list Trader) (i : Improvement) :
  (exists s, storage (snd (work heap i)) = cap s)
  /\ (exists s, storage (snd (work_dist heap i)) = cap s).
Proof.
  unfold work, work_dist.
  destruct (settleErrand heap i) as [heap1 i1].
  destruct (shareOut heap1 (storage i1) (i_traders i1) _) as [[heap2 st2] kept].
  simpl. split; eexists; reflexivity.
Qed.

(** C6. After every call of [Improvement.work()] the stored value is at most
    the current capacity, key by key: capping the store is the last step.
    This holds of the TypeScript source and of the compiled version. *)
Theorem work_store_within_capacity (heap : list Trader) (i : Improvement) :
  Yield_le (value (storage (snd (work heap i))))
           (capacity (storage (snd (work heap i))))
  /\ Yield_le (value (storage (snd (work_dist heap i))))
              (capacity (storage (snd (work_dist heap i)))).
Proof.
  destruct (work_ends_with_cap heap i) as [[s ->] [s' ->]].
  split; apply cap_within_capacity.
Qed.

(** A worksite whose errand is paid for: the turn of work completes the
    errand, takes the cost out, and the store ends within the capacity of a
    worksite, which is empty. *)
Example work_completes_errand :
  let site :=
    set_storage
      (startErrand (H := sampleExternals)
         (newImprovement "worksite" {| food := 1; production := 0 |})
         {| a_type := CONSTRUCTION; a_option := "farm"; a_location := None |})
      {| value := {| food := 7; production := 0 |};
         capacity := {| food := 5; production := 0 |} |} in
  e_completed <$> errand (snd (work [] site)) = Some true
  /\ storage (snd (work [] site))
     = {| value := {| food := 0; production := 0 |};
          capacity := {| food := 0; production := 0 |} |}.
Proof. split; reflexivity. Qed.

(** ** The tile array *)

Lemma tileAt_updateTileAt_eq (m : Map) (p : Z) (f : Tile -> Tile) :
  tileAt (updateTileAt m p f) p = f <$> tileAt m p.
Proof.
  unfold updateTileAt. destruct (tileAt m p) as [t |] eqn:Ht; simpl.
  - unfold tileAt in *. destruct (p <? 0); [discriminate |]. simpl.
    apply list_lookup_insert_eq. by eapply lookup_lt_Some.
  - exact Ht.
Qed.

Lemma tileAt_updateTileAt_ne (m : Map) (p q : Z) (f : Tile -> Tile) :
  p <> q -> tileAt (updateTileAt m p f) q = tileAt m q.
Proof.
  intros Hne. unfold updateTileAt.
  destruct (tileAt m p) as [t |] eqn:Ht; [| reflexivity].
  unfold tileAt in *. simpl.
  destruct (p <? 0) eqn:Hp; [discriminate |].
  destruct (q <? 0) eqn:Hq; [reflexivity |].
  apply Z.ltb_ge in Hp, Hq.
  apply list_lookup_insert_ne. lia.
Qed.

Lemma tileAt_updateTileAt (m : Map) (p q : Z) (f : Tile -> Tile) :
  tileAt (updateTileAt m p f) q
  = if decide (p = q) then f <$> tileAt m q else tileAt m q.
Proof.
  case_decide as Hpq.
  - subst q. apply tileAt_updateTileAt_eq.
  - by apply tileAt_updateTileAt_ne.
Qed.

Lemma updateTileAt_frame (m : Map) (p : Z) (f : Tile -> Tile) :
  width (updateTileAt m p f) = width m
  /\ height (updateTileAt m p f) = height m
  /\ cities (updateTileAt m p f) = cities m
  /\ traders (updateTileAt m p f) = traders m
  /\ traderHeap (updateTileAt m p f) = traderHeap m
  /\ updates (updateTileAt m p f) = updates m
  /\ length (tiles (updateTileAt m p f)) = length (tiles m).
Proof.
  unfold updateTileAt. destruct (tileAt m p); simpl; repeat split; try done.
  apply length_insert.
Qed.

Lemma pos_width (m m' : Map) (c : Coords) :
  width m' = width m -> pos m' c = pos m c.
Proof. unfold pos. by intros ->. Qed.

(** On a populated map every in-bounds coordinate has a tile. *)
Lemma inBounds_getTile (m : Map) (c : Coords) :
  populated m -> isInBounds m c = true -> is_Some (getTile m c).
Proof.
  intros [Hw Hlen] Hin. unfold isInBounds in Hin.
  repeat (apply andb_prop in Hin as [Hin ?]).
  apply Z.leb_le in Hin. repeat match goal with
    | Hx : (_ <? _) = true |- _ => apply Z.ltb_lt in Hx
    | Hx : (_ <=? _) = true |- _ => apply Z.leb_le in Hx
    end.
  unfold getTile, tileAt, pos.
  set (x := mod_ (cx c) (width m)) in *.
  assert (Hp : 0 <= cy c * width m + x < height m * width m) by nia.
  destruct (cy c * width m + x <? 0) eqn:E; [apply Z.ltb_lt in E; lia |].
  apply lookup_lt_is_Some. lia.
Qed.

Section Neighbourhood.
Context `{Externals}.

(** A loop whose body only appends to the list of coordinates only appends. *)
Lemma foldl_extends (g : Neighbors -> Coords -> Neighbors) :
  (forall s a, exists ext, coordList (g s a) = coordList s ++ ext) ->
  forall l s, exists ext, coordList (foldl g s l) = coordList s ++ ext.
Proof.
  intros Hg. induction l as [| a l IHl]; intros s; simpl.
  - exists []. by rewrite app_nil_r.
  - destruct (Hg s a) as [e1 He1], (IHl (g s a)) as [e2 He2].
    exists (e1 ++ e2). rewrite He2, He1. by rewrite app_assoc.
Qed.

(** [getNeighborsRecurse] only appends to the list of coordinates. *)
Lemma getNeighborsRecurse_extends (n : nat) (m : Map) (c : Coords)
    (st : Neighbors) (filter : option (Tile -> Coords -> bool)) :
  exists ext, coordList (getNeighborsRecurse n m c st filter) = coordList st ++ ext.
Proof.
  revert c st. induction n as [| n IH]; intros c st; simpl.
  - exists []. by rewrite app_nil_r.
  - destruct (getTile m c) as [tile |]; [| exists []; by rewrite app_nil_r].
    match goal with
    | |- context [foldl ?g ?a ?l] =>
        assert (Hfold : exists e, coordList (foldl g a l) = coordList a ++ e);
        [apply foldl_extends | destruct Hfold as [e He]]
    end.
    { intros s a. destruct (expandable _ _ _); [apply IH |].
      exists []. by rewrite app_nil_r. }
    rewrite He. clear He.
    destruct (bool_decide (pos m c ∈ tileSet st)); [by eexists |].
    destruct (match filter with
              | Some f => f tile c
              | None => true
              end); [| by eexists].
    simpl. exists ([c] ++ e). by rewrite app_assoc.
Qed.

(** Without a filter, the centre is the first coordinate returned. *)
Lemma getNeighborsCoords_head (m : Map) (c : Coords) (r : Z) :
  is_Some (getTile m c) -> 0 <= r ->
  exists rest, getNeighborsCoords m c r None = c :: rest.
Proof.
  intros [tile Ht] Hr. unfold getNeighborsCoords.
  replace (Z.to_nat (r + 1)) with (S (Z.to_nat r)) by lia.
  simpl. rewrite Ht.
  rewrite bool_decide_eq_false_2 by set_solver.
  match goal with
  | |- context [foldl ?g ?a ?l] =>
      assert (Hfold : exists e, coordList (foldl g a l) = coordList a ++ e);
      [apply foldl_extends | destruct Hfold as [e He]]
  end.
  { intros s a. destruct (expandable _ _ _).
    - apply getNeighborsRecurse_extends.
    - exists []. by rewrite app_nil_r. }
  rewrite He. simpl. eauto.
Qed.

End Neighbourhood.

(** ** Settling a city *)

Lemma tileAt_tileUpdate `{Externals} (m : Map) (c : Coords) (p : Z) :
  tileAt (tileUpdate m c) p = tileAt m p.
Proof. reflexivity. Qed.

Lemma tileAt_updateCity (m : Map) (o : nat) (f : City -> City) (p : Z) :
  tileAt (updateCity m o f) p = tileAt m p.
Proof. unfold updateCity. by destruct (cities m !! o). Qed.

Lemma width_updateCity (m : Map) (o : nat) (f : City -> City) :
  width (updateCity m o f) = width m.
Proof. unfold updateCity. by destruct (cities m !! o). Qed.

Lemma cities_updateCity (m : Map) (o o' : nat) (f : City -> City) :
  cities (updateCity m o f) !! o'
  = if decide (o = o') then f <$> cities m !! o' else cities m !! o'.
Proof.
  unfold updateCity. destruct (cities m !! o) as [ci |] eqn:Hc; simpl.
  - case_decide as Hoo.
    + subst o'. rewrite Hc. simpl. apply list_lookup_insert_eq.
      by eapply lookup_lt_Some.
    + by apply list_lookup_insert_ne.
  - case_decide as Hoo; [subst o'; by rewrite Hc | done].
Qed.

Lemma length_tiles_updateCity (m : Map) (o : nat) (f : City -> City) :
  length (tiles (updateCity m o f)) = length (tiles m).
Proof. unfold updateCity. by destruct (cities m !! o). Qed.

Section Settling.
Context `{Externals}.

(** What [setTileOwner] does to an unowned tile. *)
Lemma setTileOwner_unowned (m : Map) (c : Coords) (o : nat) (overwrite : bool)
    (tile : Tile) (city : City) :
  getTile m c = Some tile -> owner tile = None -> cities m !! o = Some city ->
  setTileOwner m c o overwrite
  = Ok (updateCity
          (updateTileAt
             (updateTileAt m (pos m c) (fun t => set_owner t (Some o)))
             (pos m c) (fun t => setVisibility t (c_civID city) true))
          o (fun ci => addTile ci c)).
Proof.
  intros Ht Ho Hc. unfold setTileOwner. rewrite Ht. simpl. rewrite Ho.
  destruct (updateTileAt_frame m (pos m c) (fun t => set_owner t (Some o)))
    as (_ & _ & Hci & _).
  rewrite Hc. simpl. reflexivity.
Qed.

(** With [overwrite = false] an owned tile is left alone. *)
Lemma setTileOwner_owned (m : Map) (c : Coords) (o old : nat) (tile : Tile) :
  getTile m c = Some tile -> owner tile = Some old ->
  setTileOwner m c o false = Ok m.
Proof.
  intros Ht Ho. unfold setTileOwner. rewrite Ht. simpl. by rewrite Ho.
Qed.

Lemma setTileOwner_keeps_settled (w p : Z) (city : nat) (civID : Z)
    (name : string) (centre : Coords) (type : string) (s s' : Map)
    (c : Coords) :
  settled w p city civID name centre type s ->
  setTileOwner s c city false = Ok s' ->
  settled w p city civID name centre type s'.
Proof.
  intros (Hw & (t & Ht & Ho & Hty) & (ci & Hci & Hciv & Hn & Hce)) Hset.
  destruct (getTile s c) as [tile |] eqn:Htile;
    [| unfold setTileOwner in Hset; rewrite Htile in Hset; discriminate].
  destruct (owner tile) as [old |] eqn:Hown.
  - rewrite (setTileOwner_owned _ _ _ _ _ Htile Hown) in Hset.
    inversion Hset; subst s'. repeat split; eauto 10.
  - rewrite (setTileOwner_unowned _ _ _ _ _ _ Htile Hown Hci) in Hset.
    inversion Hset; subst s'; clear Hset.
    assert (Hne : pos s c <> p).
    { intros Heq. subst p. unfold getTile in Htile. congruence. }
    split; [| split].
    + rewrite width_updateCity.
      rewrite !(proj1 (updateTileAt_frame _ _ _)). exact Hw.
    + exists t. rewrite tileAt_updateCity.
      rewrite !tileAt_updateTileAt_ne by done. auto.
    + exists (addTile ci c). rewrite cities_updateCity.
      rewrite decide_True by done.
      destruct (updateTileAt_frame
                  (updateTileAt s (pos s c) (fun t0 => set_owner t0 (Some city)))
                  (pos s c) (fun t0 => setVisibility t0 (c_civID ci) true))
        as (_ & _ & -> & _).
      destruct (updateTileAt_frame s (pos s c) (fun t0 => set_owner t0 (Some city)))
        as (_ & _ & -> & _).
      rewrite Hci. simpl. auto.
Qed.

Lemma is_Some_tileAt (m : Map) (p : Z) :
  is_Some (tileAt m p) <-> 0 <= p < Z.of_nat (length (tiles m)).
Proof.
  unfold tileAt. destruct (p <? 0) eqn:Hp.
  - apply Z.ltb_lt in Hp. split; [intros [? ?]; discriminate | lia].
  - apply Z.ltb_ge in Hp. rewrite lookup_lt_is_Some. lia.
Qed.

Lemma getTile_sameShape (m s : Map) (c : Coords) :
  sameShape m s -> is_Some (getTile m c) -> is_Some (getTile s c).
Proof.
  intros [Hw Hl]. unfold getTile. rewrite !is_Some_tileAt.
  rewrite (pos_width m s c Hw), Hl. done.
Qed.

Lemma sameShape_refl (m : Map) : sameShape m m.
Proof. by split. Qed.

Lemma sameShape_trans (m s s' : Map) :
  sameShape m s -> sameShape s s' -> sameShape m s'.
Proof. intros [? ?] [? ?]. split; congruence. Qed.

Lemma sameShape_updateTileAt (m : Map) (p : Z) (f : Tile -> Tile) :
  sameShape m (updateTileAt m p f).
Proof.
  destruct (updateTileAt_frame m p f) as (? & _ & _ & _ & _ & _ & ?). by split.
Qed.

Lemma sameShape_updateCity (m : Map) (o : nat) (f : City -> City) :
  sameShape m (updateCity m o f).
Proof. split; [apply width_updateCity | apply length_tiles_updateCity]. Qed.

Lemma length_cities_updateCity (m : Map) (o : nat) (f : City -> City) :
  length (cities (updateCity m o f)) = length (cities m).
Proof.
  unfold updateCity. destruct (cities m !! o); [| done]. simpl. apply length_insert.
Qed.

(** With [overwrite = false], [setTileOwner] returns on every tile of the map
    and keeps the shape of the map and the number of cities. *)
Lemma setTileOwner_total (s : Map) (c : Coords) (o : nat) :
  is_Some (getTile s c) -> is_Some (cities s !! o) ->
  exists s', setTileOwner s c o false = Ok s'
             /\ sameShape s s' /\ length (cities s') = length (cities s).
Proof.
  intros [tile Ht] [city Hc].
  destruct (owner tile) as [old |] eqn:Hown.
  - rewrite (setTileOwner_owned _ _ _ _ _ Ht Hown).
    exists s. auto using sameShape_refl.
  - rewrite (setTileOwner_unowned _ _ _ _ _ _ Ht Hown Hc).
    eexists. split; [reflexivity |]. split.
    + eapply sameShape_trans; [| apply sameShape_updateCity].
      eapply sameShape_trans; apply sameShape_updateTileAt.
    + rewrite length_cities_updateCity.
      by rewrite !(proj1 (proj2 (proj2 (updateTileAt_frame _ _ _)))).
Qed.

(** Every coordinate [getNeighborsRecurse] adds has a tile. *)
Lemma getNeighborsRecurse_defined (n : nat) (m : Map) (c : Coords)
    (st : Neighbors) (filter : option (Tile -> Coords -> bool)) :
  Forall (fun c' => is_Some (getTile m c')) (coordList st) ->
  Forall (fun c' => is_Some (getTile m c'))
         (coordList (getNeighborsRecurse n m c st filter)).
Proof.
  revert c st. induction n as [| n IH]; intros c st Hst; simpl; [done |].
  destruct (getTile m c) as [tile |] eqn:Ht; [| done].
  match goal with
  | |- context [foldl ?g ?a ?l] =>
      assert (Hfold : forall l' s,
                 Forall (fun c' => is_Some (getTile m c')) (coordList s) ->
                 Forall (fun c' => is_Some (getTile m c')) (coordList (foldl g s l')))
  end.
  { induction l' as [| a l' IHl]; intros s Hs; simpl; [done |].
    apply IHl. destruct (expandable _ _ _); [by apply IH | done]. }
  apply Hfold.
  destruct (bool_decide (pos m c ∈ tileSet st)); [done |].
  destruct (match filter with
            | Some f => f tile c
            | None => true
            end); [| done].
  simpl. apply Forall_app. split; [done |].
  apply Forall_singleton. by rewrite Ht.
Qed.

Lemma getNeighborsCoords_defined (m : Map) (c : Coords) (r : Z)
    (filter : option (Tile -> Coords -> bool)) :
  Forall (fun c' => is_Some (getTile m c')) (getNeighborsCoords m c r filter).
Proof. apply getNeighborsRecurse_defined. simpl. constructor. Qed.

Lemma canSettleOn_unowned_buildable (tile : Tile) :
  canSettleOn tile = true -> owner tile = None /\ canBuildOn tile = true.
Proof.
  unfold canSettleOn, canBuildOn. intros Hs.
  repeat (apply andb_prop in Hs as [Hs ?]).
  split.
  - apply negb_true_iff, bool_decide_eq_false in Hs.
    destruct (owner tile); [exfalso; apply Hs; eauto | done].
  - repeat (apply andb_true_intro; split); assumption.
Qed.

(** The loop of [settleCityAt] over the rest of the neighbourhood keeps the
    centre settled, and returns. *)
Lemma settle_loop (w p : Z) (city : nat) (civID : Z) (name : string)
    (centre : Coords) (type : string) (m : Map) (l : list Coords) :
  Forall (fun c' => is_Some (getTile m c')) l ->
  forall s,
    sameShape m s -> settled w p city civID name centre type s ->
    exists s',
      forEach l (fun s0 neighbor =>
                   s1 ← setTileOwner s0 neighbor city false;
                   Ok (tileUpdate s1 neighbor)) s = Ok s'
      /\ sameShape m s' /\ settled w p city civID name centre type s'.
Proof.
  induction 1 as [| c' l Hc' _ IH]; intros s Hshape Hset; simpl.
  - eauto.
  - destruct (setTileOwner_total s c' city) as (s1 & Hs1 & Hsh1 & _).
    + by eapply getTile_sameShape.
    + destruct Hset as (_ & _ & ci & -> & _). eauto.
    + rewrite Hs1. simpl.
      apply IH.
      * eapply sameShape_trans; [exact Hshape |]. exact Hsh1.
      * exact (setTileOwner_keeps_settled _ _ _ _ _ _ _ _ _ _ Hset Hs1).
Qed.

(** The state after the first round of the loop of [settleCityAt], on the
    centre itself. *)
Lemma settle_centre (m : Map) (c : Coords) (name : string) (civID : Z)
    (tile : Tile) :
  getTile m c = Some tile -> owner tile = None ->
  let city := length (cities m) in
  let m1 := set_cities m (cities m ++ [newCity c name civID]) in
  exists s1,
    setTileOwner m1 c city false = Ok s1
    /\ sameShape m s1
    /\ settled (width m) (pos m c) city civID name c (tile_type tile) s1.
Proof.
  intros Ht Ho city m1.
  assert (Hc : cities m1 !! city = Some (newCity c name civID)).
  { unfold m1, city. simpl. rewrite lookup_app_r by lia.
    by rewrite Nat.sub_diag. }
  assert (Ht1 : getTile m1 c = Some tile) by exact Ht.
  rewrite (setTileOwner_unowned _ _ _ _ _ _ Ht1 Ho Hc).
  eexists. split; [reflexivity |].
  assert (Hp : pos m1 c = pos m c) by reflexivity.
  rewrite Hp. split; [| split; [| split]].
  - eapply sameShape_trans; [| apply sameShape_updateCity].
    eapply sameShape_trans; [| apply sameShape_updateTileAt].
    eapply sameShape_trans; [| apply sameShape_updateTileAt].
    by split.
  - rewrite width_updateCity. by rewrite !(proj1 (updateTileAt_frame _ _ _)).
  - rewrite tileAt_updateCity, !tileAt_updateTileAt_eq.
    change (tileAt m1 (pos m c)) with (getTile m c). rewrite Ht. simpl.
    eexists. split; [reflexivity |]. by split.
  - rewrite cities_updateCity, decide_True by done.
    rewrite !(proj1 (proj2 (proj2 (updateTileAt_frame _ _ _)))).
    rewrite Hc. simpl. eexists. split; [reflexivity |]. by repeat split.
Qed.

(** [buildImprovementAt] on a settled tile that can be built on puts the
    improvement there and keeps the owner. *)
Lemma build_on_settled (w : Z) (city : nat) (civID : Z) (name : string)
    (centre c : Coords) (type itype : string) (s : Map) :
  settled w (pos s c) city civID name centre type s ->
  (forall t, tile_type t = type -> canBuildOn t = true) ->
  exists s' tile' ci,
    buildImprovementAt s c itype civID = Ok s'
    /\ getTile s' c = Some tile'
    /\ owner tile' = Some city
    /\ i_type <$> improvement tile' = Some itype
    /\ cities s' !! city = Some ci
    /\ c_civID ci = civID /\ c_name ci = name /\ c_center ci = centre.
Proof.
  intros (Hw & (t & Ht & Ho & Hty) & (ci & Hci & Hciv & Hn & Hce)) Hbuild.
  unfold buildImprovementAt, getTile. rewrite Ht. simpl.
  assert (Hoc : ownerCivID s t = Some civID).
  { unfold ownerCivID. rewrite Ho. simpl. rewrite Hci. simpl. by rewrite Hciv. }
  rewrite Hoc, bool_decide_eq_true_2 by done. simpl.
  rewrite (Hbuild t Hty). simpl.
  exists (tileUpdate
            (updateTileAt s (pos s c)
               (fun t0 => set_improvement t0 (Some (newImprovement itype (baseYield t0)))))
            c),
         (set_improvement t (Some (newImprovement itype (baseYield t)))), ci.
  split; [reflexivity |].
  split.
  { unfold getTile. rewrite tileAt_tileUpdate.
    rewrite (pos_width s (tileUpdate _ c) c)
      by (simpl; apply (proj1 (updateTileAt_frame _ _ _))).
    rewrite tileAt_updateTileAt_eq, Ht. reflexivity. }
  simpl. repeat split; try done.
  by rewrite (proj1 (proj2 (proj2 (updateTileAt_frame _ _ _)))).
Qed.

(** C9. On a populated map, [getNeighborsCoords(c, r)] without a filter
    contains [c] itself for every in-bounds [c] and [r >= 1].  Hence
    [settleCityAt(c, name, civID)] on a tile that can be settled returns
    [true], and after every call that returns [true] the tile at [c] is
    owned by the newly created city (the last of [cities], of civilization
    [civID], named [name], centred on [c]) and holds a settlement. *)
Theorem settleCityAt_settles_centre (m : Map) (c : Coords) (r : Z)
    (name : string) (civID : Z) :
  populated m -> isInBounds m c = true -> 1 <= r ->
  c ∈ getNeighborsCoords m c r None
  /\ (forall tile, getTile m c = Some tile -> canSettleOn tile = true ->
        exists m', settleCityAt m c name civID = Ok (m', true))
  /\ (forall m', settleCityAt m c name civID = Ok (m', true) ->
        exists tile' city,
          getTile m' c = Some tile'
          /\ owner tile' = Some (length (cities m))
          /\ cities m' !! length (cities m) = Some city
          /\ c_civID city = civID /\ c_name city = name /\ c_center city = c
          /\ i_type <$> improvement tile' = Some "settlement").
Proof.
  intros Hpop Hin Hr.
  pose proof (inBounds_getTile m c Hpop Hin) as Hsome.
  split.
  { destruct (getNeighborsCoords_head m c r Hsome) as [rest ->]; [lia |].
    apply list_elem_of_here. }
  destruct Hsome as [tile Ht].
  (* what a call on a tile that can be settled does *)
  assert (Hrun : canSettleOn tile = true ->
            exists m' tile' city,
              settleCityAt m c name civID = Ok (m', true)
              /\ getTile m' c = Some tile'
              /\ owner tile' = Some (length (cities m))
              /\ cities m' !! length (cities m) = Some city
              /\ c_civID city = civID /\ c_name city = name /\ c_center city = c
              /\ i_type <$> improvement tile' = Some "settlement").
  { intros Hcan.
    destruct (canSettleOn_unowned_buildable tile Hcan) as [Hown Hbuild].
    unfold settleCityAt. rewrite Ht. simpl. rewrite Hcan. simpl.
    set (m1 := set_cities m (cities m ++ [newCity c name civID])).
    assert (Ht1 : is_Some (getTile m1 c)) by (exists tile; exact Ht).
    destruct (getNeighborsCoords_head m1 c 1 Ht1) as [rest Hnb]; [lia |].
    pose proof (getNeighborsCoords_defined m1 c 1 None) as Hdef.
    rewrite Hnb in *. apply Forall_cons in Hdef as [_ Hdef].
    simpl.
    destruct (settle_centre m c name civID tile Ht Hown) as (s1 & Hs1 & Hsh1 & Hset1).
    fold m1 in Hs1. rewrite Hs1. simpl.
    destruct (settle_loop (width m) (pos m c) (length (cities m)) civID name c
                (tile_type tile) m rest) with (s := tileUpdate s1 c)
      as (s2 & Hs2 & Hsh2 & Hset2); [exact Hdef | exact Hsh1 | exact Hset1 |].
    rewrite Hs2. simpl.
    assert (Hp : pos s2 c = pos m c) by (apply pos_width, Hsh2).
    rewrite <- Hp in Hset2.
    destruct (build_on_settled _ _ _ _ _ c _ "settlement" s2 Hset2)
      as (s3 & tile' & ci & Hb & Hg & Ho & Hi & Hci & Hciv & Hn & Hce).
    { intros t Hty. unfold canBuildOn in *. by rewrite Hty. }
    rewrite Hb. simpl. eauto 12. }
  split.
  - intros tile0 Ht0 Hcan. rewrite Ht in Ht0. inversion Ht0; subst tile0.
    destruct (Hrun Hcan) as (m' & _ & _ & Hm' & _). eauto.
  - intros m' Hm'.
    destruct (canSettleOn tile) eqn:Hcan.
    + destruct (Hrun eq_refl) as (m'' & tile' & city & Hm'' & Hrest).
      rewrite Hm'' in Hm'. inversion Hm'; subst m''. eauto.
    + unfold settleCityAt in Hm'. rewrite Ht in Hm'. simpl in Hm'.
      rewrite Hcan in Hm'. simpl in Hm'. discriminate.
Qed.

End Settling.

Lemma settleCityAt_settles_centre_witness :
  populated (plainsMap 3 3)
  /\ isInBounds (plainsMap 3 3) (mkCoords 1 1) = true
  /\ mkCoords 1 1
       ∈ getNeighborsCoords (H := sampleExternals) (plainsMap 3 3) (mkCoords 1 1) 1 None
  /\ exists m', settleCityAt (H := sampleExternals) (plainsMap 3 3) (mkCoords 1 1) "Rome" 0
                = Ok (m', true).
Proof.
  assert (Hpop : populated (plainsMap 3 3)) by (split; [reflexivity | reflexivity]).
  assert (Hin : isInBounds (plainsMap 3 3) (mkCoords 1 1) = true) by reflexivity.
  assert (Hr : 1 <= 1) by lia.
  pose proof (settleCityAt_settles_centre (H := sampleExternals)
                (plainsMap 3 3) (mkCoords 1 1) 1 "Rome" 0 Hpop Hin Hr) as [Hc [Hs _]].
  repeat split; try assumption.
  apply (Hs plainsTile); reflexivity.
Defined.

(** ** Actions that are refused *)

Section Refusals.
Context `{Externals}.

(** The research gate: the list of knowledges is there unless the type of
    the improvement is a key of [Object.prototype], where asking for it
    raises. *)
Lemma getResearchableKnowledgeNames_cases (i : Improvement) :
  (i_type i ∈ objectPrototypeKeys -> getResearchableKnowledgeNames i = TypeError)
  /\ (i_type i ∉ objectPrototypeKeys ->
      exists names, getResearchableKnowledgeNames i = Ok names).
Proof.
  unfold getResearchableKnowledgeNames, getResearchableKnowledgeBranches,
    researchableKnowledgeBranchTable, inherited. cbn [assoc].
  split; intros Hk.
  - rewrite bool_decide_eq_false_2.
    + by rewrite (bool_decide_eq_true_2 _ Hk).
    + intros Heq. rewrite <- Heq in Hk. apply list_elem_of_In in Hk.
      vm_compute in Hk. repeat (destruct Hk as [Hk | Hk]; [discriminate |]). exact Hk.
  - destruct (bool_decide ("campus" = i_type i)); [eauto |].
    rewrite (bool_decide_eq_false_2 _ Hk). eauto.
Qed.

(** C3, amended. On a tile of the map, a call of [buildImprovementAt] by a
    civilization that does not own the tile, or on a tile that cannot be
    built on, returns the map unchanged and pushes no update.  A call of
    [trainUnitAt] or [researchKnowledgeAt] by a civilization that does not
    own the tile, on a tile without improvement, or for a unit type or a
    knowledge that the gate does not list, changes no tile, city or trader:
    the checks come before every mutation; its only effect is the one
    [tileUpdate(coords)] that ends these two handlers in every case.  On an
    improvement of the caller whose type is a key of [Object.prototype] the
    research gate itself raises a [TypeError]: the call ends there, before
    any mutation and any update. *)
Theorem refused_actions_change_nothing (m : Map) (c : Coords) (x : string)
    (ownerID : Z) (tile : Tile) :
  getTile m c = Some tile ->
  (ownerCivID m tile <> Some ownerID \/ canBuildOn tile = false ->
     buildImprovementAt m c x ownerID = Ok m)
  /\ (ownerCivID m tile <> Some ownerID \/ improvement tile = None
      \/ x ∉ getTrainableUnitTypes tile ->
     trainUnitAt m c x ownerID = Ok (tileUpdate m c))
  /\ (ownerCivID m tile <> Some ownerID \/ improvement tile = None
      \/ (forall i, improvement tile = Some i ->
            exists names, getResearchableKnowledgeNames i = Ok names /\ x ∉ names) ->
     researchKnowledgeAt m c x ownerID = Ok (tileUpdate m c))
  /\ (forall i, ownerCivID m tile = Some ownerID -> improvement tile = Some i ->
        i_type i ∈ objectPrototypeKeys ->
        researchKnowledgeAt m c x ownerID = TypeError)
  /\ tiles (tileUpdate m c) = tiles m
  /\ cities (tileUpdate m c) = cities m
  /\ traders (tileUpdate m c) = traders m
  /\ traderHeap (tileUpdate m c) = traderHeap m
  /\ updates (tileUpdate m c)
     = updates m ++ [ {| up_coords := c; up_tile := Some (pos m c) |} ].
Proof.
  intros Ht. repeat split.
  - intros Hgate. unfold buildImprovementAt. rewrite Ht. simpl.
    destruct (bool_decide (ownerCivID m tile = Some ownerID)) eqn:Ho; simpl;
      [| reflexivity].
    apply bool_decide_eq_true in Ho.
    destruct Hgate as [Hne | Hb]; [contradiction |]. by rewrite Hb.
  - intros Hgate. unfold trainUnitAt. rewrite Ht. simpl.
    destruct (improvement tile) as [i |]; [| reflexivity].
    destruct Hgate as [Hne | [Hi | Hx]]; [| discriminate |].
    + by rewrite (bool_decide_eq_false_2 _ Hne).
    + rewrite (bool_decide_eq_false_2 _ Hx), andb_false_r. reflexivity.
  - intros Hgate. unfold researchKnowledgeAt. rewrite Ht. simpl.
    destruct (improvement tile) as [i |]; [| reflexivity].
    destruct Hgate as [Hne | [Hi | Hx]]; [| discriminate |].
    + by rewrite (bool_decide_eq_false_2 _ Hne).
    + destruct (bool_decide (ownerCivID m tile = Some ownerID)); [| reflexivity].
      destruct (Hx i eq_refl) as (names & -> & Hnot). simpl.
      by rewrite (bool_decide_eq_false_2 _ Hnot).
  - intros i Ho Hi Hk. unfold researchKnowledgeAt. rewrite Ht. simpl.
    rewrite Hi, (bool_decide_eq_true_2 _ Ho).
    by rewrite (proj1 (getResearchableKnowledgeNames_cases i) Hk).
  - unfold tileUpdate. simpl. by rewrite Ht.
Qed.

(** A live errand makes [trainUnitAt] and [researchKnowledgeAt] refuse, in
    the same way. *)
Lemma live_errand_refuses (m : Map) (c : Coords) (x : string) (ownerID : Z)
    (tile : Tile) (i : Improvement) (e : WorkErrand) :
  getTile m c = Some tile -> improvement tile = Some i -> errand i = Some e ->
  trainUnitAt m c x ownerID = Ok (tileUpdate m c)
  /\ (i_type i ∉ objectPrototypeKeys ->
      researchKnowledgeAt m c x ownerID = Ok (tileUpdate m c)).
Proof.
  intros Ht Hi He. unfold trainUnitAt, researchKnowledgeAt.
  rewrite Ht. simpl. rewrite Hi, He.
  rewrite (bool_decide_eq_true_2 (is_Some (Some e))) by eauto.
  simpl. rewrite !andb_false_r. split; [done |].
  intros Hk. destruct (bool_decide (ownerCivID m tile = Some ownerID)); [| done].
  destruct (proj2 (getResearchableKnowledgeNames_cases i) Hk) as [names ->].
  simpl. by rewrite andb_false_r.
Qed.

End Refusals.

(** C3, as the specification states it, fails on the code: training a unit
    on a tile that nobody owns pushes a [tileUpdate] after the check has
    failed, so the call does emit an update. *)
Lemma refused_training_emits_update :
  getTile (plainsMap 2 2) (mkCoords 0 0) = Some plainsTile
  /\ ownerCivID (plainsMap 2 2) plainsTile <> Some 0
  /\ updates (plainsMap 2 2) = []
  /\ trainUnitAt (H := sampleExternals) (plainsMap 2 2) (mkCoords 0 0) "settler" 0
     = Ok (set_updates (plainsMap 2 2)
             [ {| up_coords := mkCoords 0 0; up_tile := Some 0 |} ])
  /\ trainUnitAt (H := sampleExternals) (plainsMap 2 2) (mkCoords 0 0) "settler" 0
     <> Ok (plainsMap 2 2).
Proof.
  repeat apply conj; try (vm_compute; reflexivity).
  - vm_compute. discriminate.
  - vm_compute. discriminate.
Qed.

Lemma refused_actions_change_nothing_witness :
  getTile (plainsMap 2 2) (mkCoords 0 0) = Some plainsTile
  /\ buildImprovementAt (plainsMap 2 2) (mkCoords 0 0) "farm" 0
     = Ok (plainsMap 2 2).
Proof.
  assert (Ht : getTile (plainsMap 2 2) (mkCoords 0 0) = Some plainsTile)
    by reflexivity.
  split; [exact Ht |].
  apply (proj1 (refused_actions_change_nothing (H := sampleExternals)
                  (plainsMap 2 2) (mkCoords 0 0) "farm" 0 plainsTile Ht)).
  left. vm_compute. discriminate.
Defined.

(** ** Knowledge spillover *)

Section Spillover.
Context `{Externals}.

Lemma foldl_fixed {A B : Type} (g : A -> B -> A) (l : list B) (a : A) :
  (forall b, g a b = a) -> foldl g a l = a.
Proof.
  intros Hg. induction l as [| b l IH]; simpl; [done |]. by rewrite Hg.
Qed.

(** One more step of range, with nothing left beyond: the tile of [a] is
    added unless it is there already. *)
Lemma getNeighborsRecurse_last (m : Map) (a : Coords) (s : Neighbors) :
  getNeighborsRecurse 1 m a s None
  = match getTile m a with
    | Some _ =>
        if bool_decide (pos m a ∈ tileSet s) then s
        else {| tileSet := {[pos m a]} ∪ tileSet s;
                coordList := coordList s ++ [a];
                rangeMap := <[pos m a := 0]> (rangeMap s) |}
    | None => s
    end.
Proof.
  simpl. destruct (getTile m a); [| done].
  apply foldl_fixed. intros b. by destruct (expandable _ _ _).
Qed.

(** The loop of the first step over the adjacent coordinates. *)
Lemma first_ring (m : Map) (c : Coords) (l : list Coords) :
  forall s,
    pos m c ∈ tileSet s ->
    rangeMap s !! pos m c = Some 1 ->
    (forall p, p <> pos m c -> rangeMap s !! p = None \/ rangeMap s !! p = Some 0) ->
    coordList
      (foldl (fun s0 coord =>
                if expandable (rangeMap s0) (pos m coord) 1
                then getNeighborsRecurse 1 m coord s0 None
                else s0) s l)
    = coordList s ++ addFresh m (tileSet s) l.
Proof.
  induction l as [| a l IH]; intros s Hc Hr Hothers; cbn [foldl addFresh].
  - by rewrite app_nil_r.
  - destruct (decide (pos m a = pos m c)) as [Heq | Hne].
    + assert (Hexp : expandable (rangeMap s) (pos m a) 1 = false).
      { unfold expandable. by rewrite Heq, Hr. }
      rewrite Hexp, Heq.
      rewrite (bool_decide_eq_true_2 (pos m c ∈ tileSet s)) by done.
      rewrite andb_false_r. by apply IH.
    + assert (Hexp : expandable (rangeMap s) (pos m a) 1 = true).
      { unfold expandable. by destruct (Hothers _ Hne) as [-> | ->]. }
      rewrite Hexp, getNeighborsRecurse_last.
      destruct (getTile m a) as [t |] eqn:Ht.
      * rewrite (bool_decide_eq_true_2 (is_Some (Some t))) by eauto.
        destruct (bool_decide (pos m a ∈ tileSet s)) eqn:Hin; simpl.
        -- by apply IH.
        -- rewrite IH; simpl.
           ++ by rewrite <- app_assoc.
           ++ set_solver.
           ++ by rewrite lookup_insert_ne.
           ++ intros p Hp. destruct (decide (p = pos m a)) as [-> | Hpa].
              ** right. apply lookup_insert_eq.
              ** rewrite lookup_insert_ne by done. by apply Hothers.
      * rewrite (bool_decide_eq_false_2 (is_Some None)) by (by intros [? ?]).
        simpl. by apply IH.
Qed.

(** [getNeighborsCoords(c)] with the default range 1 and no filter: [c]
    itself, then the adjacent coordinates that have a tile, each tile once. *)
Lemma getNeighborsCoords_one (m : Map) (c : Coords) :
  is_Some (getTile m c) ->
  getNeighborsCoords m c 1 None
  = c :: addFresh m {[pos m c]} (getAdjacentCoords c).
Proof.
  intros [t Ht]. unfold getNeighborsCoords.
  change (Z.to_nat (1 + 1)) with 2%nat.
  cbn [getNeighborsRecurse]. rewrite Ht.
  rewrite bool_decide_eq_false_2 by set_solver.
  change (Z.of_nat 1) with 1.
  rewrite (first_ring m c); simpl.
  - by rewrite union_empty_r_L.
  - set_solver.
  - apply lookup_insert_eq.
  - intros p Hp. left. by rewrite lookup_insert_ne.
Qed.

(** Neither the neighbourhood nor [addFresh] looks at the contents of a
    tile. *)
Lemma addFresh_sameShape (m s : Map) (seen : gset Z) (l : list Coords) :
  sameShape m s -> addFresh s seen l = addFresh m seen l.
Proof.
  intros Hsh. revert seen. induction l as [| a l IH]; intros seen; simpl; [done |].
  rewrite (pos_width m s a (proj1 Hsh)).
  assert (Hd : bool_decide (is_Some (getTile s a)) = bool_decide (is_Some (getTile m a))).
  { apply bool_decide_ext. split; apply getTile_sameShape; [| done].
    destruct Hsh. by split. }
  rewrite Hd, !IH. done.
Qed.

Lemma addFresh_subset (m : Map) (seen : gset Z) (l : list Coords) (a : Coords) :
  a ∈ addFresh m seen l -> a ∈ l /\ is_Some (getTile m a).
Proof.
  revert seen. induction l as [| b l IH]; intros seen; simpl; [by intros ?%elem_of_nil |].
  destruct (bool_decide (is_Some (getTile m b))) eqn:Hb; simpl.
  - destruct (bool_decide (pos m b ∈ seen)); simpl.
    + intros Ha. destruct (IH _ Ha). split; [by right | done].
    + intros [-> | Ha]%elem_of_cons.
      * split; [by left |]. by apply bool_decide_eq_true in Hb.
      * destruct (IH _ Ha). split; [by right | done].
  - intros Ha. destruct (IH _ Ha). split; [by right | done].
Qed.

(** The inner loop of the spillover: one call per coordinate, in order, and
    the shape of the map is kept. *)
Lemma spillover_inner (name : string) (sp mx : Z) (l : list Coords) :
  forall (s : Map) (calls : list AddKnowledge),
    let r :=
      foldl (fun '(s', calls') neighborCoords =>
               (updateTileAt s' (pos s' neighborCoords)
                  (fun t => addKnowledge t name sp (QArith_base.Qmake 1 10) mx),
                calls' ++ [ {| ak_coords := neighborCoords;
                               ak_name := name;
                               ak_points := sp;
                               ak_decay := QArith_base.Qmake 1 10;
                               ak_maxPoints := mx |} ]))
            (s, calls) l in
    sameShape s (fst r) /\ snd r = calls ++ map (spilloverCall (name, (sp, mx))) l.
Proof.
  induction l as [| a l IH]; intros s calls; simpl.
  - split; [apply sameShape_refl | by rewrite app_nil_r].
  - destruct (IH (updateTileAt s (pos s a)
                    (fun t => addKnowledge t name sp (QArith_base.Qmake 1 10) mx))
                 (calls ++ [spilloverCall (name, (sp, mx)) a])) as [Hsh Hcalls].
    split.
    + eapply sameShape_trans; [apply sameShape_updateTileAt | exact Hsh].
    + unfold spilloverCall in Hcalls at 1. simpl in Hcalls.
      rewrite Hcalls. by rewrite <- app_assoc.
Qed.

(** The outer loop, when the neighbourhood of [c] is [targets] on every map
    of the same shape. *)
Lemma spillover_outer (m : Map) (c : Coords) (targets : list Coords) :
  (forall s, sameShape m s -> getNeighborsCoords s c 1 None = targets) ->
  forall L s calls,
    sameShape m s ->
    snd (foldl (fun '(s0, calls0) '(name, (spilloverPoints, maxPoints)) =>
           foldl (fun '(s', calls') neighborCoords =>
                    (updateTileAt s' (pos s' neighborCoords)
                       (fun t => addKnowledge t name spilloverPoints
                                   (QArith_base.Qmake 1 10) maxPoints),
                     calls' ++ [ {| ak_coords := neighborCoords;
                                    ak_name := name;
                                    ak_points := spilloverPoints;
                                    ak_decay := QArith_base.Qmake 1 10;
                                    ak_maxPoints := maxPoints |} ]))
                 (s0, calls0) (getNeighborsCoords s0 c 1 None))
          (s, calls) L)
    = calls ++ flat_map (fun k => map (spilloverCall k) targets) L.
Proof.
  intros Htargets.
  induction L as [| [name [sp mx]] L IH]; intros s calls Hsh; cbn [foldl flat_map].
  - by rewrite app_nil_r.
  - rewrite (Htargets s Hsh).
    pose proof (spillover_inner name sp mx targets s calls) as Hin.
    cbv zeta in Hin.
    destruct (foldl _ (s, calls) targets) as [s1 calls1].
    simpl in Hin. destruct Hin as [Hsh1 ->].
    rewrite IH by (by eapply sameShape_trans).
    by rewrite <- app_assoc.
Qed.

(** C7, amended. During [Map.turn], for a tile of the map that holds any
    knowledge, every entry of its spillover gives one call
    [addKnowledge(k, spilloverPoints, 0.1, maxPoints)] on each coordinate of
    [getNeighborsCoords(coords)]: first on the source tile itself, then on
    those of its six adjacent coordinates that have a tile (each tile once,
    so fewer than six at the northern and southern edges), and on no other
    tile. *)
Theorem spillover_calls (m : Map) (tile : Tile) (c : Coords) :
  is_Some (getTile m c) ->
  let targets := c :: addFresh m {[pos m c]} (getAdjacentCoords c) in
  snd (spillover m tile c)
  = (if bool_decide (0 < length (getKnowledges tile false))%nat
     then flat_map (fun k => map (spilloverCall k) targets) (getKnowledgeSpillover tile)
     else [])
  /\ (forall call, call ∈ snd (spillover m tile c) ->
        ak_coords call = c \/ ak_coords call ∈ getAdjacentCoords c)
  /\ (forall k, (0 < length (getKnowledges tile false))%nat ->
        k ∈ getKnowledgeSpillover tile ->
        spilloverCall k c ∈ snd (spillover m tile c)).
Proof.
  intros Hc targets.
  assert (Hmain :
    snd (spillover m tile c)
    = (if bool_decide (0 < length (getKnowledges tile false))%nat
       then flat_map (fun k => map (spilloverCall k) targets) (getKnowledgeSpillover tile)
       else [])).
  { unfold spillover. destruct (bool_decide _); [| reflexivity].
    rewrite (spillover_outer m c targets); [reflexivity | | apply sameShape_refl].
    intros s Hsh.
    rewrite (getNeighborsCoords_one s c) by (by eapply getTile_sameShape).
    rewrite (addFresh_sameShape m s) by done.
    by rewrite (pos_width m s c (proj1 Hsh)). }
  split; [exact Hmain |]. rewrite Hmain. split.
  - intros call. destruct (bool_decide _); [| by intros ?%elem_of_nil].
    rewrite list_elem_of_In, in_flat_map.
    intros (k & _ & Hk). apply list_elem_of_In, list_elem_of_fmap in Hk
      as (nc & -> & Hnc).
    simpl. unfold targets in Hnc. apply elem_of_cons in Hnc as [-> | Hnc];
      [by left | right].
    by destruct (addFresh_subset _ _ _ _ Hnc).
  - intros k Hlen Hk. rewrite bool_decide_eq_true_2 by done.
    rewrite list_elem_of_In, in_flat_map. exists k.
    split; [by apply list_elem_of_In |].
    apply list_elem_of_In, list_elem_of_fmap. exists c.
    split; [done | apply list_elem_of_here].
Qed.

End Spillover.

(** C7, as the specification states it, fails on the code: the tile in the
    middle of the map holds a knowledge, and the calls of [addKnowledge] go
    to seven tiles, the first of them the source tile itself. *)
Lemma spillover_reaches_source_tile :
  getTile knowledgeMap (mkCoords 1 1) = Some knowledgeTile
  /\ map ak_coords
       (snd (spillover (H := sampleExternals) knowledgeMap knowledgeTile (mkCoords 1 1)))
     = mkCoords 1 1 :: sampleAdjacentCoords (mkCoords 1 1)
  /\ mkCoords 1 1
       ∈ map ak_coords
           (snd (spillover (H := sampleExternals) knowledgeMap knowledgeTile (mkCoords 1 1)))
  /\ knowledges <$> getTile knowledgeMap (mkCoords 1 1) = Some {[ "scout" := 10 ]}
  /\ knowledges
       <$> getTile (fst (spillover (H := sampleExternals) knowledgeMap knowledgeTile
                           (mkCoords 1 1))) (mkCoords 1 1)
     = Some {[ "scout" := 11 ]}.
Proof.
  split; [reflexivity |].
  split; [vm_compute; reflexivity |].
  split; [| split; vm_compute; reflexivity].
  apply list_elem_of_In. vm_compute. by left.
Qed.

Lemma spillover_calls_witness :
  is_Some (getTile knowledgeMap (mkCoords 1 1))
  /\ forall call,
       call ∈ snd (spillover (H := sampleExternals) knowledgeMap knowledgeTile (mkCoords 1 1)) ->
       ak_coords call = mkCoords 1 1
       \/ ak_coords call ∈ sampleAdjacentCoords (mkCoords 1 1).
Proof.
  assert (Hc : is_Some (getTile knowledgeMap (mkCoords 1 1)))
    by (exists knowledgeTile; reflexivity).
  split; [exact Hc |].
  exact (proj1 (proj2 (spillover_calls (H := sampleExternals)
                         knowledgeMap knowledgeTile (mkCoords 1 1) Hc))).
Defined.

(** ** Errands in progress *)

Section Errands.
Context `{Externals}.

Lemma sameErrands_refl (m : Map) : sameErrands m m.
Proof. by split. Qed.

Lemma sameErrands_trans (m s s' : Map) :
  sameErrands m s -> sameErrands s s' -> sameErrands m s'.
Proof.
  intros [Hw He] [Hw' He']. split; [congruence |].
  intros p. by rewrite He', He.
Qed.

Lemma sameErrands_updateTileAt (m : Map) (p : Z) (f : Tile -> Tile) :
  (forall t, errandOf (f t) = errandOf t) -> sameErrands m (updateTileAt m p f).
Proof.
  intros Hf. split; [apply updateTileAt_frame |].
  intros q. rewrite tileAt_updateTileAt. case_decide as Hpq; [| done].
  destruct (tileAt m q); simpl; [| done]. by rewrite Hf.
Qed.

(** A new trader subscribes to two improvements and changes neither their
    types nor their errands. *)
Lemma addNewTrader_sameErrands (m m' : Map) (civID : Z)
    (route : list Coords * dist) (source sink : Z) (capacity : Yield) :
  addNewTrader m civID route source sink capacity = Ok m' -> sameErrands m m'.
Proof.
  unfold addNewTrader.
  destruct (tileAt m source ≫= improvement); simpl; [| discriminate].
  destruct (tileAt m sink ≫= improvement); simpl; [| discriminate].
  intros [= <-].
  eapply sameErrands_trans; [| eapply sameErrands_trans];
    [apply (sameErrands_updateTileAt m source) | apply sameErrands_updateTileAt | by split];
    intros t; unfold errandOf; simpl; by destruct (improvement t).
Qed.

Lemma tradeRoutesLoop_sameErrands (posKeys : list Z) (civID : Z) (c : Coords)
    (sink : Z) (requirement : Yield) (pathTree : gmap Z Coords) (dst : gmap Z dist) :
  forall m m',
    tradeRoutesLoop posKeys m civID c sink requirement pathTree dst = Ok m' ->
    sameErrands m m'.
Proof.
  induction posKeys as [| p posKeys IH]; intros m m'; cbn [tradeRoutesLoop].
  - intros [= <-]. apply sameErrands_refl.
  - destruct (tileAt m p) as [tile |]; cbn [defined mbind result_bind];
      [| discriminate].
    match goal with
    | |- mbind _ ?a = _ -> _ => destruct a as [m1 | |] eqn:Hm1
    end; cbn [mbind result_bind]; try discriminate.
    intros Hrest. eapply sameErrands_trans; [| exact (IH _ _ Hrest)].
    destruct (bool_decide _ && canSupply tile requirement);
      [| inversion Hm1; apply sameErrands_refl].
    destruct (findRoute m pathTree dst p c) as [[route |] | |];
      cbn [mbind result_bind] in Hm1; try discriminate.
    + by eapply addNewTrader_sameErrands.
    + inversion Hm1. apply sameErrands_refl.
Qed.

Lemma createTradeRoutes_sameErrands (m m' : Map) (civID : Z) (c : Coords)
    (sink : Z) (requirement : Yield) (range : Z) (mode : MovementClass) :
  createTradeRoutes m civID c sink requirement range mode = Ok m' ->
  sameErrands m m'.
Proof.
  unfold createTradeRoutes.
  destruct (getPathTree m c range mode) as [[pathTree dst] | |];
    cbn [mbind result_bind]; try discriminate.
  apply tradeRoutesLoop_sameErrands.
Qed.

(** Whatever the improvement of an owned tile is doing, a call of
    [startConstructionAt] that returns has replaced it by a worksite with a
    fresh construction errand. *)
Lemma startConstructionAt_replaces (m m' : Map) (c : Coords)
    (improvementType : string) (ownerID : Z) (tile : Tile) :
  getTile m c = Some tile -> ownerCivID m tile = Some ownerID ->
  startConstructionAt m c improvementType ownerID = Ok m' ->
  errandAt m' c = Some ("worksite", Some (CONSTRUCTION, improvementType, false)).
Proof.
  intros Ht Ho. unfold startConstructionAt.
  rewrite Ht. cbn [defined mbind result_bind].
  rewrite Ho, bool_decide_eq_true_2 by done. cbn [negb].
  set (m1 := updateTileAt m (pos m c) _).
  set (m2 := startErrandAt m1 c (pos m c) _).
  destruct (errandCostAt m2 (pos m c)) as [cost | |];
    cbn [mbind result_bind]; try discriminate.
  destruct (createTradeRoutes m2 ownerID c (pos m c) cost 5 LAND) as [m3 | |] eqn:Hm3;
    cbn [mbind result_bind]; try discriminate.
  intros [= <-].
  destruct (createTradeRoutes_sameErrands _ _ _ _ _ _ _ _ Hm3) as [Hw He].
  assert (Hw2 : width m2 = width m).
  { unfold m2, startErrandAt, m1. simpl.
    by rewrite !(proj1 (updateTileAt_frame _ _ _)). }
  unfold errandAt, getTile.
  rewrite tileAt_tileUpdate.
  rewrite (pos_width m (tileUpdate m3 c) c) by (simpl; congruence).
  specialize (He (pos m c)).
  assert (H2 : errandOf <$> tileAt m2 (pos m c)
               = Some (Some ("worksite",
                             Some {| e_type := CONSTRUCTION;
                                     e_option := improvementType;
                                     e_location := None;
                                     e_cost := errandCostTable CONSTRUCTION improvementType;
                                     e_storedThisTurn := newYield noParams;
                                     e_completed := false |}))).
  { unfold m2, startErrandAt, m1.
    rewrite tileAt_tileUpdate, !tileAt_updateTileAt_eq.
    change (tileAt m (pos m c)) with (getTile m c). rewrite Ht. reflexivity. }
  rewrite H2 in He.
  destruct (tileAt m3 (pos m c)) as [t3 |]; simpl in He; [| discriminate].
  unfold errandOf in He. destruct (improvement t3) as [i3 |]; simpl in He;
    [| discriminate].
  injection He as Hty Herr. rewrite Hty, Herr. reflexivity.
Qed.

End Errands.

(** C8 on the code.  The encampment of Rome is training a warrior.  A second
    [trainUnitAt] and a [researchKnowledgeAt] are refused and leave the errand
    in place; [startConstructionAt], which does not look at the errand,
    replaces the encampment by a worksite with a construction errand: the
    training errand is discarded. *)
Theorem startConstructionAt_discards_live_errand :
  errandAt trainingMap (mkCoords 1 1)
  = Some ("encampment", Some (UNIT_TRAINING, "warrior", false))
  /\ (exists m',
        trainUnitAt (H := sampleExternals) trainingMap (mkCoords 1 1) "archer" 0 = Ok m'
        /\ errandAt m' (mkCoords 1 1)
           = Some ("encampment", Some (UNIT_TRAINING, "warrior", false)))
  /\ (exists m',
        researchKnowledgeAt (H := sampleExternals) trainingMap (mkCoords 1 1) "scout" 0
        = Ok m'
        /\ errandAt m' (mkCoords 1 1)
           = Some ("encampment", Some (UNIT_TRAINING, "warrior", false)))
  /\ (exists m',
        startConstructionAt (H := sampleExternals) trainingMap (mkCoords 1 1) "farm" 0
        = Ok m'
        /\ errandAt m' (mkCoords 1 1)
           = Some ("worksite", Some (CONSTRUCTION, "farm", false))).
Proof.
  split; [vm_compute; reflexivity |].
  split; [| split].
  - eexists. split; [vm_compute; reflexivity | vm_compute; reflexivity].
  - eexists. split; [vm_compute; reflexivity | vm_compute; reflexivity].
  - eexists. split; [vm_compute; reflexivity | vm_compute; reflexivity].
Qed.

(** ** The path tree *)

Lemma forEach_invariant {St : Type} (P : St -> Prop) (l : list Coords)
    (body : St -> Coords -> result St) :
  (forall s c s', c ∈ l -> P s -> body s c = Ok s' -> P s') ->
  forall s s', P s -> forEach l body s = Ok s' -> P s'.
Proof.
  induction l as [| c l IH]; intros Hbody s s' Hs; simpl.
  - intros [= <-]. exact Hs.
  - destruct (body s c) as [s1 | |] eqn:Hb; simpl; try discriminate.
    apply IH.
    + intros s0 c0 s0' Hc0. apply Hbody. by right.
    + eapply Hbody; [by left | exact Hs | exact Hb].
Qed.

Lemma forEach_returns {St : Type} (P : St -> Prop) (l : list Coords)
    (body : St -> Coords -> result St) :
  (forall s c, c ∈ l -> P s -> exists s', body s c = Ok s' /\ P s') ->
  forall s, P s -> exists s', forEach l body s = Ok s' /\ P s'.
Proof.
  induction l as [| c l IH]; intros Hbody s Hs; simpl.
  - eauto.
  - destruct (Hbody s c) as (s1 & -> & Hs1); [by left | done |]. simpl.
    apply IH; [| done]. intros s0 c0 Hc0. apply Hbody. by right.
Qed.

Section PathTree.
Context `{Externals}.
Variables (m : Map) (range : Z) (mode : MovementClass).


(** The outcomes of the body of the inner loop. *)
Lemma relax_cases (atPos adjPos : Coords) (st st' : PathState) :
  relax m range mode atPos st adjPos = Ok st' ->
  exists tile cost,
    getTile m adjPos = Some tile
    /\ movementCostFor mode tile = Ok cost
    /\ let candidate := dist_add (distAt (dst st) (pos m atPos)) cost in
       (st' = st
        /\ exists d, dst st !! pos m adjPos = Some d /\ dist_gt d candidate = false)
       \/ ((dst st !! pos m adjPos = None
            \/ exists d, dst st !! pos m adjPos = Some d /\ dist_gt d candidate = true)
           /\ ((dist_le candidate range = true
                /\ st' = {| queue := queue st ++ [adjPos];
                            paths := <[pos m adjPos := atPos]> (paths st);
                            dst := <[pos m adjPos := candidate]> (dst st) |})
               \/ (dist_le candidate range = false
                   /\ st' = {| queue := queue st;
                               paths := paths st;
                               dst := <[pos m adjPos := candidate]> (dst st) |}))).
Proof.
  unfold relax. destruct (getTile m adjPos) as [tile |] eqn:Ht; [| discriminate].
  simpl.
  destruct (movementCostFor mode tile) as [cost | |] eqn:Hcost; try discriminate.
  simpl. intros Hst. exists tile, cost.
  split; [reflexivity |]. split; [exact Hcost |].
  cbv zeta. set (candidate := dist_add _ _) in *.
  destruct (dst st !! pos m adjPos) as [d |] eqn:Hd.
  - destruct (dist_gt d candidate) eqn:Hgt.
    + right. split; [right; eauto |].
      destruct (dist_le candidate range); inversion Hst; auto.
    + left. inversion Hst. eauto.
  - right. split; [by left |].
    destruct (dist_le candidate range); inversion Hst; auto.
Qed.

(** A loop invariant that every round of the outer loop keeps holds of the
    state the loop stops in. *)
Lemma pathLoop_invariant (P : PathState -> Prop) :
  (forall atPos rest ps ds st',
     P {| queue := atPos :: rest; paths := ps; dst := ds |} ->
     forEach (getNeighborsCoords m atPos 1 None) (relax m range mode atPos)
       {| queue := rest; paths := ps; dst := ds |} = Ok st' ->
     P st') ->
  forall fuel st res,
    P st -> pathLoop fuel m range mode st = Ok res ->
    exists st', P st' /\ queue st' = [] /\ res = (paths st', dst st').
Proof.
  intros Hround. induction fuel as [| fuel IH]; intros [q ps ds] res Hst; simpl.
  - destruct q; [| discriminate]. intros [= <-]. eauto.
  - destruct q as [| atPos rest]; [intros [= <-]; eauto |].
    destruct (forEach _ _ _) as [st1 | |] eqn:Hfe; simpl; try discriminate.
    apply IH. eapply Hround; eauto.
Qed.

Lemma dist_le_Fin (d : dist) :
  dist_le d range = true -> exists v, d = Fin v /\ v <= range.
Proof. destruct d; simpl; try discriminate. intros ?%Z.leb_le. eauto. Qed.

Lemma dist_gt_Fin (d : dist) (v : Z) :
  dist_gt (Fin v) d = true -> exists y, d = Fin y /\ y < v.
Proof. destruct d; simpl; try discriminate. intros ?%Z.ltb_lt. eauto. Qed.

(** The body of the inner loop keeps the parents within the range. *)
Lemma relax_parentsWithinRange (atPos adjPos : Coords) (st st' : PathState) :
  parentsWithinRange range (paths st) (dst st) ->
  relax m range mode atPos st adjPos = Ok st' ->
  parentsWithinRange range (paths st') (dst st').
Proof.
  intros Hinv Hrelax.
  destruct (relax_cases _ _ _ _ Hrelax) as (tile & cost & _ & _ & Hcases).
  cbv zeta in Hcases. set (candidate := dist_add _ _) in *.
  destruct Hcases as [[-> _] | [Hold [[Hle ->] | [Hle ->]]]]; [done | |];
    intros p parent; simpl.
  - destruct (decide (pos m adjPos = p)) as [<- | Hne].
    + intros _. rewrite lookup_insert_eq.
      destruct (dist_le_Fin _ Hle) as (v & -> & Hv). eauto.
    + rewrite !lookup_insert_ne by done. apply Hinv.
  - destruct (decide (pos m adjPos = p)) as [<- | Hne].
    + intros Hp. exfalso.
      destruct (Hinv _ _ Hp) as (d & Hd & Hdr).
      destruct Hold as [Hnone | (d' & Hd' & Hgt)]; [congruence |].
      rewrite Hd in Hd'. inversion Hd'; subst d'.
      destruct (dist_gt_Fin _ _ Hgt) as (y & Hy & Hlt).
      rewrite Hy in Hle. simpl in Hle. apply Z.leb_gt in Hle. lia.
    + rewrite lookup_insert_ne by done. apply Hinv.
Qed.




(** *** The loop ends *)

Lemma sum_list_agree (f g : nat -> nat) (n : nat) :
  (forall i, (i < n)%nat -> f i = g i) ->
  sum_list_with f (seq 0 n) = sum_list_with g (seq 0 n).
Proof.
  induction n as [| n IH]; intros Hfg; [done |].
  rewrite seq_S, !sum_list_with_app. simpl.
  rewrite IH by (intros; apply Hfg; lia). rewrite Hfg by lia. done.
Qed.

(** Two summands that differ at [k] only. *)
Lemma sum_list_update (f g : nat -> nat) (k n : nat) :
  (k < n)%nat -> (forall i, i <> k -> f i = g i) ->
  (sum_list_with g (seq 0 n) + f k = sum_list_with f (seq 0 n) + g k)%nat.
Proof.
  induction n as [| n IH]; intros Hk Hfg; [lia |].
  rewrite seq_S, !sum_list_with_app. simpl.
  destruct (decide (k = n)) as [-> | Hne].
  - rewrite (sum_list_agree f g n) by (intros; apply Hfg; lia). lia.
  - rewrite (Hfg n) by done.
    assert (k < n)%nat by lia. specialize (IH H0 Hfg). lia.
Qed.

Lemma potential_update (R : nat) (ds : gmap Z dist) (p : Z) (d : dist) :
  0 <= p < Z.of_nat (length (tiles m)) ->
  (potential R (length (tiles m)) (<[p := d]> ds) + weight R (ds !! p)
   = potential R (length (tiles m)) ds + weight R (Some d))%nat.
Proof.
  intros Hp. unfold potential.
  pose proof (sum_list_update
                (fun i => weight R (ds !! Z.of_nat i))
                (fun i => weight R (<[p := d]> ds !! Z.of_nat i))
                (Z.to_nat p) (length (tiles m))) as Hsum.
  cbv beta in Hsum. rewrite !Z2Nat.id, lookup_insert_eq in Hsum by lia.
  apply Hsum; [lia |].
  intros i Hi. rewrite lookup_insert_ne by lia. done.
Qed.

Lemma weight_bound (R : nat) (d : option dist) : (weight R d <= R + 2)%nat.
Proof. destruct d as [[v | |] |]; simpl; lia. Qed.

Lemma potential_bound (R n : nat) (ds : gmap Z dist) :
  (potential R n ds <= n * (R + 2))%nat.
Proof.
  unfold potential. induction n as [| n IH]; [simpl; lia |].
  rewrite seq_S, sum_list_with_app. simpl.
  pose proof (weight_bound R (ds !! Z.of_nat n)). lia.
Qed.

(** A finite movement cost of a well-costed map is positive. *)
Lemma movementCostFor_positive (tile : Tile) (c : Z) :
  wellCosted m -> tile ∈ tiles m ->
  movementCostFor mode tile = Ok (Fin c) -> 0 < c.
Proof.
  intros Hwc Htile. destruct (Hwc tile Htile) as (costs & Hcosts & Hpos).
  unfold movementCostFor. destruct mode; rewrite ?Hcosts; simpl;
    try (intros [= <-]; lia).
  all: destruct (costs !! _) as [c0 |] eqn:Hc0; [| discriminate];
    destruct (c0 =? 0) eqn:Hz; [discriminate |];
    intros [= <-]; apply Z.eqb_neq in Hz;
    apply (Forall_lookup_1 _ _ _ _ Hpos) in Hc0; lia.
Qed.

Lemma getTile_elem (c : Coords) (tile : Tile) :
  getTile m c = Some tile ->
  tile ∈ tiles m /\ 0 <= pos m c < Z.of_nat (length (tiles m)).
Proof.
  intros Ht. split.
  - unfold getTile, tileAt in Ht. destruct (pos m c <? 0); [discriminate |].
    by eapply list_elem_of_lookup_2.
  - apply is_Some_tileAt. by exists tile.
Qed.

(** The body of the inner loop does not let the measure grow: a push is
    paid for by the potential. *)
Lemma relax_measure (atPos adjPos : Coords) (st st' : PathState) :
  wellCosted m -> nonNegative (dst st) ->
  relax m range mode atPos st adjPos = Ok st' ->
  nonNegative (dst st')
  /\ (potential (Z.to_nat range) (length (tiles m)) (dst st') + length (queue st')
      <= potential (Z.to_nat range) (length (tiles m)) (dst st) + length (queue st))%nat.
Proof.
  intros Hwc Hnn Hrelax.
  destruct (relax_cases _ _ _ _ Hrelax) as (tile & cost & Ht & Hcost & Hcases).
  destruct (getTile_elem _ _ Ht) as [Htile Hp].
  cbv zeta in Hcases. set (candidate := dist_add _ _) in *.
  assert (Hcand : forall y, candidate = Fin y -> 0 <= y).
  { intros y Hy. unfold candidate, distAt in Hy.
    destruct (dst st !! pos m atPos) as [[a | |] |] eqn:Ha;
      destruct cost as [c | |]; simpl in Hy; try discriminate.
    inversion Hy; subst y.
    pose proof (Hnn _ _ Ha). pose proof (movementCostFor_positive _ _ Hwc Htile Hcost).
    lia. }
  assert (Hnn' : nonNegative (<[pos m adjPos := candidate]> (dst st))).
  { intros p v. destruct (decide (pos m adjPos = p)) as [<- | Hne].
    - rewrite lookup_insert_eq. intros [= Hv]. by apply Hcand.
    - rewrite lookup_insert_ne by done. apply Hnn. }
  pose proof (potential_update (Z.to_nat range) (dst st) (pos m adjPos) candidate Hp)
    as Hpot.
  destruct Hcases as [[-> _] | [Hold [[Hle ->] | [Hle ->]]]]; cbn [dst queue].
  - split; [done | lia].
  - split; [done |]. rewrite length_app. cbn [length].
    destruct (dist_le_Fin _ Hle) as (y & Hy & Hyr).
    pose proof (Hcand _ Hy) as Hy0. rewrite Hy in Hpot |- *.
    destruct Hold as [Hnone | (d & Hd & Hgt)].
    + rewrite Hnone in Hpot. cbn [weight] in Hpot. lia.
    + rewrite Hd in Hpot. rewrite Hy in Hgt.
      destruct d as [x | |]; cbn [weight dist_gt] in Hgt, Hpot; try discriminate.
      * apply Z.ltb_lt in Hgt. lia.
      * lia.
  - split; [done |].
    destruct Hold as [Hnone | (d & Hd & Hgt)].
    + rewrite Hnone in Hpot.
      pose proof (weight_bound (Z.to_nat range) (Some candidate)) as Hwb.
      assert (Hw : (weight (Z.to_nat range) (Some candidate) <= Z.to_nat range + 1)%nat)
        by (destruct candidate; cbn [weight]; lia).
      change (weight (Z.to_nat range) None) with (Z.to_nat range + 2)%nat in Hpot.
      lia.
    + rewrite Hd in Hpot.
      destruct d as [x | |], candidate as [y | |]; cbn [weight dist_gt] in Hgt, Hpot;
        try discriminate; try apply Z.ltb_lt in Hgt; lia.
Qed.

(** On a well-costed map the body of the inner loop returns on every
    coordinate that has a tile. *)
Lemma relax_returns (atPos adjPos : Coords) (st : PathState) :
  wellCosted m -> is_Some (getTile m adjPos) ->
  exists st', relax m range mode atPos st adjPos = Ok st'.
Proof.
  intros Hwc [tile Ht]. destruct (getTile_elem _ _ Ht) as [Htile _].
  destruct (Hwc tile Htile) as (costs & Hcosts & _).
  unfold relax. rewrite Ht. simpl.
  assert (Hc : exists cost, movementCostFor mode tile = Ok cost).
  { unfold movementCostFor. destruct mode; rewrite ?Hcosts; simpl; eauto. }
  destruct Hc as [cost ->]. simpl.
  repeat case_match; eauto.
Qed.

(** With fuel for the measure, the loop returns. *)
Lemma pathLoop_returns (fuel : nat) :
  wellCosted m ->
  forall st,
    nonNegative (dst st) ->
    (potential (Z.to_nat range) (length (tiles m)) (dst st) + length (queue st)
     <= fuel)%nat ->
    exists res, pathLoop fuel m range mode st = Ok res.
Proof.
  intros Hwc. induction fuel as [| fuel IH]; intros [q ps ds] Hnn Hfuel; simpl in *.
  - destruct q; simpl in *; [eauto | lia].
  - destruct q as [| atPos rest]; [eauto |]. simpl in Hfuel.
    destruct (forEach_returns
                (fun st =>
                   nonNegative (dst st)
                   /\ (potential (Z.to_nat range) (length (tiles m)) (dst st)
                       + length (queue st) <= fuel)%nat)
                (getNeighborsCoords m atPos 1 None)
                (relax m range mode atPos))
      with (s := {| queue := rest; paths := ps; dst := ds |})
      as (st1 & -> & Hnn1 & Hfuel1).
    + intros s c Hc [Hs1 Hs2].
      destruct (relax_returns atPos c s Hwc) as [s' Hs'].
      { pose proof (getNeighborsCoords_defined m atPos 1 None) as Hdef.
        rewrite Forall_forall in Hdef. by apply Hdef. }
      exists s'. split; [done |].
      destruct (relax_measure _ _ _ _ Hwc Hs1 Hs') as [? ?]. split; [done | lia].
    + simpl. split; [done | lia].
    + simpl. by apply IH.
Qed.

(** [getPathTree] returns on every well-costed map. *)
Lemma getPathTree_returns (srcPos : Coords) :
  wellCosted m -> exists ps ds, getPathTree m srcPos range mode = Ok (ps, ds).
Proof.
  intros Hwc. unfold getPathTree.
  destruct (pathLoop_returns (pathFuel m range) Hwc
              {| queue := [srcPos]; paths := ∅; dst := {[pos m srcPos := Fin 0]} |})
    as [[ps ds] Hres]; [| | eauto].
  - intros p v Hp. simpl in Hp. apply lookup_singleton_Some in Hp as [_ [= <-]]. lia.
  - simpl. unfold pathFuel.
    pose proof (potential_bound (Z.to_nat range) (length (tiles m))
                  {[pos m srcPos := Fin 0]}). lia.
Qed.


End PathTree.

Lemma wellCosted_plainsMap (height width : Z) : wellCosted (plainsMap height width).
Proof.
  intros tile Htile. apply elem_of_replicate in Htile as [-> _].
  exists [1; 0]. split; [reflexivity |]. repeat constructor; lia.
Qed.



(** Scenario S4 on the code: from the middle of the ring of mountains, with
    range 10, the parent map holds the six tiles next to the source, and the
    dist map the source, these six and the twelve mountains of the ring, at
    [Infinity]; no tile beyond the ring is there. *)
Example getPathTree_ring_of_mountains :
  exists ps ds,
    getPathTree (H := sampleExternals) ringMap (mkCoords 3 3) 10 LAND = Ok (ps, ds)
    /\ keysOf ps = [17; 23; 25; 30; 31; 32]
    /\ keysOf ds
       = [10; 15; 16; 17; 18; 19; 22; 23; 24; 25; 26; 29; 30; 31; 32; 33; 37; 38; 39]
    /\ map (fun p => ds !! p) [10; 15; 16; 18; 19; 22; 26; 29; 33; 37; 38; 39]
       = replicate 12 (Some Infinity)
    /\ map (fun p => tile_type <$> tileAt ringMap p)
           [10; 15; 16; 18; 19; 22; 26; 29; 33; 37; 38; 39]
       = replicate 12 (Some "mountain").
Proof.
  eexists _, _. split; [vm_compute; reflexivity |].
  repeat apply conj; vm_compute; reflexivity.
Qed.

(** ** Visibility counters *)

Section Lights.
Context `{Externals}.

Lemma hits_cons (m : Map) (p : Z) (c : Coords) (l : list Coords) :
  hits m p (c :: l) = (if decide (pos m c = p) then 1 else 0) + hits m p l.
Proof.
  unfold hits. rewrite filter_cons. case_decide; simpl; lia.
Qed.

Lemma hits_width (m s : Map) (p : Z) (l : list Coords) :
  width s = width m -> hits s p l = hits m p l.
Proof.
  intros Hw. unfold hits. f_equal. f_equal.
  apply list_filter_iff. intros c. by rewrite (pos_width m s c Hw).
Qed.

(** Without repetition a tile is hit once or not at all. *)
Lemma hits_NoDup (m : Map) (p : Z) (l : list Coords) :
  NoDup (pos m <$> l) -> 0 <= hits m p l <= 1.
Proof.
  induction l as [| c l IH]; intros Hnd.
  - unfold hits. simpl. lia.
  - rewrite fmap_cons in Hnd. apply NoDup_cons in Hnd as [Hc Hnd].
    rewrite hits_cons. specialize (IH Hnd). case_decide as Hp; [| lia].
    assert (hits m p l = 0); [| lia].
    unfold hits. destruct (filter _ l) as [| c' l'] eqn:Hf; [done |].
    exfalso. apply Hc.
    assert (Hin : c' ∈ filter (fun c0 => pos m c0 = p) l) by (rewrite Hf; by left).
    apply list_elem_of_filter in Hin as [Hc' Hin].
    rewrite Hp, <- Hc'. by apply list_elem_of_fmap_2.
Qed.

Lemma sameTerrain_refl (m : Map) : sameTerrain m m.
Proof. by split. Qed.

Lemma sameTerrain_trans (m s s' : Map) :
  sameTerrain m s -> sameTerrain s s' -> sameTerrain m s'.
Proof.
  intros [Hw Ht] [Hw' Ht']. split; [congruence |].
  intros p. by rewrite Ht', Ht.
Qed.

(** A change of the tile at [p] that keeps its total elevation keeps the
    terrain. *)
Lemma sameTerrain_updateTileAt (m : Map) (p : Z) (f : Tile -> Tile) :
  (forall t, getTotalElevation (f t) = getTotalElevation t) ->
  sameTerrain m (updateTileAt m p f).
Proof.
  intros Hf. split; [apply updateTileAt_frame |].
  intros q. rewrite tileAt_updateTileAt. case_decide as Hpq; [| done].
  destruct (tileAt m q); simpl; [| done]. by rewrite Hf.
Qed.

(** [setTileVisibility] changes the counter of one tile and pushes an
    update. *)
Lemma setTileVisibility_Ok (m m' : Map) (civID : Z) (c : Coords) (visible : bool) :
  setTileVisibility m civID c visible = Ok m' ->
  m' = tileUpdate (updateTileAt m (pos m c) (fun t => setVisibility t civID visible)) c.
Proof.
  unfold setTileVisibility. destruct (getTile m c); simpl; [| discriminate].
  by intros [= <-].
Qed.

(** A loop of [setTileVisibility] over the coordinates [l] moves the counter
    of every tile by its number of hits: up when lighting, down when
    darkening, without a floor. *)
Lemma lights_counter (civID : Z) (visible : bool) (l : list Coords) :
  forall m m',
    forEach l (fun s c => setTileVisibility s civID c visible) m = Ok m' ->
    sameTerrain m m'
    /\ forall p t n,
         tileAt m p = Some t -> visibleTo t !! civID = Some (Num n) ->
         exists t',
           tileAt m' p = Some t'
           /\ visibleTo t' !! civID
              = Some (Num (n + (if visible then 1 else -1) * hits m p l)).
Proof.
  induction l as [| c l IH]; intros m m'; simpl.
  - intros [= <-]. split; [apply sameTerrain_refl |].
    intros p t n Ht Hn. exists t. split; [done |].
    rewrite Hn. unfold hits. simpl. do 2 f_equal. lia.
  - destruct (setTileVisibility m civID c visible) as [m1 | |] eqn:Hm1;
      simpl; try discriminate.
    apply setTileVisibility_Ok in Hm1.
    intros Hrest. destruct (IH _ _ Hrest) as [Hter Hcount].
    assert (Hter1 : sameTerrain m m1).
    { subst m1. apply (sameTerrain_updateTileAt m (pos m c)). done. }
    split; [by eapply sameTerrain_trans |].
    intros p t n Ht Hn.
    assert (Hstep : exists t1,
               tileAt m1 p = Some t1
               /\ visibleTo t1 !! civID
                  = Some (Num (n + (if visible then 1 else -1)
                                   * (if decide (pos m c = p) then 1 else 0)))).
    { subst m1. rewrite tileAt_tileUpdate, tileAt_updateTileAt, Ht.
      case_decide as Hp; simpl.
      - eexists. split; [reflexivity |].
        rewrite setVisibility_counter, Hn. simpl. do 2 f_equal.
        destruct visible; lia.
      - exists t. split; [done |]. rewrite Hn. do 2 f_equal. lia. }
    destruct Hstep as (t1 & Ht1 & Hn1).
    destruct (Hcount p t1 _ Ht1 Hn1) as (t' & Ht' & Hn').
    exists t'. split; [done |]. rewrite Hn'.
    rewrite hits_cons, (hits_width m m1 p l (proj1 Hter1)).
    do 2 f_equal. lia.
Qed.

(** *** Lines of sight *)

Lemma result_bind_ext {A B : Type} (a a' : result A) (f f' : A -> result B) :
  a = a' -> (forall x, f x = f' x) -> (a ≫= f) = (a' ≫= f').
Proof. intros -> Hf. destruct a'; simpl; [apply Hf | done | done]. Qed.

(** Reading a tile for its total elevation only. *)
Lemma result_bind_elevation {B : Type} (o o' : option Tile) (f f' : Tile -> result B) :
  getTotalElevation <$> o = getTotalElevation <$> o' ->
  (forall t t', getTotalElevation t = getTotalElevation t' -> f t = f' t') ->
  (defined o ≫= f) = (defined o' ≫= f').
Proof.
  intros Ho Hf. destruct o as [t |], o' as [t' |]; simpl in *; try done.
  apply Hf. congruence.
Qed.

Lemma getTile_sameTerrain (m s : Map) (c : Coords) :
  sameTerrain m s ->
  getTotalElevation <$> getTile s c = getTotalElevation <$> getTile m c.
Proof.
  intros [Hw Ht]. unfold getTile. rewrite (pos_width m s c Hw). apply Ht.
Qed.

(** The line of sight is the same on two maps with the same terrain. *)
Lemma getVisibleTilesRecurse_sameTerrain (m s : Map) (n : nat) :
  sameTerrain m s ->
  forall c maxElevation slope direction st stepsUntilSpread stepLength,
    getVisibleTilesRecurse n s c maxElevation slope direction st
      stepsUntilSpread stepLength
    = getVisibleTilesRecurse n m c maxElevation slope direction st
        stepsUntilSpread stepLength.
Proof.
  intros Hter. pose proof (proj1 Hter) as Hw.
  induction n as [| n IH]; intros c maxElevation slope direction st steps sl;
    [reflexivity |].
  cbn [getVisibleTilesRecurse].
  apply result_bind_elevation; [by apply getTile_sameTerrain |].
  intros t t' Ht. rewrite (pos_width m s c Hw), Ht.
  assert (Hray : forall d k x,
            (defined (getTile s (getCoordInDirection c d)) ≫= fun newTile =>
               getVisibleTilesRecurse n s (getCoordInDirection c d)
                 (maxElevation + slope)
                 (Z.max slope (getTotalElevation newTile - maxElevation))
                 direction x k sl)
            = (defined (getTile m (getCoordInDirection c d)) ≫= fun newTile =>
                 getVisibleTilesRecurse n m (getCoordInDirection c d)
                   (maxElevation + slope)
                   (Z.max slope (getTotalElevation newTile - maxElevation))
                   direction x k sl)).
  { intros d k x. apply result_bind_elevation; [by apply getTile_sameTerrain |].
    intros u u' Hu. by rewrite Hu, IH. }
  destruct (steps =? 0).
  - apply result_bind_ext; [apply Hray |]. intros s2.
    apply result_bind_ext; [apply Hray |]. intros s3. apply Hray.
  - apply Hray.
Qed.

Lemma getVisibleTilesCoords_sameTerrain (m s : Map) (unit : Unit) (r : option Z) :
  sameTerrain m s ->
  getVisibleTilesCoords s unit r = getVisibleTilesCoords m unit r.
Proof.
  intros Hter. pose proof (proj1 Hter) as Hw. unfold getVisibleTilesCoords.
  apply result_bind_elevation; [by apply getTile_sameTerrain |].
  intros t t' Ht. rewrite (pos_width m s _ Hw).
  apply result_bind_ext; [| done].
  generalize ({| coordsArray := [u_coords unit]; seen := {[pos m (u_coords unit)]} |}).
  generalize [0; 1; 2; 3; 4; 5].
  induction l as [| d l IH]; intros st; [reflexivity |].
  cbn [wedges].
  apply result_bind_elevation; [by apply getTile_sameTerrain |].
  intros u u' Hu. rewrite Hu, Ht.
  apply result_bind_ext; [by apply getVisibleTilesRecurse_sameTerrain |].
  intros st'. apply IH.
Qed.

(** The line of sight keeps its list tidy. *)
Lemma getVisibleTilesRecurse_tidy (m : Map) (n : nat) :
  forall c maxElevation slope direction st stepsUntilSpread stepLength st',
    tidy m st ->
    getVisibleTilesRecurse n m c maxElevation slope direction st
      stepsUntilSpread stepLength = Ok st' ->
    tidy m st'.
Proof.
  induction n as [| n IH];
    intros c maxElevation slope direction st steps sl st' Hst;
    cbn [getVisibleTilesRecurse]; [by intros [= <-] |].
  destruct (getTile m c) as [tile |]; simpl; [| discriminate].
  match goal with
  | |- context [if negb ?a && ?b then ?x else st] =>
      assert (Hst1 : tidy m (if negb a && b then x else st))
  end.
  { destruct (bool_decide (pos m c ∈ seen st)) eqn:Hin; simpl; [done |].
    destruct (maxElevation <=? getTotalElevation tile); [| done].
    apply bool_decide_eq_false in Hin. destruct Hst as [Hnd Hseen].
    split; simpl.
    - rewrite fmap_app. apply NoDup_app. split; [done |]. split.
      + intros p Hp Hp2. apply list_elem_of_singleton in Hp2 as ->.
        apply list_elem_of_fmap in Hp as (c' & Hc' & Hin'). apply Hin.
        rewrite Hc'. by apply Hseen.
      + apply NoDup_singleton.
    - intros c' [Hc' | ->%list_elem_of_singleton]%elem_of_app;
        [specialize (Hseen _ Hc') |]; set_solver. }
  match goal with
  | |- context [if negb ?a && ?b then ?x else st] =>
      generalize dependent (if negb a && b then x else st)
  end.
  intros st1 Hst1.
  assert (Hray : forall d k x x',
            tidy m x ->
            (defined (getTile m (getCoordInDirection c d)) ≫= fun newTile =>
               getVisibleTilesRecurse n m (getCoordInDirection c d)
                 (maxElevation + slope)
                 (Z.max slope (getTotalElevation newTile - maxElevation))
                 direction x k sl) = Ok x' ->
            tidy m x').
  { intros d k x x' Hx. destruct (getTile m _); simpl; [| discriminate].
    by apply IH. }
  destruct (steps =? 0); [| by apply Hray].
  destruct (defined (getTile m (getCoordInDirection c (direction - 1))) ≫= _)
    as [s2 | |] eqn:H2; simpl; try discriminate.
  destruct (defined (getTile m (getCoordInDirection c direction)) ≫= _)
    as [s3 | |] eqn:H3; simpl; try discriminate.
  apply Hray. eapply Hray; [| exact H3]. eapply Hray; [| exact H2]. exact Hst1.
Qed.

(** [getVisibleTilesCoords] names no tile twice. *)
Lemma getVisibleTilesCoords_NoDup (m : Map) (unit : Unit) (r : option Z)
    (l : list Coords) :
  getVisibleTilesCoords m unit r = Ok l -> NoDup (pos m <$> l).
Proof.
  assert (Hgen : forall tile range dirs st st',
            tidy m st ->
            wedges dirs m (u_coords unit) tile range st = Ok st' ->
            tidy m st').
  { intros tile range. induction dirs as [| d dirs IH]; intros st st0 Hst;
      cbn [wedges]; [by intros [= <-] |].
    destruct (getTile m _); cbn [defined mbind result_bind]; [| discriminate].
    match goal with
    | |- context [getVisibleTilesRecurse ?a ?b ?c ?d ?e ?f ?g ?h ?i] =>
        destruct (getVisibleTilesRecurse a b c d e f g h i) as [st1 | |] eqn:H1
    end; cbn [mbind result_bind]; try discriminate.
    apply IH. by eapply getVisibleTilesRecurse_tidy. }
  unfold getVisibleTilesCoords.
  destruct (getTile m (u_coords unit)) as [tile |];
    cbn [defined mbind result_bind]; [| discriminate].
  match goal with
  | |- context [wedges ?a ?b ?c ?d ?e ?f] =>
      destruct (wedges a b c d e f) as [st' | |] eqn:Hw
  end; cbn [mbind result_bind]; try discriminate.
  intros [= <-].
  eapply Hgen; [| exact Hw].
  split; simpl.
  - apply NoDup_singleton.
  - intros c ->%list_elem_of_singleton. set_solver.
Qed.

(** The counters after [moveUnitTo]: every tile of the cone enumerated at
    the old position has lost 1, every tile of the cone at the new position
    has gained 1. *)
Lemma moveUnitTo_counters (m m' : Map) (unit unit' : Unit) (c : Coords) :
  moveUnitTo m unit c = Ok (m', unit') ->
  exists srcVisible newVisible,
    getVisibleTilesCoords m unit None = Ok srcVisible
    /\ getVisibleTilesCoords m (set_coords unit c) None = Ok newVisible
    /\ unit' = set_coords unit c
    /\ forall p t n,
         tileAt m p = Some t -> visibleTo t !! u_civID unit = Some (Num n) ->
         0 <= hits m p srcVisible <= 1
         /\ 0 <= hits m p newVisible <= 1
         /\ exists t',
              tileAt m' p = Some t'
              /\ visibleTo t' !! u_civID unit
                 = Some (Num (n - hits m p srcVisible + hits m p newVisible)).
Proof.
  unfold moveUnitTo.
  destruct (getVisibleTilesCoords m unit None) as [srcVisible | |] eqn:Hsrc;
    cbn [mbind result_bind]; try discriminate.
  destruct (forEach srcVisible _ m) as [m1 | |] eqn:Hm1;
    cbn [mbind result_bind]; try discriminate.
  destruct (getTile m1 (u_coords unit)) as [told |];
    cbn [defined mbind result_bind]; [| discriminate].
  set (m2 := updateTileAt m1 (pos m1 (u_coords unit)) (fun t => setUnit t None)).
  set (m3 := tileUpdate m2 (u_coords unit)).
  destruct (getTile m3 c) as [tnew |];
    cbn [defined mbind result_bind]; [| discriminate].
  set (m4 := updateTileAt m3 (pos m3 c) (fun t => setUnit t (Some (set_coords unit c)))).
  set (m5 := tileUpdate m4 c).
  destruct (getVisibleTilesCoords m5 (set_coords unit c) None)
    as [newVisible | |] eqn:Hnew; cbn [mbind result_bind]; try discriminate.
  destruct (forEach newVisible _ m5) as [m6 | |] eqn:Hm6;
    cbn [mbind result_bind]; try discriminate.
  intros [= <- <-].
  destruct (lights_counter _ _ _ _ _ Hm1) as [Hter1 Hcount1].
  destruct (lights_counter _ _ _ _ _ Hm6) as [Hter6 Hcount6].
  assert (Hter2 : sameTerrain m1 m2) by (by apply sameTerrain_updateTileAt).
  assert (Hter4 : sameTerrain m3 m4) by (by apply sameTerrain_updateTileAt).
  assert (Hter5 : sameTerrain m m5).
  { eapply sameTerrain_trans; [exact Hter1 |].
    eapply sameTerrain_trans; [exact Hter2 |]. exact Hter4. }
  rewrite (getVisibleTilesCoords_sameTerrain m m5 _ _ Hter5) in Hnew.
  exists srcVisible, newVisible.
  split; [done |]. split; [done |]. split; [done |].
  intros p t n Ht Hn.
  split; [apply hits_NoDup; by eapply getVisibleTilesCoords_NoDup |].
  split; [apply hits_NoDup; by eapply getVisibleTilesCoords_NoDup |].
  destruct (Hcount1 p t n Ht Hn) as (t1 & Ht1 & Hn1).
  assert (Ht5 : exists t5, tileAt m5 p = Some t5
                           /\ visibleTo t5 !! u_civID unit = visibleTo t1 !! u_civID unit).
  { unfold m5, m4, m3, m2.
    rewrite tileAt_tileUpdate, tileAt_updateTileAt, tileAt_tileUpdate,
      tileAt_updateTileAt, Ht1.
    repeat case_decide; simpl; eauto. }
  destruct Ht5 as (t5 & Ht5 & Hn5). rewrite Hn1 in Hn5.
  destruct (Hcount6 p t5 _ Ht5 Hn5) as (t6 & Ht6 & Hn6).
  exists t6. split; [done |]. rewrite Hn6.
  rewrite (hits_width m m5 p newVisible (proj1 Hter5)).
  do 2 f_equal. lia.
Qed.

End Lights.

(** The counters after a rebuild and a move.  The rebuild at the beginning
    of a turn lights every tile within 3 of the scout, whose vision range is
    2; the move darkens and lights cones of radius 2.  Afterwards the tile at
    (2, 6), which only the one scout sees, counts 2, and the tile at (4, 1),
    which nobody sees any more, still counts 1. *)
Example move_after_rebuild_overcounts :
  counterAt litMap (mkCoords 2 6) 0 = Some (Num 1)
  /\ counterAt movedMap (mkCoords 2 6) 0 = Some (Num 2)
  /\ counterAt litMap (mkCoords 4 1) 0 = Some (Num 1)
  /\ counterAt movedMap (mkCoords 4 1) 0 = Some (Num 1)
  /\ (exists newVisible,
        getVisibleTilesCoords (H := sampleExternals) movedMap
          (scoutAt (mkCoords 4 5)) None = Ok newVisible
        /\ mkCoords 2 6 ∈ newVisible
        /\ mkCoords 4 1 ∉ newVisible).
Proof.
  repeat apply conj; try (vm_compute; reflexivity).
  eexists. split; [vm_compute; reflexivity |].
  split.
  - apply list_elem_of_In. vm_compute. tauto.
  - intros Hin%list_elem_of_In. vm_compute in Hin.
    repeat (destruct Hin as [Hin | Hin]; [discriminate |]). exact Hin.
Qed.

(** ** The geometry of the tile array *)

(** X1. On a map of positive width [pos] and [coords] are inverse to each
    other: [pos(coords(p)) = p] for every index, and [coords(pos(c))] is [c]
    with its x taken into [0, width), so it is [c] itself when x is there
    already.  The map wraps horizontally: x and x + k * width are the same
    index, hence the same tile. *)
Theorem pos_coords_round_trip (m : Map) :
  0 < width m ->
  (forall p, pos m (coords m p) = p)
  /\ (forall c, coords m (pos m c) = {| cx := cx c mod width m; cy := cy c |})
  /\ (forall c, 0 <= cx c < width m -> coords m (pos m c) = c)
  /\ (forall c k,
        pos m {| cx := cx c + k * width m; cy := cy c |} = pos m c
        /\ getTile m {| cx := cx c + k * width m; cy := cy c |} = getTile m c).
Proof.
  intros Hw.
  assert (Hcp : forall c, coords m (pos m c) = {| cx := cx c mod width m; cy := cy c |}).
  { intros [x y]. unfold coords, pos, mod_. simpl.
    pose proof (Z.mod_pos_bound x (width m) Hw) as Hx.
    f_equal.
    - rewrite Z.add_comm, Z.mod_add by lia. apply Z.mod_mod. lia.
    - rewrite Z.add_comm, Z.div_add by lia.
      rewrite Z.div_small by lia. lia. }
  assert (Hwrap : forall c k, pos m {| cx := cx c + k * width m; cy := cy c |} = pos m c).
  { intros [x y] k. unfold pos, mod_. simpl. by rewrite Z.mod_add by lia. }
  split; [| split; [exact Hcp | split]].
  - intros p. unfold pos, coords, mod_. simpl.
    rewrite Z.mod_mod by lia.
    pose proof (Z.div_mod p (width m)). lia.
  - intros [x y] Hx. rewrite Hcp. simpl in *. by rewrite Z.mod_small.
  - intros c k. split; [apply Hwrap |]. unfold getTile. by rewrite Hwrap.
Qed.

Lemma pos_coords_round_trip_witness :
  0 < width (plainsMap 3 3)
  /\ pos (plainsMap 3 3) (coords (plainsMap 3 3) 7) = 7.
Proof.
  assert (Hw : 0 < width (plainsMap 3 3)) by (simpl; lia).
  split; [exact Hw |].
  exact (proj1 (pos_coords_round_trip (plainsMap 3 3) Hw) 7).
Defined.

(** X2. On a map whose array holds [height * width] tiles, [isInBounds]
    only looks at y (x wraps), and a coordinate has a tile exactly when it is
    in bounds: [getTile] is [undefined] on every row above or below the
    map. *)
Theorem getTile_defined_iff_inBounds (m : Map) (c : Coords) :
  populated m ->
  (isInBounds m c = true <-> 0 <= cy c < height m)
  /\ (is_Some (getTile m c) <-> isInBounds m c = true).
Proof.
  intros Hpop. pose proof Hpop as [Hw Hlen].
  pose proof (Z.mod_pos_bound (cx c) (width m) Hw) as Hx.
  assert (Hin : isInBounds m c = true <-> 0 <= cy c < height m).
  { unfold isInBounds, mod_. rewrite !andb_true_iff.
    rewrite !Z.leb_le, !Z.ltb_lt. lia. }
  split; [exact Hin |]. split.
  - intros Hsome. apply Hin.
    unfold getTile in Hsome. apply is_Some_tileAt in Hsome.
    unfold pos, mod_ in Hsome. rewrite Hlen in Hsome. nia.
  - by apply inBounds_getTile.
Qed.

Lemma getTile_defined_iff_inBounds_witness :
  populated (plainsMap 3 3)
  /\ (is_Some (getTile (plainsMap 3 3) (mkCoords 7 2))
      <-> isInBounds (plainsMap 3 3) (mkCoords 7 2) = true).
Proof.
  assert (Hpop : populated (plainsMap 3 3)) by (split; reflexivity).
  split; [exact Hpop |].
  exact (proj2 (getTile_defined_iff_inBounds (plainsMap 3 3) (mkCoords 7 2) Hpop)).
Defined.

(** ** Neighbourhoods *)

Lemma foldl_preserves {A B : Type} (P : A -> Prop) (g : A -> B -> A) (l : list B) :
  (forall s b, b ∈ l -> P s -> P (g s b)) -> forall s, P s -> P (foldl g s l).
Proof.
  induction l as [| b l IH]; intros Hg s Hs; simpl; [done |].
  apply IH.
  - intros s0 b0 Hb0. apply Hg. by right.
  - apply Hg; [by left | done].
Qed.

Section Neighbours.
Context `{Externals}.

Lemma withinSteps_refl (n : nat) (c : Coords) : withinSteps n c c.
Proof. destruct n; by left. Qed.

Lemma withinSteps_S (n : nat) (c c' : Coords) :
  withinSteps n c c' -> withinSteps (S n) c c'.
Proof.
  revert c. induction n as [| n IH]; intros c [-> | Hn]; try (by left).
  destruct Hn as (a & Ha & Hn). right. exists a. split; [done |]. by apply IH.
Qed.

(** [getNeighborsRecurse] keeps the list neat. *)
Lemma getNeighborsRecurse_neat (m : Map) (filter : option (Tile -> Coords -> bool))
    (n : nat) :
  forall c st, neat m st -> neat m (getNeighborsRecurse n m c st filter).
Proof.
  induction n as [| n IH]; intros c st Hst; simpl; [done |].
  destruct (getTile m c) as [tile |]; [| done].
  apply foldl_preserves.
  { intros s a _ Hs. destruct (expandable _ _ _); [by apply IH | done]. }
  destruct (bool_decide (pos m c ∈ tileSet st)) eqn:Hin; [done |].
  destruct (match filter with
            | Some f => f tile c
            | None => true
            end); [| done].
  apply bool_decide_eq_false in Hin. destruct Hst as [Hnd Hseen].
  split; simpl.
  - rewrite fmap_app. apply NoDup_app. split; [done |]. split.
    + intros p Hp Hp2. apply list_elem_of_singleton in Hp2 as ->.
      apply list_elem_of_fmap in Hp as (c' & Hc' & Hin'). apply Hin.
      rewrite Hc'. by apply Hseen.
    + apply NoDup_singleton.
  - intros c' [Hc' | ->%list_elem_of_singleton]%elem_of_app;
      [specialize (Hseen _ Hc') |]; set_solver.
Qed.

(** What [getNeighborsRecurse] adds is within the range it was given. *)
Lemma getNeighborsRecurse_within (m : Map) (filter : option (Tile -> Coords -> bool))
    (n : nat) :
  forall c st x,
    x ∈ coordList (getNeighborsRecurse n m c st filter) ->
    x ∈ coordList st \/ exists k, n = S k /\ withinSteps k c x.
Proof.
  induction n as [| n IH]; intros c st x; simpl; [by left |].
  destruct (getTile m c) as [tile |]; [| by left].
  set (st1 := if bool_decide (pos m c ∈ tileSet st) then st else _).
  assert (Hst1 : forall y, y ∈ coordList st1 -> y ∈ coordList st \/ y = c).
  { intros y. unfold st1. destruct (bool_decide _); [by left |].
    destruct (match filter with
              | Some f => f tile c
              | None => true
              end); [| by left].
    simpl. intros [Hy | ->%list_elem_of_singleton]%elem_of_app; auto. }
  intros Hx.
  assert (Hgoal : x ∈ coordList st1 \/ exists a, a ∈ getAdjacentCoords c
                                               /\ exists k, n = S k /\ withinSteps k a x).
  { revert Hx. generalize (getAdjacentCoords c) st1. clear Hst1 st1.
    induction l as [| a l IHl]; intros s; simpl; [by left |].
    intros Hx. destruct (IHl _ Hx) as [Hs | (b & Hb & Hk)].
    - destruct (expandable _ _ _); [| by left].
      destruct (IH _ _ _ Hs) as [? | Hk]; [by left |].
      right. exists a. split; [by left | done].
    - right. exists b. split; [by right | done]. }
  destruct Hgoal as [Hs | (a & Ha & k & -> & Hk)].
  - destruct (Hst1 _ Hs) as [? | ->]; [by left |].
    right. exists n. split; [done | apply withinSteps_refl].
  - right. exists (S k). split; [done |]. right. eauto.
Qed.

(** What [getNeighborsRecurse] adds has passed the filter. *)
Lemma getNeighborsRecurse_filtered (m : Map) (f : Tile -> Coords -> bool) (n : nat) :
  forall c st,
    Forall (fun c' => exists t, getTile m c' = Some t /\ f t c' = true) (coordList st) ->
    Forall (fun c' => exists t, getTile m c' = Some t /\ f t c' = true)
           (coordList (getNeighborsRecurse n m c st (Some f))).
Proof.
  induction n as [| n IH]; intros c st Hst; simpl; [done |].
  destruct (getTile m c) as [tile |] eqn:Ht; [| done].
  apply (foldl_preserves
           (fun s => Forall (fun c' => exists t, getTile m c' = Some t /\ f t c' = true)
                            (coordList s))).
  { intros s a _ Hs. destruct (expandable _ _ _); [by apply IH | done]. }
  destruct (bool_decide (pos m c ∈ tileSet st)); [done |].
  destruct (f tile c) eqn:Hf; [| done].
  simpl. apply Forall_app. split; [done |].
  apply Forall_singleton. eauto.
Qed.

(** X3. Whatever the range and the filter, [getNeighborsCoords(c, r)] names
    no tile twice, and every coordinate it returns has a tile, is [c] or
    within [r] steps of [getAdjacentCoords] from [c], and has passed the
    filter when there is one. *)
Theorem getNeighborsCoords_sound (m : Map) (c : Coords) (r : Z)
    (filter : option (Tile -> Coords -> bool)) :
  NoDup (pos m <$> getNeighborsCoords m c r filter)
  /\ forall c', c' ∈ getNeighborsCoords m c r filter ->
       withinSteps (Z.to_nat r) c c'
       /\ exists t, getTile m c' = Some t
                    /\ match filter with
                       | Some f => f t c' = true
                       | None => True
                       end.
Proof.
  unfold getNeighborsCoords. split.
  - apply getNeighborsRecurse_neat. split; simpl; [constructor |].
    by intros c' ?%elem_of_nil.
  - intros c' Hc'. split.
    + destruct (getNeighborsRecurse_within _ _ _ _ _ _ Hc') as [Hnil | (k & Hk & Hw)];
        [by apply elem_of_nil in Hnil |].
      replace (Z.to_nat r) with k by lia. exact Hw.
    + destruct filter as [f |].
      * pose proof (getNeighborsRecurse_filtered m f (Z.to_nat (r + 1)) c
                      {| tileSet := ∅; coordList := []; rangeMap := ∅ |}) as Hf.
        specialize (Hf ltac:(constructor)). rewrite Forall_forall in Hf. by apply Hf.
      * pose proof (getNeighborsRecurse_defined (Z.to_nat (r + 1)) m c
                      {| tileSet := ∅; coordList := []; rangeMap := ∅ |} None) as Hd.
        specialize (Hd ltac:(constructor)). rewrite Forall_forall in Hd.
        destruct (Hd _ Hc') as [t Ht].
        eauto.
Qed.

(** X4. The edges of [getNeighborsCoords]: a negative range or a centre
    without a tile gives the empty list; range 0 gives the centre alone, or
    nothing when the filter rejects it. *)
Theorem getNeighborsCoords_edges (m : Map) (c : Coords) (r : Z)
    (filter : option (Tile -> Coords -> bool)) :
  (r < 0 -> getNeighborsCoords m c r filter = [])
  /\ (getTile m c = None -> getNeighborsCoords m c r filter = [])
  /\ (forall t, getTile m c = Some t ->
        getNeighborsCoords m c 0 filter
        = if match filter with
             | Some f => f t c
             | None => true
             end
          then [c] else []).
Proof.
  unfold getNeighborsCoords. repeat split.
  - intros Hr. replace (Z.to_nat (r + 1)) with 0%nat by lia. reflexivity.
  - intros Ht. destruct (Z.to_nat (r + 1)); simpl; [done |]. by rewrite Ht.
  - intros t Ht. change (Z.to_nat (0 + 1)) with 1%nat. simpl. rewrite Ht.
    rewrite bool_decide_eq_false_2 by set_solver.
    rewrite foldl_fixed by (intros b; by destruct (expandable _ _ _)).
    by destruct (match filter with
                 | Some f => f t c
                 | None => true
                 end).
Qed.

End Neighbours.

Lemma getNeighborsCoords_edges_witness :
  getTile (plainsMap 3 3) (mkCoords 1 1) = Some plainsTile
  /\ getNeighborsCoords (H := sampleExternals) (plainsMap 3 3) (mkCoords 1 1) 0 None
     = [mkCoords 1 1].
Proof.
  assert (Ht : getTile (plainsMap 3 3) (mkCoords 1 1) = Some plainsTile) by reflexivity.
  split; [exact Ht |].
  exact (proj2 (proj2 (getNeighborsCoords_edges (H := sampleExternals)
                         (plainsMap 3 3) (mkCoords 1 1) 0 None)) plainsTile Ht).
Defined.

(** ** Counting the lights on a tile *)

Lemma setVisibilities_cons (t : Tile) (call : Z * bool) (calls : list (Z * bool)) :
  setVisibilities t (call :: calls)
  = setVisibilities (setVisibility t (fst call) (snd call)) calls.
Proof. reflexivity. Qed.

(** X5. The visibility counters of a tile under any sequence of calls of
    [setVisibility], for any civilizations: a counter that holds a number
    moves by the calls for its civilization only, +1 for [true] and -1 for
    [false], so after [clearVisibility] it counts the lights that are on; a
    counter that was never initialised is [NaN] after every call; and a tile
    is discovered by a civilization afterwards exactly when it was before or
    one of the calls lit it: no call undoes a discovery. *)
Theorem setVisibilities_counts (t : Tile) (civID : Z) (calls : list (Z * bool)) :
  visibleTo (setVisibilities (clearVisibility t civID) calls) !! civID
  = Some (Num (lightSum civID calls))
  /\ (forall n, visibleTo t !! civID = Some (Num n) ->
        visibleTo (setVisibilities t calls) !! civID
        = Some (Num (n + lightSum civID calls)))
  /\ (toNumber (visibleTo t !! civID) = NaN ->
        toNumber (visibleTo (setVisibilities t calls) !! civID) = NaN)
  /\ flag (discoveredBy (setVisibilities t calls) !! civID)
     = flag (discoveredBy t !! civID) || litBy civID calls.
Proof.
  assert (Hnum : forall calls0 t0 n,
            visibleTo t0 !! civID = Some (Num n) ->
            visibleTo (setVisibilities t0 calls0) !! civID
            = Some (Num (n + lightSum civID calls0))).
  { induction calls0 as [| [c b] calls0 IH]; intros t0 n Hn.
    - simpl. rewrite Hn. do 2 f_equal. lia.
    - rewrite setVisibilities_cons. cbn [fst snd lightSum foldr].
      fold (lightSum civID calls0).
      destruct (decide (c = civID)) as [-> | Hne].
      + rewrite bool_decide_eq_true_2 by done.
        rewrite (IH _ (n + (if b then 1 else -1))).
        * do 2 f_equal. lia.
        * rewrite setVisibility_counter, Hn. reflexivity.
      + rewrite bool_decide_eq_false_2 by done.
        apply IH. rewrite setVisibility_counter_other by done. exact Hn. }
  split; [| split; [exact (Hnum calls t) | split]].
  - rewrite (Hnum calls _ 0) by apply clearVisibility_counter.
    do 2 f_equal.
  - revert t. induction calls as [| [c b] calls IH]; intros t Hnan; [done |].
    rewrite setVisibilities_cons. apply IH. cbn [fst snd].
    destruct (decide (c = civID)) as [-> | Hne].
    + rewrite setVisibility_counter, Hnan. reflexivity.
    + rewrite setVisibility_counter_other by done. exact Hnan.
  - revert t. induction calls as [| [c b] calls IH]; intros t.
    + simpl. by rewrite orb_false_r.
    + rewrite setVisibilities_cons, IH. cbn [fst snd litBy existsb].
      fold (litBy civID calls).
      unfold setVisibility at 1; cbn [discoveredBy set_sight].
      destruct (decide (c = civID)) as [-> | Hne].
      * rewrite bool_decide_eq_true_2 by done.
        destruct b, (flag (discoveredBy t !! civID)) eqn:Hd; simpl;
          rewrite ?Hd, ?lookup_insert_eq; reflexivity.
      * rewrite bool_decide_eq_false_2 by done. simpl.
        destruct (b && negb (flag (discoveredBy t !! c)));
          rewrite ?lookup_insert_ne by done; reflexivity.
Qed.

(** ** Rebuilding the counters of a civilization *)

Section Rebuild.
Context `{Externals}.

(** The counters of [civID] on a map [s], compared with the map [m] the
    rebuild started from: every tile of [m] is still there with its unit,
    improvement and owner, its counters for the other civilizations are
    those of [m], and its counter for [civID] is a number that is not
    negative. *)
Lemma rebuild_step (m s : Map) (civID : Z) (p : Z) :
  (width s = width m
   /\ length (tiles s) = length (tiles m)
   /\ forall q t, tileAt m q = Some t ->
        exists t' n,
          tileAt s q = Some t'
          /\ visibleTo t' !! civID = Some (Num n) /\ 0 <= n
          /\ (forall c, c <> civID -> visibleTo t' !! c = visibleTo t !! c)
          /\ tile_unit t' = tile_unit t /\ improvement t' = improvement t
          /\ owner t' = owner t) ->
  let s' := updateTileAt s p (fun t => setVisibility t civID true) in
  width s' = width m
  /\ length (tiles s') = length (tiles m)
  /\ forall q t, tileAt m q = Some t ->
       exists t' n,
         tileAt s' q = Some t'
         /\ visibleTo t' !! civID = Some (Num n) /\ 0 <= n
         /\ (forall c, c <> civID -> visibleTo t' !! c = visibleTo t !! c)
         /\ tile_unit t' = tile_unit t /\ improvement t' = improvement t
         /\ owner t' = owner t.
Proof.
  intros (Hw & Hl & Hall) s'.
  destruct (updateTileAt_frame s p (fun t => setVisibility t civID true))
    as (Hw' & _ & _ & _ & _ & _ & Hl').
  split; [unfold s'; congruence |]. split; [unfold s'; congruence |].
  intros q t Ht. destruct (Hall q t Ht) as (t' & n & Ht' & Hn & Hn0 & Hother & Hu & Hi & Ho).
  unfold s'. rewrite tileAt_updateTileAt, Ht'.
  case_decide as Hpq; cbn [fmap option_fmap option_map].
  - exists (setVisibility t' civID true), (n + 1).
    split; [done |]. rewrite setVisibility_counter, Hn. cbn [toNumber jsnum_add].
    split; [done |]. split; [lia |]. split; [| done].
    intros c Hc. rewrite setVisibility_counter_other by done. by apply Hother.
  - exists t', n. auto 10.
Qed.

(** X6. After [updateCivTileVisibility(civID)] the counter of [civID] on
    every tile is a number that is not negative, whatever it was before
    ([undefined], [NaN] or negative); the counters of the other
    civilizations, the units, the improvements and the owners are
    untouched, and no tile is added or removed. *)
Theorem updateCivTileVisibility_counters (m : Map) (civID : Z) (units : list Unit) :
  length (tiles (updateCivTileVisibility m civID units)) = length (tiles m)
  /\ forall p t, tileAt m p = Some t ->
       exists t' n,
         tileAt (updateCivTileVisibility m civID units) p = Some t'
         /\ visibleTo t' !! civID = Some (Num n) /\ 0 <= n
         /\ (forall c, c <> civID -> visibleTo t' !! c = visibleTo t !! c)
         /\ tile_unit t' = tile_unit t /\ improvement t' = improvement t
         /\ owner t' = owner t.
Proof.
  unfold updateCivTileVisibility.
  set (m0 := set_tiles m (map (fun t => clearVisibility t civID) (tiles m))).
  set (Inv := fun s : Map =>
    width s = width m
    /\ length (tiles s) = length (tiles m)
    /\ forall q t, tileAt m q = Some t ->
         exists t' n,
           tileAt s q = Some t'
           /\ visibleTo t' !! civID = Some (Num n) /\ 0 <= n
           /\ (forall c, c <> civID -> visibleTo t' !! c = visibleTo t !! c)
           /\ tile_unit t' = tile_unit t /\ improvement t' = improvement t
           /\ owner t' = owner t).
  assert (H0 : Inv m0).
  { split; [done |]. split; [unfold m0; simpl; apply length_map |].
    intros q t Ht. exists (clearVisibility t civID), 0.
    split.
    - unfold tileAt, m0 in *. simpl. destruct (q <? 0); [done |].
      by rewrite list_lookup_fmap, Ht.
    - rewrite clearVisibility_counter. split; [done |]. split; [lia |].
      split; [| done]. intros c Hc. unfold clearVisibility; simpl.
      by rewrite lookup_insert_ne. }
  assert (Hend : Inv (foldl (fun s unit =>
                        foldl (fun s' c =>
                                 updateTileAt s' (pos s' c)
                                   (fun t => setVisibility t civID true))
                              s (getNeighborsCoords s (u_coords unit) 3 None))
                      m0 units)).
  { apply (foldl_preserves Inv); [| exact H0].
    intros s unit _ Hs. apply (foldl_preserves Inv); [| exact Hs].
    intros s' c _ Hs'. by apply rebuild_step. }
  destruct Hend as (_ & Hl & Hall). split; [exact Hl | exact Hall].
Qed.

End Rebuild.

(** ** Lines of sight: what is listed, and where they break *)

Section Sight.
Context `{Externals}.

(** [getVisibleTilesRecurse] only appends, and only coordinates that have a
    tile. *)
Lemma getVisibleTilesRecurse_extends (m : Map) (n : nat) :
  forall c maxElevation slope direction st stepsUntilSpread stepLength st',
    getVisibleTilesRecurse n m c maxElevation slope direction st
      stepsUntilSpread stepLength = Ok st' ->
    exists ext,
      coordsArray st' = coordsArray st ++ ext
      /\ Forall (fun c' => is_Some (getTile m c')) ext.
Proof.
  induction n as [| n IH];
    intros c maxElevation slope direction st steps sl st';
    cbn [getVisibleTilesRecurse].
  { intros [= <-]. exists []. by rewrite app_nil_r. }
  destruct (getTile m c) as [tile |] eqn:Ht; cbn [defined mbind result_bind];
    [| discriminate].
  match goal with
  | |- context [if negb ?a && ?b then ?x else st] =>
      assert (Hst1 : exists ext,
                 coordsArray (if negb a && b then x else st) = coordsArray st ++ ext
                 /\ Forall (fun c' => is_Some (getTile m c')) ext);
      [| generalize dependent (if negb a && b then x else st)]
  end.
  { destruct (negb _ && _); simpl.
    - exists [c]. split; [done |]. apply Forall_singleton. by rewrite Ht.
    - exists []. by rewrite app_nil_r. }
  intros st1 (e1 & He1 & Hf1).
  assert (Hray : forall d k x x',
            (defined (getTile m (getCoordInDirection c d)) ≫= fun newTile =>
               getVisibleTilesRecurse n m (getCoordInDirection c d)
                 (maxElevation + slope)
                 (Z.max slope (getTotalElevation newTile - maxElevation))
                 direction x k sl) = Ok x' ->
            exists ext, coordsArray x' = coordsArray x ++ ext
                        /\ Forall (fun c' => is_Some (getTile m c')) ext).
  { intros d k x x'.
    destruct (getTile m (getCoordInDirection c d)); simpl; [| discriminate].
    apply IH. }
  destruct (steps =? 0).
  - destruct (defined (getTile m (getCoordInDirection c (direction - 1))) ≫= _)
      as [s2 | |] eqn:H2; simpl; try discriminate.
    destruct (defined (getTile m (getCoordInDirection c direction)) ≫= _)
      as [s3 | |] eqn:H3; simpl; try discriminate.
    intros H4.
    destruct (Hray _ _ _ _ H2) as (e2 & He2 & Hf2).
    destruct (Hray _ _ _ _ H3) as (e3 & He3 & Hf3).
    destruct (Hray _ _ _ _ H4) as (e4 & He4 & Hf4).
    exists (e1 ++ e2 ++ e3 ++ e4). split.
    + rewrite He4, He3, He2, He1. by rewrite <- !app_assoc.
    + by repeat (apply Forall_app; split).
  - intros H2. destruct (Hray _ _ _ _ H2) as (e2 & He2 & Hf2).
    exists (e1 ++ e2). split.
    + rewrite He2, He1. by rewrite <- app_assoc.
    + by apply Forall_app.
Qed.

Lemma wedges_extends (m : Map) (unitCoords : Coords) (tile : Tile) (range : Z)
    (dirs : list Z) :
  forall st st',
    wedges dirs m unitCoords tile range st = Ok st' ->
    exists ext,
      coordsArray st' = coordsArray st ++ ext
      /\ Forall (fun c' => is_Some (getTile m c')) ext.
Proof.
  induction dirs as [| d dirs IH]; intros st st'; cbn [wedges].
  { intros [= <-]. exists []. by rewrite app_nil_r. }
  destruct (getTile m _); cbn [defined mbind result_bind]; [| discriminate].
  match goal with
  | |- context [getVisibleTilesRecurse ?a ?b ?c ?d ?e ?f ?g ?h ?i] =>
      destruct (getVisibleTilesRecurse a b c d e f g h i) as [st1 | |] eqn:H1
  end; cbn [mbind result_bind]; try discriminate.
  intros H2.
  destruct (getVisibleTilesRecurse_extends _ _ _ _ _ _ _ _ _ _ H1) as (e1 & He1 & Hf1).
  destruct (IH _ _ H2) as (e2 & He2 & Hf2).
  exists (e1 ++ e2). split.
  - rewrite He2, He1. by rewrite <- app_assoc.
  - by apply Forall_app.
Qed.

(** X7. When [getVisibleTilesCoords(unit, range)] returns, the list starts
    with the coordinates of the unit itself and every coordinate in it has a
    tile; with a range of 0 or less the unit sees its own tile only. *)
Theorem getVisibleTilesCoords_shape (m : Map) (unit : Unit) (r : option Z)
    (l : list Coords) :
  getVisibleTilesCoords m unit r = Ok l ->
  (exists rest, l = u_coords unit :: rest)
  /\ Forall (fun c => is_Some (getTile m c)) l
  /\ (match r with
      | Some x => x
      | None => u_visionRange unit
      end <= 0 -> l = [u_coords unit]).
Proof.
  unfold getVisibleTilesCoords.
  destruct (getTile m (u_coords unit)) as [tile |] eqn:Ht;
    cbn [defined mbind result_bind]; [| discriminate].
  set (range := match r with
                | Some x => x
                | None => u_visionRange unit
                end).
  match goal with
  | |- context [wedges ?a ?b ?c ?d ?e ?f] =>
      destruct (wedges a b c d e f) as [st' | |] eqn:Hw
  end; cbn [mbind result_bind]; try discriminate.
  intros [= <-].
  destruct (wedges_extends _ _ _ _ _ _ _ Hw) as (ext & Hext & Hf).
  simpl in Hext. split; [rewrite Hext; eauto |]. split.
  - rewrite Hext. constructor; [by rewrite Ht | done].
  - intros Hr.
    assert (Hfix : forall dirs st st0,
              wedges dirs m (u_coords unit) tile range st = Ok st0 -> st0 = st).
    { induction dirs as [| d dirs IH]; intros st st0; cbn [wedges].
      - by intros [= <-].
      - destruct (getTile m (getCoordInDirection (u_coords unit) d));
          cbn [defined mbind result_bind]; [| discriminate].
        replace (Z.to_nat range) with 0%nat by lia.
        cbn [getVisibleTilesRecurse mbind result_bind]. apply IH. }
    by rewrite (Hfix _ _ _ Hw).
Qed.

(** A line of sight either returns or raises a [TypeError]: the recursion
    is bounded by the range. *)
Lemma getVisibleTilesRecurse_no_fuel (m : Map) (n : nat) :
  forall c maxElevation slope direction st stepsUntilSpread stepLength,
    getVisibleTilesRecurse n m c maxElevation slope direction st
      stepsUntilSpread stepLength <> OutOfFuel.
Proof.
  induction n as [| n IH];
    intros c maxElevation slope direction st steps sl;
    cbn [getVisibleTilesRecurse]; [done |].
  destruct (getTile m c) as [tile |]; cbn [defined mbind result_bind]; [| done].
  match goal with
  | |- context [if negb ?a && ?b then ?x else st] =>
      generalize (if negb a && b then x else st)
  end.
  intros st1.
  assert (Hray : forall d k x,
            (defined (getTile m (getCoordInDirection c d)) ≫= fun newTile =>
               getVisibleTilesRecurse n m (getCoordInDirection c d)
                 (maxElevation + slope)
                 (Z.max slope (getTotalElevation newTile - maxElevation))
                 direction x k sl) <> OutOfFuel).
  { intros d k x. destruct (getTile m _); simpl; [apply IH | done]. }
  destruct (steps =? 0); [| apply Hray].
  destruct (defined (getTile m (getCoordInDirection c (direction - 1))) ≫= _)
    as [s2 | |] eqn:H2; simpl; [| done | by apply Hray in H2].
  destruct (defined (getTile m (getCoordInDirection c direction)) ≫= _)
    as [s3 | |] eqn:H3; simpl; [| done | by apply Hray in H3].
  apply Hray.
Qed.

(** X8. A unit whose own coordinates, or one of the six coordinates
    [getCoordInDirection] gives around it, has no tile (a unit on the
    northern or southern edge of the map) has no line of sight:
    [getVisibleTilesCoords] raises a [TypeError], whatever the range, and so
    does every [moveUnitTo] of that unit. *)
Theorem getVisibleTilesCoords_off_map (m : Map) (unit : Unit) (r : option Z)
    (c : Coords) :
  getTile m (u_coords unit) = None
  \/ (exists d, d ∈ [0; 1; 2; 3; 4; 5]
                /\ getTile m (getCoordInDirection (u_coords unit) d) = None) ->
  getVisibleTilesCoords m unit r = TypeError
  /\ moveUnitTo m unit c = TypeError.
Proof.
  intros Hoff.
  assert (Hsight : forall r0, getVisibleTilesCoords m unit r0 = TypeError).
  { intros r0. unfold getVisibleTilesCoords.
    destruct Hoff as [-> | (d & Hd & Hnone)]; [reflexivity |].
    destruct (getTile m (u_coords unit)) as [tile |];
      cbn [defined mbind result_bind]; [| reflexivity].
    match goal with
    | |- context [wedges ?a ?b ?c ?d ?e ?f] =>
        cut (wedges a b c d e f = TypeError); [by intros -> |]
    end.
    revert Hd. generalize [0; 1; 2; 3; 4; 5].
    generalize ({| coordsArray := [u_coords unit]; seen := {[pos m (u_coords unit)]} |}).
    intros st dirs. revert st.
    induction dirs as [| d0 dirs IH]; intros st Hd; [by apply elem_of_nil in Hd |].
    cbn [wedges]. apply elem_of_cons in Hd as [<- | Hd].
    - by rewrite Hnone.
    - destruct (getTile m (getCoordInDirection (u_coords unit) d0));
        cbn [defined mbind result_bind]; [| reflexivity].
      match goal with
      | |- context [getVisibleTilesRecurse ?a ?b ?c ?d ?e ?f ?g ?h ?i] =>
          destruct (getVisibleTilesRecurse a b c d e f g h i) as [st1 | |] eqn:H1
      end; cbn [mbind result_bind]; [by apply IH | reflexivity |].
      by apply getVisibleTilesRecurse_no_fuel in H1. }
  split; [apply Hsight |].
  unfold moveUnitTo. by rewrite Hsight.
Qed.

(** Lighting or darkening tiles moves no unit, and pushes one update per
    coordinate. *)
Lemma lights_keep_units (civID : Z) (visible : bool) (l : list Coords) :
  forall m m',
    forEach l (fun s c => setTileVisibility s civID c visible) m = Ok m' ->
    width m' = width m
    /\ length (updates m') = (length (updates m) + length l)%nat
    /\ forall p, tile_unit <$> tileAt m' p = tile_unit <$> tileAt m p.
Proof.
  induction l as [| c l IH]; intros m m'; simpl.
  - intros [= <-]. split; [done |]. split; [lia | done].
  - destruct (setTileVisibility m civID c visible) as [m1 | |] eqn:Hm1;
      simpl; try discriminate.
    apply setTileVisibility_Ok in Hm1.
    intros Hrest. destruct (IH _ _ Hrest) as (Hw & Hu & Ht).
    assert (Hw1 : width m1 = width m).
    { subst m1. simpl. apply updateTileAt_frame. }
    assert (Hu1 : length (updates m1) = S (length (updates m))).
    { subst m1. unfold tileUpdate. simpl. rewrite length_app. simpl.
      rewrite (proj1 (proj2 (proj2 (proj2 (proj2 (proj2
                 (updateTileAt_frame m (pos m c) _))))))). lia. }
    split; [congruence |]. split; [lia |].
    intros p. rewrite Ht. subst m1.
    rewrite tileAt_tileUpdate, tileAt_updateTileAt.
    case_decide; [| done]. by destruct (tileAt m p).
Qed.

(** X9. When [moveUnitTo(unit, coords)] returns, the unit has the new
    coordinates and stands on the tile there, replacing whatever unit was on
    it; its old tile, when it is another tile, holds no unit; the units of
    all other tiles are where they were; and the queue has one update for
    every tile darkened, one for every tile lit, and two for the move. *)
Theorem moveUnitTo_places_unit (m m' : Map) (unit unit' : Unit) (c : Coords) :
  moveUnitTo m unit c = Ok (m', unit') ->
  unit' = set_coords unit c
  /\ tile_unit <$> getTile m' c = Some (Some unit')
  /\ (pos m (u_coords unit) <> pos m c ->
      tile_unit <$> getTile m' (u_coords unit) = Some None)
  /\ (forall p, p <> pos m c -> p <> pos m (u_coords unit) ->
        tile_unit <$> tileAt m' p = tile_unit <$> tileAt m p)
  /\ exists srcVisible newVisible,
       getVisibleTilesCoords m unit None = Ok srcVisible
       /\ getVisibleTilesCoords m unit' None = Ok newVisible
       /\ length (updates m')
          = (length (updates m) + length srcVisible + length newVisible + 2)%nat.
Proof.
  unfold moveUnitTo.
  destruct (getVisibleTilesCoords m unit None) as [srcVisible | |] eqn:Hsrc;
    cbn [mbind result_bind]; try discriminate.
  destruct (forEach srcVisible _ m) as [m1 | |] eqn:Hm1;
    cbn [mbind result_bind]; try discriminate.
  destruct (getTile m1 (u_coords unit)) as [told |] eqn:Hold;
    cbn [defined mbind result_bind]; [| discriminate].
  set (m2 := updateTileAt m1 (pos m1 (u_coords unit)) (fun t => setUnit t None)).
  set (m3 := tileUpdate m2 (u_coords unit)).
  destruct (getTile m3 c) as [tnew |] eqn:Hnew3;
    cbn [defined mbind result_bind]; [| discriminate].
  set (m4 := updateTileAt m3 (pos m3 c) (fun t => setUnit t (Some (set_coords unit c)))).
  set (m5 := tileUpdate m4 c).
  destruct (getVisibleTilesCoords m5 (set_coords unit c) None)
    as [newVisible | |] eqn:Hnew; cbn [mbind result_bind]; try discriminate.
  destruct (forEach newVisible _ m5) as [m6 | |] eqn:Hm6;
    cbn [mbind result_bind]; try discriminate.
  intros [= <- <-].
  destruct (lights_keep_units _ _ _ _ _ Hm1) as (Hw1 & Hu1 & Ht1).
  destruct (lights_keep_units _ _ _ _ _ Hm6) as (Hw6 & Hu6 & Ht6).
  destruct (lights_counter _ _ _ _ _ Hm1) as [Hter1 _].
  assert (Hw2 : width m2 = width m1) by apply updateTileAt_frame.
  assert (Hw3 : width m3 = width m) by (unfold m3; simpl; congruence).
  assert (Hw4 : width m4 = width m3) by apply updateTileAt_frame.
  assert (Hw5 : width m5 = width m) by (unfold m5; simpl; congruence).
  assert (Hp1 : forall x, pos m1 x = pos m x) by (intros; by apply pos_width).
  assert (Hp3 : forall x, pos m3 x = pos m x) by (intros; by apply pos_width).
  assert (Hp6 : forall x, pos m6 x = pos m x)
    by (intros; apply pos_width; congruence).
  assert (Hunits : forall p,
            tile_unit <$> tileAt m6 p
            = if decide (pos m c = p)
              then (fun _ => Some (set_coords unit c)) <$> tileAt m p
              else if decide (pos m (u_coords unit) = p)
                   then (fun _ => None) <$> tileAt m p
                   else tile_unit <$> tileAt m p).
  { intros p. rewrite Ht6. unfold m5, m4, m3, m2.
    rewrite tileAt_tileUpdate, tileAt_updateTileAt, tileAt_tileUpdate,
      tileAt_updateTileAt.
    change (pos (tileUpdate (updateTileAt m1 (pos m1 (u_coords unit))
                               (fun t => setUnit t None)) (u_coords unit)) c)
      with (pos m3 c).
    rewrite Hp3, Hp1.
    specialize (Ht1 p).
    repeat case_decide; destruct (tileAt m1 p), (tileAt m p); simpl in *;
      try done; congruence. }
  assert (Hc : is_Some (tileAt m (pos m c))).
  { apply is_Some_tileAt.
    assert (Hs : is_Some (tileAt m3 (pos m3 c))) by (by exists tnew).
    apply is_Some_tileAt in Hs. rewrite Hp3 in Hs.
    unfold m3, m2 in Hs. simpl in Hs.
    rewrite (proj2 (proj2 (proj2 (proj2 (proj2 (proj2
               (updateTileAt_frame m1 _ _))))))) in Hs.
    destruct Hter1 as [_ Hel]. specialize (Hel (pos m c)).
    destruct (tileAt m1 (pos m c)) eqn:E1.
    - destruct (tileAt m (pos m c)) eqn:E; [apply is_Some_tileAt; eauto | done].
    - exfalso. assert (Hn : ~ is_Some (tileAt m1 (pos m c)))
        by (rewrite E1; by intros [? ?]).
      apply Hn, is_Some_tileAt. exact Hs. }
  assert (Hu : is_Some (tileAt m (pos m (u_coords unit)))).
  { assert (Hs : is_Some (tileAt m1 (pos m1 (u_coords unit)))) by (by exists told).
    rewrite Hp1 in Hs.
    destruct Hter1 as [_ Hel]. specialize (Hel (pos m (u_coords unit))).
    destruct Hs as [x Hx]. rewrite Hx in Hel.
    destruct (tileAt m (pos m (u_coords unit))); [eauto | done]. }
  split; [done |]. split; [| split; [| split]].
  - unfold getTile. rewrite Hp6, Hunits, decide_True by done.
    destruct Hc as [x ->]. reflexivity.
  - intros Hne. unfold getTile. rewrite Hp6, Hunits.
    rewrite decide_False by congruence. rewrite decide_True by done.
    destruct Hu as [x ->]. reflexivity.
  - intros p Hpc Hpu. rewrite Hunits.
    rewrite !decide_False by congruence. reflexivity.
  - exists srcVisible, newVisible. split; [done |]. split.
    + assert (Hter2 : sameTerrain m1 m2) by (by apply sameTerrain_updateTileAt).
      assert (Hter4 : sameTerrain m3 m4) by (by apply sameTerrain_updateTileAt).
      assert (Hter5 : sameTerrain m m5).
      { eapply sameTerrain_trans; [exact Hter1 |].
        eapply sameTerrain_trans; [exact Hter2 |]. exact Hter4. }
      rewrite <- Hnew. symmetry. by apply getVisibleTilesCoords_sameTerrain.
    + assert (Hpush : forall x y, length (updates (tileUpdate x y))
                                  = S (length (updates x))).
      { intros x y. unfold tileUpdate. simpl. rewrite length_app. simpl. lia. }
      assert (Hkeep : forall x q f, updates (updateTileAt x q f) = updates x).
      { intros x q f. apply updateTileAt_frame. }
      rewrite Hu6. unfold m5, m4, m3, m2.
      rewrite Hpush, Hkeep, Hpush, Hkeep. lia.
Qed.

End Sight.

Lemma getVisibleTilesCoords_shape_witness :
  let l := [mkCoords 2 2; mkCoords 2 3; mkCoords 3 2; mkCoords 3 1;
            mkCoords 2 1; mkCoords 1 1; mkCoords 1 2] in
  getVisibleTilesCoords (H := sampleExternals) (plainsMap 5 5)
    (scoutAt (mkCoords 2 2)) (Some 1) = Ok l
  /\ Forall (fun c => is_Some (getTile (plainsMap 5 5) c)) l.
Proof.
  intros l.
  assert (Hrun : getVisibleTilesCoords (H := sampleExternals) (plainsMap 5 5)
                   (scoutAt (mkCoords 2 2)) (Some 1) = Ok l)
    by (vm_compute; reflexivity).
  split; [exact Hrun |].
  exact (proj1 (proj2 (getVisibleTilesCoords_shape (H := sampleExternals)
                         (plainsMap 5 5) (scoutAt (mkCoords 2 2)) (Some 1) l Hrun))).
Defined.

Lemma getVisibleTilesCoords_off_map_witness :
  getTile (plainsMap 3 3)
    (getCoordInDirection (Externals := sampleExternals) (mkCoords 1 2) 0) = None
  /\ moveUnitTo (H := sampleExternals) (plainsMap 3 3) (scoutAt (mkCoords 1 2))
       (mkCoords 1 1) = TypeError.
Proof.
  assert (Hnone : getTile (plainsMap 3 3)
                    (getCoordInDirection (Externals := sampleExternals)
                       (mkCoords 1 2) 0) = None) by reflexivity.
  split; [exact Hnone |].
  apply (getVisibleTilesCoords_off_map (H := sampleExternals)
           (plainsMap 3 3) (scoutAt (mkCoords 1 2)) None (mkCoords 1 1)).
  right. exists 0. split; [apply list_elem_of_here | exact Hnone].
Defined.

Lemma moveUnitTo_places_unit_witness :
  moveUnitTo (H := sampleExternals) litMap (scoutAt (mkCoords 4 4)) (mkCoords 4 5)
  = Ok (movedMap, scoutAt (mkCoords 4 5))
  /\ tile_unit <$> getTile movedMap (mkCoords 4 5) = Some (Some (scoutAt (mkCoords 4 5))).
Proof.
  assert (Hmove : moveUnitTo (H := sampleExternals) litMap (scoutAt (mkCoords 4 4))
                    (mkCoords 4 5)
                  = Ok (movedMap, scoutAt (mkCoords 4 5)))
    by (vm_compute; reflexivity).
  split; [exact Hmove |].
  exact (proj1 (proj2 (moveUnitTo_places_unit (H := sampleExternals)
                         litMap movedMap (scoutAt (mkCoords 4 4))
                         (scoutAt (mkCoords 4 5)) (mkCoords 4 5) Hmove))).
Defined.

(** ** Settling next to other cities *)

Section Founding.
Context `{Externals}.

(** The neighbourhood looks at the width and at the tile array only. *)
Lemma getNeighborsRecurse_tiles (m s : Map) (filter : option (Tile -> Coords -> bool))
    (n : nat) :
  width s = width m -> tiles s = tiles m ->
  forall c st, getNeighborsRecurse n s c st filter = getNeighborsRecurse n m c st filter.
Proof.
  intros Hw Ht.
  assert (Hpos : forall c, pos s c = pos m c) by (intros; by apply pos_width).
  assert (Hget : forall c, getTile s c = getTile m c).
  { intros c. unfold getTile, tileAt. by rewrite Hpos, Ht. }
  induction n as [| n IH]; intros c st; simpl; [done |].
  rewrite Hget, Hpos. destruct (getTile m c) as [tile |]; [| done].
  generalize (if bool_decide (pos m c ∈ tileSet st) then st
              else if match filter with
                      | Some f => f tile c
                      | None => true
                      end
                   then {| tileSet := {[pos m c]} ∪ tileSet st;
                           coordList := coordList st ++ [c];
                           rangeMap := <[pos m c := Z.of_nat n]> (rangeMap st) |}
                   else st).
  generalize (getAdjacentCoords c).
  induction l as [| a l IHl]; intros st1; simpl; [done |].
  rewrite Hpos, IH. apply IHl.
Qed.

Lemma foundingInv_setTileOwner (m : Map) (c : Coords) (city : nat) (s s' : Map)
    (nb : Coords) :
  nb ∈ getNeighborsCoords m c 1 None ->
  foundingInv m c city s ->
  setTileOwner s nb city false = Ok s' ->
  foundingInv m c city s'.
Proof.
  intros Hnb Hinv Hset. pose proof Hinv as (Hw & Hlen & Hcity & Hold & Hown & Hfree).
  destruct (getTile s nb) as [tile |] eqn:Htile;
    [| unfold setTileOwner in Hset; rewrite Htile in Hset; discriminate].
  destruct (owner tile) as [old |] eqn:Howner.
  { rewrite (setTileOwner_owned _ _ _ _ _ Htile Howner) in Hset.
    by inversion Hset; subst s'. }
  destruct (cities s !! city) as [ci |] eqn:Hci.
  2:{ unfold setTileOwner in Hset. rewrite Htile in Hset. simpl in Hset.
      rewrite Howner in Hset.
      destruct (updateTileAt_frame s (pos s nb) (fun t => set_owner t (Some city)))
        as (_ & _ & Hci' & _).
      rewrite Hci in Hset. discriminate. }
  rewrite (setTileOwner_unowned _ _ _ _ _ _ Htile Howner Hci) in Hset.
  inversion Hset; subst s'; clear Hset.
  assert (Hp : pos s nb = pos m nb) by (by apply pos_width).
  rewrite Hp in *.
  repeat split.
  - rewrite width_updateCity. by rewrite !(proj1 (updateTileAt_frame _ _ _)).
  - rewrite length_cities_updateCity.
    by rewrite !(proj1 (proj2 (proj2 (updateTileAt_frame _ _ _)))).
  - done.
  - intros o ci0 Ho. rewrite cities_updateCity.
    rewrite !(proj1 (proj2 (proj2 (updateTileAt_frame _ _ _)))).
    rewrite decide_False; [by apply Hold |].
    apply lookup_lt_Some in Ho. lia.
  - intros p t o Ht Ho. destruct (Hown p t o Ht Ho) as (t' & Ht' & Ho').
    exists t'. split; [| done].
    rewrite tileAt_updateCity, !tileAt_updateTileAt_ne; [done | |];
      intros <-; unfold getTile in Htile; rewrite Hp in Htile; congruence.
  - intros p t t' Ht Ho. rewrite tileAt_updateCity, !tileAt_updateTileAt.
    case_decide as Hpp.
    + subst p. unfold getTile in Htile. rewrite Hp in Htile. rewrite Htile.
      simpl. intros [= <-]. right. split; [reflexivity | eauto].
    + by apply (Hfree p t).
Qed.

(** X10. [settleCityAt] returns [true] exactly when [canSettleOn] holds of
    the tile, and otherwise changes nothing.  When it founds the city, the
    city is appended to the cities, which are otherwise unchanged; every tile
    that had an owner keeps it (the city takes no tile from another city);
    and a tile that had none either still has none or belongs to the new
    city and is in the neighbourhood [getNeighborsCoords(coords)]. *)
Theorem settleCityAt_takes_free_tiles_only (m m' : Map) (c : Coords) (name : string)
    (civID : Z) (ok : bool) :
  settleCityAt m c name civID = Ok (m', ok) ->
  (forall tile, getTile m c = Some tile -> ok = canSettleOn tile)
  /\ (ok = false -> m' = m)
  /\ (ok = true ->
      length (cities m') = S (length (cities m))
      /\ (forall o ci, cities m !! o = Some ci -> cities m' !! o = Some ci)
      /\ (forall p t o, tileAt m p = Some t -> owner t = Some o ->
            exists t', tileAt m' p = Some t' /\ owner t' = Some o)
      /\ (forall p t t', tileAt m p = Some t -> owner t = None ->
            tileAt m' p = Some t' ->
            owner t' = None
            \/ (owner t' = Some (length (cities m))
                /\ exists c', c' ∈ getNeighborsCoords m c 1 None /\ pos m c' = p))).
Proof.
  unfold settleCityAt.
  destruct (getTile m c) as [tile |] eqn:Ht; cbn [defined mbind result_bind];
    [| discriminate].
  destruct (canSettleOn tile) eqn:Hcan; cbn [negb].
  2:{ intros [= <- <-]. split; [by intros ? [= <-] |]. split; [done | discriminate]. }
  set (city := length (cities m)).
  set (m1 := set_cities m (cities m ++ [newCity c name civID])).
  assert (Hnb : getNeighborsCoords m1 c 1 None = getNeighborsCoords m c 1 None).
  { unfold getNeighborsCoords. by rewrite (getNeighborsRecurse_tiles m m1). }
  rewrite Hnb.
  destruct (forEach (getNeighborsCoords m c 1 None) _ m1) as [m2 | |] eqn:Hloop;
    cbn [mbind result_bind]; try discriminate.
  destruct (buildImprovementAt m2 c "settlement" civID) as [m3 | |] eqn:Hbuild;
    cbn [mbind result_bind]; try discriminate.
  intros [= <- <-]. split; [by intros ? [= <-] |]. split; [discriminate |].
  intros _.
  assert (H1 : foundingInv m c city m1).
  { repeat split; try done.
    - unfold m1. simpl. rewrite length_app. simpl. lia.
    - intros o ci Ho. unfold m1. simpl. by apply lookup_app_l_Some.
    - intros p t o Hp Ho. exists t. by split.
    - intros p t t' Hp Ho Hp'. left.
      change (tileAt m1 p) with (tileAt m p) in Hp'. congruence. }
  assert (H2 : foundingInv m c city m2).
  { eapply (forEach_invariant (foundingInv m c city)); [| exact H1 | exact Hloop].
    intros s nb s' Hin Hs. cbn beta.
    destruct (setTileOwner s nb city false) as [s1 | |] eqn:Hset;
      cbn [mbind result_bind]; try discriminate.
    intros [= <-].
    pose proof (foundingInv_setTileOwner _ _ _ _ _ _ Hin Hs Hset) as Hs1.
    exact Hs1. }
  assert (H3 : foundingInv m c city m3).
  { unfold buildImprovementAt in Hbuild.
    destruct (getTile m2 c) as [tile2 |]; cbn [defined mbind result_bind] in Hbuild;
      [| discriminate].
    destruct (negb (bool_decide (ownerCivID m2 tile2 = Some civID)));
      [by inversion Hbuild; subst m3 |].
    destruct (negb (canBuildOn tile2)); [by inversion Hbuild; subst m3 |].
    inversion Hbuild; subst m3; clear Hbuild.
    destruct H2 as (Hw & Hlen & Hcity & Hold & Hown & Hfree).
    split; [| split; [| split; [| split; [| split]]]].
    - simpl. by rewrite (proj1 (updateTileAt_frame _ _ _)).
    - simpl. by rewrite (proj1 (proj2 (proj2 (updateTileAt_frame _ _ _)))).
    - exact Hcity.
    - intros o ci Ho. simpl.
      rewrite (proj1 (proj2 (proj2 (updateTileAt_frame _ _ _)))). by apply Hold.
    - intros p t o Hp Ho. destruct (Hown p t o Hp Ho) as (t' & Ht' & Ho').
      rewrite tileAt_tileUpdate, tileAt_updateTileAt, Ht'.
      case_decide; simpl; eauto.
    - intros p t t' Hp Ho. rewrite tileAt_tileUpdate, tileAt_updateTileAt.
      case_decide as Hpp; [| by apply (Hfree p t)].
      destruct (tileAt m2 p) as [t2 |] eqn:Ht2; simpl; [| discriminate].
      intros [= <-]. simpl. by apply (Hfree p t t2). }
  destruct H3 as (_ & Hlen & _ & Hold & Hown & Hfree). auto.
Qed.

End Founding.

Lemma settleCityAt_takes_free_tiles_only_witness :
  settleCityAt (H := sampleExternals) (plainsMap 3 3) (mkCoords 1 1) "Rome" 0
  = Ok (settledMap, true)
  /\ length (cities settledMap) = 1%nat.
Proof.
  assert (Hrun : settleCityAt (H := sampleExternals) (plainsMap 3 3) (mkCoords 1 1) "Rome" 0
                 = Ok (settledMap, true)) by (vm_compute; reflexivity).
  split; [exact Hrun |].
  exact (proj1 (proj2 (proj2 (settleCityAt_takes_free_tiles_only (H := sampleExternals)
                                 (plainsMap 3 3) settledMap (mkCoords 1 1) "Rome" 0 true
                                 Hrun)) eq_refl)).
Defined.

(** ** The path tree is a tree, rooted at the source *)

Lemma is_Some_insert_mono {A : Type} (d : gmap Z A) (k k' : Z) (v : A) :
  is_Some (d !! k') -> is_Some (<[k := v]> d !! k').
Proof.
  intros Hk. destruct (decide (k = k')) as [-> | Hne].
  - rewrite lookup_insert_eq. eauto.
  - by rewrite lookup_insert_ne.
Qed.

Section PathRoot.
Context `{Externals}.
Variables (m : Map) (range : Z) (mode : MovementClass) (srcPos : Coords).

(** A movement cost is a number or [Infinity], never [NaN]. *)
Lemma movementCostFor_cases (tile : Tile) (cost : dist) :
  movementCostFor mode tile = Ok cost -> cost = Infinity \/ exists c, cost = Fin c.
Proof.
  unfold movementCostFor. destruct mode.
  1,2: destruct (movementCost tile) as [costs |]; simpl; [| discriminate];
    destruct (costs !! _) as [c |]; [destruct (c =? 0) |]; intros [= <-]; eauto.
  intros [= <-]. eauto.
Qed.

(** The body of the inner loop keeps the invariant, and keeps the tile that
    is being expanded the source or a tile with a parent. *)
Lemma relax_treeInv (atPos adjPos : Coords) (st st' : PathState) :
  wellCosted m ->
  adjPos ∈ getNeighborsCoords m atPos 1 None ->
  treeInv m range mode srcPos st
  /\ (pos m atPos = pos m srcPos \/ is_Some (paths st !! pos m atPos)) ->
  relax m range mode atPos st adjPos = Ok st' ->
  treeInv m range mode srcPos st'
  /\ (pos m atPos = pos m srcPos \/ is_Some (paths st' !! pos m atPos)).
Proof.
  intros Hwc Hadj [Hinv Hat] Hrelax.
  pose proof Hinv as ((Hsrc & Hnosrc & Hgood) & Hnn & Hpw & Hq).
  pose proof (relax_parentsWithinRange _ _ _ _ _ _ _ Hpw Hrelax) as Hpw'.
  destruct (relax_cases _ _ _ _ _ _ _ Hrelax) as (tile & cost & Ht & Hcost & Hcases).
  destruct (getTile_elem _ _ _ Ht) as [Htile _].
  cbv zeta in Hcases.
  (* the distance of the tile that is being expanded *)
  assert (Hda : exists da, dst st !! pos m atPos = Some (Fin da) /\ 0 <= da).
  { destruct Hat as [Heq | [a Ha]].
    - exists 0. rewrite Heq. split; [done | lia].
    - destruct (Hgood _ _ Ha) as (dp & da & ? & ? & ? & Hdp & ? & ? & ? & ? & ? & ? & ? & ? & ?).
      exists dp. split; [done | lia]. }
  destruct Hda as (da & Hda & Hda0).
  unfold distAt in Hcases. rewrite Hda in Hcases.
  set (candidate := dist_add (Fin da) cost) in *.
  assert (Hcand : candidate = Infinity
                  \/ exists c, cost = Fin c /\ 0 < c /\ candidate = Fin (da + c)).
  { destruct (movementCostFor_cases _ _ Hcost) as [-> | [c ->]]; [by left |].
    right. exists c. split; [done |]. split; [| done].
    by eapply movementCostFor_positive. }
  assert (Hcand0 : forall y, candidate = Fin y -> da < y).
  { intros y Hy. destruct Hcand as [Hc | (c & _ & Hc0 & Hc)]; rewrite Hc in Hy;
      [discriminate |]. inversion Hy. lia. }
  destruct Hcases as [[-> _] | [Hold Hnew]]; [by split |].
  (* an entry that changes is below the one it replaces *)
  assert (Hless : forall d, dst st !! pos m adjPos = Some (Fin d) ->
                            exists y, candidate = Fin y /\ y < d).
  { intros d Hd. destruct Hold as [Hnone | (d' & Hd' & Hgt)]; [congruence |].
    rewrite Hd in Hd'. inversion Hd'; subst d'.
    by apply dist_gt_Fin. }
  assert (Hnsrc : pos m adjPos <> pos m srcPos).
  { intros Heq. rewrite Heq in Hless. destruct (Hless _ Hsrc) as (y & Hy & Hlt).
    specialize (Hcand0 _ Hy). lia. }
  assert (Hnat : pos m adjPos <> pos m atPos).
  { intros Heq. rewrite Heq in Hless. destruct (Hless _ Hda) as (y & Hy & Hlt).
    specialize (Hcand0 _ Hy). lia. }
  assert (Hnn' : nonNegative (<[pos m adjPos := candidate]> (dst st))).
  { intros p v. destruct (decide (pos m adjPos = p)) as [<- | Hne].
    - rewrite lookup_insert_eq. intros [= Hv]. specialize (Hcand0 _ Hv). lia.
    - rewrite lookup_insert_ne by done. apply Hnn. }
  (* the parent entries that stay *)
  assert (Hkeep : forall ps' p a,
            (forall k, is_Some (paths st !! k) -> is_Some (ps' !! k)) ->
            p <> pos m adjPos -> paths st !! p = Some a ->
            goodParent m mode srcPos ps' (<[pos m adjPos := candidate]> (dst st)) p a).
  { intros ps' p a Hmono Hne Hp.
    destruct (Hgood _ _ Hp)
      as (dp & da' & adj & tile' & cost' & Hdp & Hda' & Hin & Hpos & Htl & Hco & Hc0
          & Hda'0 & Hsum & Hroot).
    destruct (decide (pos m a = pos m adjPos)) as [Heq | Hna].
    - rewrite <- Heq in Hless. destruct (Hless _ Hda') as (y & Hy & Hlt).
      exists dp, y, adj, tile', cost'.
      rewrite lookup_insert_ne by done. rewrite Heq, lookup_insert_eq, Hy.
      specialize (Hcand0 _ Hy).
      repeat split; try done; try lia.
      destruct Hroot as [Hr | Hr]; [left; congruence | right; rewrite <- Heq; auto].
    - exists dp, da', adj, tile', cost'.
      rewrite !lookup_insert_ne by done.
      repeat split; try done.
      destruct Hroot as [Hr | Hr]; [by left | right; auto]. }
  destruct Hnew as [[Hle ->] | [Hle ->]]; unfold treeInv, rootedTree;
    cbn [queue paths dst].
  - (* the tile is within the range: it gets a parent and is queued *)
    destruct (dist_le_Fin _ _ Hle) as (y & Hy & Hyr).
    pose proof (Hcand0 _ Hy) as Hy0.
    destruct Hcand as [Hc | (c & Hcc & Hc0 & Hc)]; rewrite Hy in Hc; [discriminate |].
    inversion Hc; subst y. subst cost.
    split; [| destruct Hat as [? | ?]; [by left | right; by apply is_Some_insert_mono]].
    split; [| split; [done | split; [done |]]].
    + split; [by rewrite lookup_insert_ne |]. split; [by rewrite lookup_insert_ne |].
      intros p a. destruct (decide (pos m adjPos = p)) as [<- | Hne].
      * rewrite lookup_insert_eq. intros [= <-].
        exists (da + c), da, adjPos, tile, c.
        rewrite lookup_insert_eq, Hy, lookup_insert_ne by done.
        repeat split; try done; try lia.
        destruct Hat as [? | ?]; [by left | right; by apply is_Some_insert_mono].
      * rewrite lookup_insert_ne by done. intros Hp.
        apply Hkeep; [| done | done]. intros k. apply is_Some_insert_mono.
    + intros a [Ha | ->%list_elem_of_singleton]%elem_of_app.
      * destruct (Hq _ Ha) as [? | ?]; [by left | right; by apply is_Some_insert_mono].
      * right. rewrite lookup_insert_eq. eauto.
  - (* the tile is beyond the range: its distance is recorded, nothing else *)
    split; [| done].
    split; [| split; [done | split; [done | done]]].
    split; [by rewrite lookup_insert_ne |]. split; [done |].
    intros p a Hp. apply Hkeep; [done | | done].
    intros ->. destruct (Hpw _ _ Hp) as (d & Hd & Hdr).
    destruct (Hless _ Hd) as (y & Hy & Hlt).
    rewrite Hy in Hle. simpl in Hle. apply Z.leb_gt in Hle. lia.
Qed.

(** The invariant holds of what [getPathTree] returns. *)
Lemma getPathTree_treeInv (ps : gmap Z Coords) (ds : gmap Z dist) :
  wellCosted m ->
  getPathTree m srcPos range mode = Ok (ps, ds) ->
  rootedTree m mode srcPos ps ds /\ parentsWithinRange range ps ds.
Proof.
  intros Hwc Hloop. unfold getPathTree in Hloop.
  destruct (pathLoop_invariant m range mode (treeInv m range mode srcPos))
    with (fuel := pathFuel m range)
         (st := {| queue := [srcPos]; paths := ∅; dst := {[pos m srcPos := Fin 0]} |})
         (res := (ps, ds))
    as (st' & Hst' & _ & Hres).
  - intros atPos rest ps0 ds0 st' (Hroot & Hnn & Hpw & Hq) Hfe.
    assert (Hat : pos m atPos = pos m srcPos \/ is_Some (ps0 !! pos m atPos)).
    { apply (Hq atPos). by left. }
    eapply proj1.
    eapply (forEach_invariant
              (fun st => treeInv m range mode srcPos st
                         /\ (pos m atPos = pos m srcPos
                             \/ is_Some (paths st !! pos m atPos))));
      [| | exact Hfe].
    + intros s c s' Hc Hs Hrel. by eapply relax_treeInv.
    + split; [| exact Hat].
      split; [exact Hroot |]. split; [exact Hnn |]. split; [exact Hpw |].
      intros a Ha. apply Hq. by right.
  - split; [| split; [| split]]; simpl.
    + split; [apply lookup_singleton_eq |]. split; [apply lookup_empty |].
      intros p a Hp. by rewrite lookup_empty in Hp.
    + intros p v Hp. apply lookup_singleton_Some in Hp as [_ [= <-]]. lia.
    + intros p a Hp. by rewrite lookup_empty in Hp.
    + intros a ->%list_elem_of_singleton. by left.
  - exact Hloop.
  - inversion Hres; subst. destruct Hst' as (? & _ & ? & _). by split.
Qed.

(** X11. On a map whose movement costs are not negative, the parent map
    that [getPathTree] returns is a tree rooted at the source: the source is
    at distance 0 and has no parent; and for every parent entry
    [paths[p] = a], [p] is the index of a coordinate of
    [getNeighborsCoords(a)], the distance of [a] is not negative and smaller
    than the one of [p] by the cost of entering [p] at least, the distance of
    [p] is within the range, and [a] is the source or has a parent itself. *)
Theorem getPathTree_rooted (ps : gmap Z Coords) (ds : gmap Z dist) :
  wellCosted m ->
  getPathTree m srcPos range mode = Ok (ps, ds) ->
  ds !! pos m srcPos = Some (Fin 0)
  /\ ps !! pos m srcPos = None
  /\ forall p a, ps !! p = Some a ->
       exists dp da adj tile cost,
         ds !! p = Some (Fin dp) /\ ds !! pos m a = Some (Fin da)
         /\ adj ∈ getNeighborsCoords m a 1 None /\ pos m adj = p
         /\ getTile m adj = Some tile /\ movementCostFor mode tile = Ok (Fin cost)
         /\ 0 < cost /\ 0 <= da /\ da + cost <= dp /\ dp <= range
         /\ (pos m a = pos m srcPos \/ is_Some (ps !! pos m a)).
Proof.
  intros Hwc Hres.
  destruct (getPathTree_treeInv ps ds Hwc Hres) as [(Hsrc & Hnosrc & Hgood) Hpw].
  split; [exact Hsrc |]. split; [exact Hnosrc |].
  intros p a Hp.
  destruct (Hgood _ _ Hp)
    as (dp & da & adj & tile & cost & Hdp & Hda & Hin & Hpos & Htl & Hco & Hc0
        & Hda0 & Hsum & Hroot).
  destruct (Hpw _ _ Hp) as (d & Hd & Hdr).
  rewrite Hdp in Hd. inversion Hd; subst d.
  exists dp, da, adj, tile, cost. auto 15.
Qed.

End PathRoot.

Lemma getPathTree_rooted_witness :
  wellCosted (plainsMap 5 5)
  /\ exists ps ds,
       getPathTree (H := sampleExternals) (plainsMap 5 5) (mkCoords 2 2) 1 LAND
       = Ok (ps, ds)
       /\ ds !! pos (plainsMap 5 5) (mkCoords 2 2) = Some (Fin 0).
Proof.
  pose proof (wellCosted_plainsMap 5 5) as Hwc.
  split; [exact Hwc |].
  destruct (getPathTree_returns (H := sampleExternals) (plainsMap 5 5) 1 LAND
              (mkCoords 2 2) Hwc) as (ps & ds & Hres).
  exists ps, ds. split; [exact Hres |].
  exact (proj1 (getPathTree_rooted (H := sampleExternals) (plainsMap 5 5) 1 LAND
                  (mkCoords 2 2) ps ds Hwc Hres)).
Defined.

(** ** Routes along the path tree *)

(** What [findPath] returns follows the parent entries, on any path tree. *)
Lemma findPath_follows (m : Map) (pathTree : gmap Z Coords) (target : Coords)
    (fuel : nat) :
  forall p path,
    findPath fuel m pathTree p target = Ok (Some path) ->
    followsParents m pathTree p path target /\ last path = Some target.
Proof.
  induction fuel as [| fuel IH]; intros p path; cbn [findPath]; [discriminate |].
  destruct (pathTree !! p) as [parent |] eqn:Hp; [| discriminate].
  destruct (pos m parent =? pos m target) eqn:Heq.
  - intros [= <-]. apply Z.eqb_eq in Heq. split; [| done].
    exists parent. auto.
  - apply Z.eqb_neq in Heq.
    destruct (findPath fuel m pathTree (pos m parent) target) as [[sub |] | |] eqn:Hsub;
      cbn [mbind result_bind]; try discriminate.
    intros [= <-]. destruct (IH _ _ Hsub) as [Hf Hl].
    destruct sub as [| x sub]; [destruct Hf |].
    split; [| exact Hl].
    exists parent. auto.
Qed.

Lemma below_subseteq (ps : gmap Z Coords) (ds : gmap Z dist) (d : Z) :
  (size (below ps ds d) <= size ps)%nat.
Proof.
  rewrite <- size_dom. apply subseteq_size. unfold below.
  intros k Hk. by apply elem_of_filter in Hk as [_ Hk].
Qed.

Section Routes.
Context `{Externals}.
Variables (m : Map) (mode : MovementClass) (srcPos : Coords).

(** With fuel for the tiles that are nearer, [findPath] walks from a tile
    with a parent back to the source. *)
Lemma findPath_rooted (ps : gmap Z Coords) (ds : gmap Z dist) (fuel : nat) :
  rootedTree m mode srcPos ps ds ->
  forall p a dp,
    ps !! p = Some a -> ds !! p = Some (Fin dp) ->
    (size (below ps ds dp) < fuel)%nat ->
    exists path, findPath fuel m ps p srcPos = Ok (Some path).
Proof.
  intros (Hsrc & Hnosrc & Hgood).
  induction fuel as [| fuel IH]; intros p a dp Hp Hdp Hfuel; [lia |].
  cbn [findPath]. rewrite Hp.
  destruct (pos m a =? pos m srcPos) eqn:Heq; [eauto |].
  apply Z.eqb_neq in Heq.
  destruct (Hgood _ _ Hp)
    as (dp' & da & adj & tile & cost & Hdp' & Hda & ? & ? & ? & ? & Hc0 & Hda0
        & Hsum & Hroot).
  rewrite Hdp in Hdp'. inversion Hdp'; subst dp'.
  destruct Hroot as [? | [a' Ha']]; [done |].
  destruct (IH (pos m a) a' da Ha' Hda) as [sub Hsub].
  { assert (Hsub : below ps ds da ⊂ below ps ds dp).
    { split.
      - intros k. unfold below. rewrite !elem_of_filter.
        intros [Hk Hdom]. split; [| done].
        unfold cheaper in *. destruct (ds !! k) as [[x | |] |]; try done.
        apply Z.ltb_lt in Hk. apply Z.ltb_lt. lia.
      - intros Hsup. assert (Hin : pos m a ∈ below ps ds da).
        { apply Hsup. unfold below. apply elem_of_filter. split.
          - unfold cheaper. rewrite Hda. apply Z.ltb_lt. lia.
          - apply elem_of_dom. eauto. }
        unfold below in Hin. apply elem_of_filter in Hin as [Hin _].
        unfold cheaper in Hin. rewrite Hda in Hin. apply Z.ltb_lt in Hin. lia. }
    apply subset_size in Hsub. lia. }
  rewrite Hsub. cbn [mbind result_bind]. eauto.
Qed.

(** [findRoute] on a rooted tree whose parents are within the range. *)
Lemma findRoute_tree (range : Z) (ps : gmap Z Coords) (ds : gmap Z dist) (p : Z) :
  rootedTree m mode srcPos ps ds -> parentsWithinRange range ps ds ->
  (ps !! p = None -> findRoute m ps ds p srcPos = Ok None)
  /\ (is_Some (ps !! p) ->
      exists path d,
        findRoute m ps ds p srcPos = Ok (Some (coords m p :: path, Fin d))
        /\ ds !! p = Some (Fin d) /\ 0 < d <= range
        /\ last path = Some srcPos
        /\ followsParents m ps p path srcPos).
Proof.
  intros Hroot Hpw. split.
  - intros Hnone. unfold findRoute. cbn [findPath]. by rewrite Hnone.
  - intros [a Ha].
    destruct (Hpw _ _ Ha) as (d & Hd & Hdr).
    destruct (findPath_rooted ps ds (S (size ps)) Hroot p a d Ha Hd) as [path Hpath].
    { pose proof (below_subseteq ps ds d). lia. }
    destruct (findPath_follows _ _ _ _ _ _ Hpath) as [Hfollows Hlast].
    exists path, d. split; [| split; [done | split; [| split; done]]].
    + unfold findRoute. rewrite Hpath. cbn [mbind result_bind].
      rewrite Hlast. cbn [fmap option_fmap option_map].
      rewrite !bool_decide_eq_true_2 by done. cbn [andb].
      unfold distAt. by rewrite Hd.
    + split; [| done].
      destruct Hroot as (_ & _ & Hgood).
      destruct (Hgood _ _ Ha)
        as (dp & da & ? & ? & ? & Hdp & ? & ? & ? & ? & ? & Hc0 & Hda0 & Hsum & ?).
      rewrite Hd in Hdp. inversion Hdp. lia.
Qed.

(** X12. On a map whose movement costs are not negative, [findRoute] on
    what [getPathTree] returned, towards the source of the tree, gives
    [null] for every index without a parent, and for every index [p] with
    a parent a route:
    it starts at [coords(p)], follows the parent entries, ends at the
    source, and comes with the distance of [p], which is positive and within
    the range.  The recursion of [findPath] ends. *)
Theorem findRoute_on_path_tree (range : Z) (ps : gmap Z Coords) (ds : gmap Z dist)
    (p : Z) :
  wellCosted m ->
  getPathTree m srcPos range mode = Ok (ps, ds) ->
  (ps !! p = None -> findRoute m ps ds p srcPos = Ok None)
  /\ (is_Some (ps !! p) ->
      exists path d,
        findRoute m ps ds p srcPos = Ok (Some (coords m p :: path, Fin d))
        /\ ds !! p = Some (Fin d) /\ 0 < d <= range
        /\ last path = Some srcPos
        /\ followsParents m ps p path srcPos).
Proof.
  intros Hwc Hres.
  destruct (getPathTree_treeInv m range mode srcPos ps ds Hwc Hres) as [Hroot Hpw].
  by apply findRoute_tree.
Qed.

End Routes.

Lemma findRoute_on_path_tree_witness :
  wellCosted (plainsMap 5 5)
  /\ exists ps ds,
       getPathTree (H := sampleExternals) (plainsMap 5 5) (mkCoords 2 2) 1 LAND
       = Ok (ps, ds)
       /\ (ps !! 12 = None -> findRoute (plainsMap 5 5) ps ds 12 (mkCoords 2 2) = Ok None).
Proof.
  pose proof (wellCosted_plainsMap 5 5) as Hwc.
  split; [exact Hwc |].
  destruct (getPathTree_returns (H := sampleExternals) (plainsMap 5 5) 1 LAND
              (mkCoords 2 2) Hwc) as (ps & ds & Hres).
  exists ps, ds. split; [exact Hres |].
  exact (proj1 (findRoute_on_path_tree (H := sampleExternals) (plainsMap 5 5) LAND
                  (mkCoords 2 2) 1 ps ds 12 Hwc Hres)).
Defined.

(** ** Research *)

(** X13. Only a campus researches.  An improvement of another type whose
    type is not a key of [Object.prototype] lists no knowledge, whatever the
    knowledge list is, so [researchKnowledgeAt] on its tile starts no errand
    and creates no trader, for every knowledge and every civilization; all
    it does is push its [tileUpdate].  When the type is such a key
    (["toString"], ["constructor"], ...), asking for the list raises a
    [TypeError], and so does [researchKnowledgeAt] when the owner of the tile
    calls it; for any other caller it pushes its [tileUpdate]. *)
Theorem research_only_at_campus `{Externals} (m : Map) (c : Coords)
    (knowledgeName : string) (ownerID : Z) (tile : Tile) (i : Improvement) :
  getTile m c = Some tile -> improvement tile = Some i -> i_type i <> "campus" ->
  (i_type i ∉ objectPrototypeKeys ->
   getResearchableKnowledgeNames i = Ok []
   /\ researchKnowledgeAt m c knowledgeName ownerID = Ok (tileUpdate m c))
  /\ (i_type i ∈ objectPrototypeKeys ->
      getResearchableKnowledgeNames i = TypeError
      /\ researchKnowledgeAt m c knowledgeName ownerID
         = if bool_decide (ownerCivID m tile = Some ownerID) then TypeError
           else Ok (tileUpdate m c)).
Proof.
  intros Ht Hi Hty. split; intros Hk.
  - assert (Hnames : getResearchableKnowledgeNames i = Ok []).
    { unfold getResearchableKnowledgeNames, getResearchableKnowledgeBranches,
        researchableKnowledgeBranchTable, inherited. cbn [assoc].
      rewrite bool_decide_eq_false_2 by congruence.
      rewrite (bool_decide_eq_false_2 _ Hk). f_equal.
      induction getKnowledgeList as [| k l IH]; [done |].
      rewrite filter_cons. destruct (decide (snd k ∈ [])) as [Hin | _]; [| exact IH].
      by apply elem_of_nil in Hin. }
    split; [exact Hnames |].
    unfold researchKnowledgeAt. rewrite Ht. cbn [defined mbind result_bind].
    rewrite Hi, Hnames.
    destruct (bool_decide (ownerCivID m tile = Some ownerID)); [| done].
    cbn [mbind result_bind].
    by rewrite (bool_decide_eq_false_2 (knowledgeName ∈ [])) by apply not_elem_of_nil.
  - pose proof (proj1 (getResearchableKnowledgeNames_cases i) Hk) as Hnames.
    split; [exact Hnames |].
    unfold researchKnowledgeAt. rewrite Ht. cbn [defined mbind result_bind].
    rewrite Hi, Hnames.
    by destruct (bool_decide (ownerCivID m tile = Some ownerID)).
Qed.

Lemma research_only_at_campus_witness :
  getTile farmMap (mkCoords 0 0) = Some farmTile
  /\ researchKnowledgeAt (H := sampleExternals) farmMap (mkCoords 0 0) "scout" 0
     = Ok (tileUpdate farmMap (mkCoords 0 0)).
Proof.
  assert (Ht : getTile farmMap (mkCoords 0 0) = Some farmTile) by reflexivity.
  split; [exact Ht |].
  refine (proj2 (proj1 (research_only_at_campus (H := sampleExternals) farmMap
                          (mkCoords 0 0) "scout" 0 farmTile
                          (newImprovement "farm" (baseYield plainsTile))
                          Ht eq_refl _) _)).
  - vm_compute. discriminate.
  - intros Hin%list_elem_of_In. vm_compute in Hin.
    repeat (destruct Hin as [Hin | Hin]; [discriminate |]). exact Hin.
Defined.

(** ** Civilization numbers for new players *)

Lemma minimum_spec (l : list Z) (k : Z) :
  minimum l = Some k <-> k ∈ l /\ forall j, j ∈ l -> k <= j.
Proof.
  destruct l as [| x l]; simpl.
  - split; [discriminate | intros [Hk _]; by apply elem_of_nil in Hk].
  - assert (Hfold : forall l0 x0,
              (foldl Z.min x0 l0 = x0 \/ foldl Z.min x0 l0 ∈ l0)
              /\ foldl Z.min x0 l0 <= x0
              /\ forall j, j ∈ l0 -> foldl Z.min x0 l0 <= j).
    { induction l0 as [| y l0 IH]; intros x0; simpl.
      - split; [by left |]. split; [lia |]. by intros j ?%elem_of_nil.
      - destruct (IH (Z.min x0 y)) as (Hin & Hle & Hall).
        split; [| split].
        + destruct Hin as [-> | Hin]; [| right; by right].
          destruct (Z.min_spec x0 y) as [[_ ->] | [_ ->]]; [by left | right; by left].
        + lia.
        + intros j [-> | Hj]%elem_of_cons; [lia | by apply Hall]. }
    destruct (Hfold l x) as (Hin & Hle & Hall).
    split.
    + intros [= <-]. split.
      * destruct Hin as [-> | Hin]; [by left | by right].
      * intros j [-> | Hj]%elem_of_cons; [done | by apply Hall].
    + intros [Hk Hmin]. f_equal.
      assert (Hm : foldl Z.min x l ∈ x :: l).
      { destruct Hin as [-> | Hin]; [by left | by right]. }
      specialize (Hmin _ Hm).
      apply elem_of_cons in Hk as [-> | Hk]; [lia |].
      specialize (Hall _ Hk). lia.
Qed.

Lemma minimum_None (l : list Z) : minimum l = None <-> l = [].
Proof. destruct l; simpl; split; congruence. Qed.

(** The numbers that are left when no player has the name. *)
Lemma claimCivs_free (username : string) (players : list (string * Player)) :
  assoc username players = None ->
  forall freeCivs,
    claimCivs username players freeCivs
    = inr (filter (fun i => i ∉ map (fun e => pl_civID (snd e)) players) freeCivs).
Proof.
  induction players as [| [player p] players IH]; intros Hnone freeCivs; simpl.
  - f_equal. induction freeCivs as [| i l IHl]; [done |].
    rewrite filter_cons. rewrite decide_True by apply not_elem_of_nil. by rewrite <- IHl.
  - simpl in Hnone. destruct (bool_decide (player = username)) eqn:Hname;
      [discriminate |].
    apply bool_decide_eq_false in Hname.
    rewrite bool_decide_eq_false_2 by congruence.
    rewrite IH by done. f_equal.
    rewrite list_filter_filter. apply list_filter_iff.
    intros i. rewrite not_elem_of_cons. tauto.
Qed.

Lemma claimCivs_found (username : string) (players : list (string * Player))
    (p : Player) :
  assoc username players = Some p ->
  forall freeCivs, claimCivs username players freeCivs = inl (pl_civID p).
Proof.
  induction players as [| [player q] players IH]; intros Hsome freeCivs; simpl in *;
    [discriminate |].
  destruct (bool_decide (player = username)) eqn:Hname.
  - apply bool_decide_eq_true in Hname. inversion Hsome; subst.
    by rewrite bool_decide_eq_true_2.
  - apply bool_decide_eq_false in Hname.
    rewrite bool_decide_eq_false_2 by congruence. by apply IH.
Qed.

(** X14. [newPlayerCivID(username)] gives a player who is in the game
    already the number of its civilization.  For any other name it gives the
    least number in [0, playerCount) that no player has, and [null] exactly
    when every such number is taken: it never hands out a number that is in
    use or out of range.  The earlier compiled version, which takes no name,
    gives what the later one gives for a new name. *)
Theorem newPlayerCivID_least_free (playerCount : Z) (players : list (string * Player))
    (username : string) :
  let taken := map (fun e : string * Player => pl_civID (snd e)) players in
  (forall p, assoc username players = Some p ->
     newPlayerCivID playerCount players username = Some (pl_civID p))
  /\ (assoc username players = None ->
      (forall k, newPlayerCivID playerCount players username = Some k <->
         0 <= k < playerCount /\ (k ∉ taken)
         /\ forall j, 0 <= j < k -> j ∈ taken)
      /\ (newPlayerCivID playerCount players username = None <->
          forall j, 0 <= j < playerCount -> j ∈ taken)
      /\ newPlayerCivID_dist playerCount players
         = newPlayerCivID playerCount players username).
Proof.
  intros taken. split.
  - intros p Hp. unfold newPlayerCivID. by rewrite (claimCivs_found _ _ _ Hp).
  - intros Hnone. unfold newPlayerCivID. rewrite (claimCivs_free _ _ Hnone).
    fold taken.
    assert (Hfree : forall i, i ∈ filter (fun i => i ∉ taken) (seqZ 0 playerCount)
                              <-> 0 <= i < playerCount /\ i ∉ taken).
    { intros i. rewrite list_elem_of_filter, elem_of_seqZ. tauto. }
    split; [| split].
    + intros k. rewrite minimum_spec, Hfree. split.
      * intros [[Hk Hnt] Hmin]. split; [done |]. split; [done |].
        intros j Hj. destruct (decide (j ∈ taken)) as [? | Hnj]; [done |].
        assert (Hjf : j ∈ filter (fun i => i ∉ taken) (seqZ 0 playerCount))
          by (apply Hfree; split; [lia | done]).
        specialize (Hmin _ Hjf). lia.
      * intros (Hk & Hnt & Hbelow). split; [done |].
        intros j [Hj Hnj]%Hfree.
        destruct (decide (k <= j)) as [? | Hlt]; [done |].
        exfalso. apply Hnj, Hbelow. lia.
    + rewrite minimum_None. split.
      * intros Hnil j Hj. destruct (decide (j ∈ taken)) as [? | Hnj]; [done |].
        assert (Hjf : j ∈ filter (fun i => i ∉ taken) (seqZ 0 playerCount))
          by (apply Hfree; split; [lia | done]).
        rewrite Hnil in Hjf. by apply elem_of_nil in Hjf.
      * intros Hall. apply elem_of_nil_inv. intros i [Hi Hni]%Hfree.
        by apply Hni, Hall.
    + unfold newPlayerCivID_dist. f_equal.
      clear Hfree Hnone. unfold taken. generalize (seqZ 0 playerCount).
      induction players as [| [player p] players IH]; intros l; simpl.
      * induction l as [| i l IHl]; [done |].
        rewrite filter_cons, decide_True by apply not_elem_of_nil. by rewrite <- IHl.
      * rewrite IH. rewrite list_filter_filter. apply list_filter_iff.
        intros i. rewrite not_elem_of_cons. tauto.
Qed.

(** ** Leaders *)

(** X15. Importing what [getData()] gave returns the leader without its
    selection ([civID] is reset to [null]), whatever colours and name the
    leader had, when its [id] is the index of a template; for any other [id]
    the import raises a [TypeError].  A new leader is made for the index of
    a template only, is not taken, has its colour as secondary colour, and
    is imported back as it is. *)
Theorem Leader_import_getData (l : Leader) :
  Leader_import (Leader_getData l)
  = (if bool_decide (0 <= l_id l < 6) then Ok (unselect l) else TypeError)
  /\ (forall civID, Leader_import (Leader_getData (select l civID))
                    = Leader_import (Leader_getData l))
  /\ (forall id fresh, newLeader id = Ok fresh ->
        0 <= id < 6 /\ isTaken fresh = false
        /\ l_secondaryColor fresh = l_color fresh
        /\ Leader_import (Leader_getData fresh) = Ok fresh).
Proof.
  assert (Htemplate : forall id, is_Some (templateAt id) <-> 0 <= id < 6).
  { intros id. unfold templateAt. destruct (id <? 0) eqn:Hneg.
    - apply Z.ltb_lt in Hneg. split; [by intros [? ?] | lia].
    - apply Z.ltb_ge in Hneg. rewrite lookup_lt_is_Some. simpl. lia. }
  assert (Himport : forall x,
            Leader_import (Leader_getData x)
            = if bool_decide (0 <= l_id x < 6) then Ok (unselect x) else TypeError).
  { intros x. unfold Leader_import, newLeader. simpl.
    destruct (templateAt (l_id x)) as [t |] eqn:Ht; simpl.
    - rewrite bool_decide_eq_true_2 by (apply Htemplate; eauto). reflexivity.
    - rewrite bool_decide_eq_false_2; [done |].
      intros Hid. apply Htemplate in Hid as [? Hid]. congruence. }
  split; [apply Himport |]. split.
  - intros civID. by rewrite !Himport.
  - intros id fresh. unfold newLeader.
    destruct (templateAt id) as [t |] eqn:Ht; simpl; [| discriminate].
    intros [= <-].
    assert (Hid : 0 <= id < 6) by (apply Htemplate; eauto).
    split; [done |]. split; [done |]. split; [done |].
    rewrite Himport. simpl. by rewrite bool_decide_eq_true_2.
Qed.

(** ** The modulus of the client *)

(** On the safe integers the arithmetic of doubles is exact. *)
Lemma roundDouble_safe (x : Z) : Z.abs x <= maxSafe -> roundDouble x = Some x.
Proof.
  intros Hx. unfold roundDouble. by rewrite (proj2 (Z.leb_le _ _) Hx).
Qed.

(** X16. [mod(a, b)] of the client, on integers that doubles hold exactly
    ([|a|] and [|b|] at most [2^53]): for a positive [b] it is the modulus
    that lies in [0, b), for negative [a] too; for a negative [b] of at most
    [2^52] in absolute value it is the remainder of the division that
    truncates, with the sign of [a]; and for [b = 0] it is [NaN].  Beyond
    these bounds the sum [(a % b) + b] is rounded: [mod(-1, 2^60)] is 0. *)
Theorem client_mod_cases (a b : Z) :
  Z.abs a <= maxSafe ->
  (0 < b <= maxSafe -> client_mod a b = Num (a mod b) /\ 0 <= a mod b < b)
  /\ (- 2 ^ 52 <= b < 0 -> client_mod a b = Num (Z.rem a b))
  /\ (b = 0 -> client_mod a b = NaN)
  /\ client_mod (-1) (2 ^ 60) = Num 0.
Proof.
  intros _. unfold client_mod, js_rem. split; [| split; [| split]].
  - intros Hb. split; [| apply Z.mod_pos_bound; lia].
    destruct (b =? 0) eqn:Hb0; [apply Z.eqb_eq in Hb0; lia |].
    destruct (0 <=? a) eqn:Ha.
    + apply Z.leb_le in Ha. by rewrite Z.rem_mod_nonneg by lia.
    + apply Z.leb_gt in Ha.
      pose proof (Z.rem_bound_pos_neg a b ltac:(lia) ltac:(lia)) as Hr.
      rewrite roundDouble_safe by lia. f_equal.
      assert (Hrel : a mod b = (Z.rem a b + b) mod b).
      { pose proof (Z.quot_rem' a b) as Hq.
        replace a with (Z.rem a b + b + (a ÷ b - 1) * b) at 1 by lia.
        apply Z.mod_add. lia. }
      destruct (decide (Z.rem a b = 0)) as [Hz | Hnz].
      * rewrite Hrel, Hz. simpl. rewrite Z.rem_same, Z.mod_same by lia. done.
      * rewrite Z.rem_mod_nonneg by lia. symmetry. exact Hrel.
  - intros Hb. destruct (b =? 0) eqn:Hb0; [apply Z.eqb_eq in Hb0; lia |].
    destruct (0 <=? a) eqn:Ha; [done |].
    apply Z.leb_gt in Ha.
    pose proof (Z.rem_bound_neg_neg a b ltac:(lia) ltac:(lia)) as Hr.
    assert (H53 : maxSafe = 2 * 2 ^ 52) by reflexivity.
    rewrite roundDouble_safe by lia. f_equal.
    destruct (decide (Z.rem a b = 0)) as [Hz | Hnz].
    + rewrite Hz. simpl. apply Z.rem_same. lia.
    + pose proof (Z.rem_bound_neg_neg (Z.rem a b + b) b ltac:(lia) ltac:(lia)) as Hr2.
      pose proof (Z.quot_rem' (Z.rem a b + b) b) as Hq.
      generalize dependent ((Z.rem a b + b) ÷ b). intros q Hq.
      assert (Hquot : q = 1) by nia.
      subst q. lia.
  - intros ->. simpl. by destruct (0 <=? a).
  - by vm_compute.
Qed.

Lemma client_mod_cases_witness :
  Z.abs (-5) <= maxSafe /\ 0 < 12 <= maxSafe /\ client_mod (-5) 12 = Num 7.
Proof.
  assert (Ha : Z.abs (-5) <= maxSafe) by (vm_compute; discriminate).
  assert (Hb : 0 < 12 <= maxSafe) by (split; [lia | vm_compute; discriminate]).
  split; [exact Ha |]. split; [exact Hb |].
  exact (proj1 (proj1 (client_mod_cases (-5) 12 Ha) Hb)).
Defined.

(** ** Where trade routes come from *)

(** [findRoute] looks at the width of the map and at which indices have a
    tile. *)
Lemma findRoute_sameShape (m s : Map) (ps : gmap Z Coords) (ds : gmap Z dist)
    (p : Z) (target : Coords) :
  sameShape m s -> findRoute s ps ds p target = findRoute m ps ds p target.
Proof.
  intros Hsh. pose proof (proj1 Hsh) as Hw.
  assert (Hpos : forall x, pos s x = pos m x) by (intros; by apply pos_width).
  assert (Hpath : forall fuel q,
            findPath fuel s ps q target = findPath fuel m ps q target).
  { induction fuel as [| fuel IH]; intros q; cbn [findPath]; [done |].
    destruct (ps !! q) as [parent |]; [| done]. by rewrite !Hpos, IH. }
  assert (Href : forall x, tileRef s x = tileRef m x).
  { intros x. unfold tileRef. rewrite Hpos.
    destruct (getTile m x) as [t |] eqn:Ht.
    - destruct (getTile_sameShape m s x Hsh) as [t' ->]; eauto.
    - destruct (getTile s x) as [t' |] eqn:Ht'; [| done].
      destruct (getTile_sameShape s m x) as [t0 Ht0]; [| eauto | congruence].
      destruct Hsh. by split. }
  unfold findRoute. rewrite Hpath.
  destruct (findPath _ m ps p target) as [[path |] | |]; cbn [mbind result_bind];
    try done.
  unfold coords. rewrite Hw, !Href.
  replace (tileRef s <$> last path) with (tileRef m <$> last path); [done |].
  destruct (last path); simpl; [by rewrite Href | done].
Qed.

Section TradeRoutes.
Context `{Externals}.

(** A new trader leaves the owners, the cities and the updates alone. *)
Lemma addNewTrader_effect (s s' : Map) (civID : Z) (route : list Coords * dist)
    (source sink : Z) (capacity : Yield) :
  addNewTrader s civID route source sink capacity = Ok s' ->
  sameShape s s' /\ cities s' = cities s /\ updates s' = updates s
  /\ (forall p, owner <$> tileAt s' p = owner <$> tileAt s p)
  /\ traderHeap s'
     = traderHeap s
       ++ [ {| t_civID := civID; t_route := route; t_source := source;
               t_sink := sink; t_speed := TRADER_SPEED; t_capacity := capacity;
               t_carried := newYield noParams; t_expired := false |} ]
  /\ traders s' = traders s ++ [length (traderHeap s)].
Proof.
  unfold addNewTrader.
  destruct (tileAt s source ≫= improvement); simpl; [| discriminate].
  destruct (tileAt s sink ≫= improvement); simpl; [| discriminate].
  intros [= <-]. simpl.
  set (f1 := fun t => set_improvement t _).
  set (f2 := fun t => set_improvement t _).
  destruct (updateTileAt_frame s source f1) as (Hw1 & _ & Hc1 & Ht1 & Hh1 & Hu1 & Hl1).
  destruct (updateTileAt_frame (updateTileAt s source f1) sink f2)
    as (Hw2 & _ & Hc2 & Ht2 & Hh2 & Hu2 & Hl2).
  split; [split; simpl; congruence |].
  split; [congruence |]. split; [congruence |].
  split; [| split; congruence].
  intros p. change (tileAt (set_traders_of_map ?x _ _) p) with (tileAt x p).
  rewrite !tileAt_updateTileAt.
  repeat case_decide; destruct (tileAt s p); done.
Qed.

Lemma tradeRoutesLoop_inv (m : Map) (mode : MovementClass) (civID : Z) (c : Coords)
    (sink : Z) (requirement : Yield) (range : Z) (ps : gmap Z Coords)
    (ds : gmap Z dist) (posKeys : list Z) :
  rootedTree m mode c ps ds -> parentsWithinRange range ps ds ->
  forall s s',
    tradeRoutesInv m civID c sink requirement range s ->
    tradeRoutesLoop posKeys s civID c sink requirement ps ds = Ok s' ->
    tradeRoutesInv m civID c sink requirement range s'.
Proof.
  intros Hroot Hpw.
  induction posKeys as [| p posKeys IH]; intros s s' Hs; cbn [tradeRoutesLoop].
  { by intros [= <-]. }
  destruct (tileAt s p) as [tile |] eqn:Htile; cbn [defined mbind result_bind];
    [| discriminate].
  match goal with
  | |- mbind _ ?a = _ -> _ => destruct a as [s1 | |] eqn:Hs1
  end; cbn [mbind result_bind]; try discriminate.
  apply IH. clear IH.
  destruct (bool_decide (ownerCivID s tile = Some civID)) eqn:Hown;
    cbn [andb] in Hs1; [| by inversion Hs1; subst s1].
  destruct (canSupply tile requirement); [| by inversion Hs1; subst s1].
  apply bool_decide_eq_true in Hown.
  pose proof Hs as (Hsh & Hci & Hup & Howners & new & Hheap & Htr & Hnew).
  rewrite (findRoute_sameShape m s) in Hs1 by done.
  destruct (findRoute_tree m mode c range ps ds p Hroot Hpw) as [Hnone Hsome].
  destruct (ps !! p) as [a |] eqn:Hp.
  2:{ rewrite Hnone in Hs1 by done. by inversion Hs1; subst s1. }
  destruct Hsome as (path & d & Hroute & Hd & Hdr & Hlast & _); [eauto |].
  rewrite Hroute in Hs1. cbn [mbind result_bind] in Hs1.
  destruct (addNewTrader_effect _ _ _ _ _ _ _ Hs1)
    as (Hsh1 & Hci1 & Hup1 & Howners1 & Hheap1 & Htr1).
  split; [by eapply sameShape_trans |].
  split; [congruence |]. split; [congruence |].
  split; [intros q; by rewrite Howners1 |].
  eexists. split; [rewrite Hheap1, Hheap, <- app_assoc; reflexivity |].
  split.
  - rewrite Htr1, Htr, Hheap, <- app_assoc. f_equal.
    rewrite !length_app. simpl. rewrite seq_app. simpl. do 2 f_equal.
  - apply Forall_app. split; [done |]. apply Forall_singleton.
    unfold tradeRouteTrader. simpl.
    repeat split.
    + intros ->. destruct Hroot as (_ & Hnosrc & _). congruence.
    + specialize (Howners p). rewrite Htile in Howners.
      destruct (tileAt m p) as [tm |] eqn:Htm; simpl in Howners; [| discriminate].
      assert (Ho : owner tm = owner tile) by congruence.
      exists path, d, tm. repeat split; try done; try lia.
      unfold ownerCivID in *. rewrite Ho, <- Hci. exact Hown.
Qed.

(** X17. On a map whose movement costs are not negative, a call of
    [createTradeRoutes(civID, coords, sink, requirement, range)] that returns
    only appends traders: tiles keep their owners, the cities and the queue
    of updates are unchanged, and every new trader works for [civID],
    supplies [sink], carries at most the requirement and the trader capacity,
    and has a producer tile that [civID] owns and a route from it to
    [coords] whose distance is positive and within the range.  No trader is
    created from the tile at [coords] to itself, nor from beyond the range. *)
Theorem createTradeRoutes_sources (m m' : Map) (civID : Z) (c : Coords) (sink : Z)
    (requirement : Yield) (range : Z) (mode : MovementClass) :
  wellCosted m ->
  createTradeRoutes m civID c sink requirement range mode = Ok m' ->
  sameShape m m'
  /\ cities m' = cities m
  /\ updates m' = updates m
  /\ (forall p, owner <$> tileAt m' p = owner <$> tileAt m p)
  /\ exists new,
       traderHeap m' = traderHeap m ++ new
       /\ traders m' = traders m ++ seq (length (traderHeap m)) (length new)
       /\ Forall (fun t =>
                    t_civID t = civID /\ t_sink t = sink /\ t_speed t = TRADER_SPEED
                    /\ t_capacity t = Yield_min TRADER_CAPACITY requirement
                    /\ t_expired t = false
                    /\ t_source t <> pos m c
                    /\ exists path d tile,
                         t_route t = (coords m (t_source t) :: path, Fin d)
                         /\ 0 < d <= range /\ last path = Some c
                         /\ tileAt m (t_source t) = Some tile
                         /\ ownerCivID m tile = Some civID) new.
Proof.
  intros Hwc. unfold createTradeRoutes.
  destruct (getPathTree m c range mode) as [[ps ds] | |] eqn:Htree;
    cbn [mbind result_bind]; try discriminate.
  destruct (getPathTree_treeInv m range mode c ps ds Hwc Htree) as [Hroot Hpw].
  intros Hloop.
  apply (tradeRoutesLoop_inv m mode civID c sink requirement range ps ds
           (sortByDist ds (keysOf ds)) Hroot Hpw m m'); [| exact Hloop].
  split; [apply sameShape_refl |]. split; [done |]. split; [done |].
  split; [done |]. exists []. simpl. rewrite !app_nil_r.
  split; [done |]. split; [done | constructor].
Qed.

End TradeRoutes.

Lemma wellCostedb_sound (m : Map) : wellCostedb m = true -> wellCosted m.
Proof.
  unfold wellCostedb. rewrite forallb_forall. intros Hall tile Hin.
  apply list_elem_of_In in Hin. specialize (Hall tile Hin).
  destruct (movementCost tile) as [costs |]; [| discriminate].
  exists costs. split; [done |].
  rewrite forallb_forall in Hall. apply Forall_forall.
  intros c Hc. apply list_elem_of_In in Hc. apply Z.leb_le. by apply Hall.
Qed.

Lemma createTradeRoutes_sources_witness :
  wellCosted workedMap
  /\ createTradeRoutes (H := sampleExternals) workedMap 0 (mkCoords 1 1) 4
       {| food := 5; production := 0 |} 5 LAND = Ok routedMap
  /\ traderHeap workedMap = []
  /\ exists t path d tile,
       traderHeap routedMap = [t]
       /\ t_civID t = 0 /\ t_sink t = 4 /\ t_source t = 7
       /\ t_source t <> pos workedMap (mkCoords 1 1)
       /\ t_route t = (coords workedMap 7 :: path, Fin d)
       /\ 0 < d <= 5 /\ last path = Some (mkCoords 1 1)
       /\ tileAt workedMap 7 = Some tile
       /\ ownerCivID workedMap tile = Some 0.
Proof.
  assert (Hwc : wellCosted workedMap) by (apply wellCostedb_sound; vm_compute; reflexivity).
  assert (Hrun : createTradeRoutes (H := sampleExternals) workedMap 0 (mkCoords 1 1) 4
                   {| food := 5; production := 0 |} 5 LAND = Ok routedMap)
    by (vm_compute; reflexivity).
  assert (Hnone : traderHeap workedMap = []) by (vm_compute; reflexivity).
  split; [exact Hwc |]. split; [exact Hrun |]. split; [exact Hnone |].
  destruct (createTradeRoutes_sources (H := sampleExternals) workedMap routedMap 0
              (mkCoords 1 1) 4 {| food := 5; production := 0 |} 5 LAND Hwc Hrun)
    as (_ & _ & _ & _ & new & Hheap & _ & Hall).
  assert (Hone : exists t, traderHeap routedMap = [t] /\ t_source t = 7)
    by (eexists; split; vm_compute; reflexivity).
  destruct Hone as (t & Ht & Hsrc).
  rewrite Hnone, Ht in Hheap. simpl in Hheap. subst new.
  rewrite Forall_singleton in Hall.
  destruct Hall as (Hciv & Hsink & _ & _ & _ & Hne & path & d & tile & Hroute & Hd & Hlast
                    & Htile & Hown).
  rewrite Hsrc in Hroute, Htile.
  exists t, path, d, tile. auto 12.
Defined.
(** ** Errands that start *)

Section Starts.
Context `{Externals}.

(** The errand of the tile at [c] once [startErrandAt] and
    [createTradeRoutes] have run. *)
Lemma started_errand (m m3 : Map) (c : Coords) (tile : Tile) (i : Improvement)
    (action : ErrandAction) (ownerID : Z) (cost : Yield) :
  getTile m c = Some tile -> improvement tile = Some i ->
  createTradeRoutes (startErrandAt m c (pos m c) action) ownerID c (pos m c) cost 5 LAND
  = Ok m3 ->
  errandOf <$> getTile (tileUpdate m3 c) c
  = Some (Some (i_type i,
                Some {| e_type := a_type action; e_option := a_option action;
                        e_location := a_location action;
                        e_cost := errandCostTable (a_type action) (a_option action);
                        e_storedThisTurn := newYield noParams;
                        e_completed := false |})).
Proof.
  intros Ht Hi Hm3.
  destruct (createTradeRoutes_sameErrands _ _ _ _ _ _ _ _ Hm3) as [Hw He].
  assert (Hw1 : width (startErrandAt m c (pos m c) action) = width m).
  { unfold startErrandAt. simpl. by rewrite (proj1 (updateTileAt_frame _ _ _)). }
  unfold getTile. rewrite tileAt_tileUpdate.
  rewrite (pos_width m (tileUpdate m3 c) c) by (simpl; congruence).
  rewrite (He (pos m c)).
  unfold startErrandAt. rewrite tileAt_tileUpdate, tileAt_updateTileAt_eq.
  change (tileAt m (pos m c)) with (getTile m c). rewrite Ht. simpl.
  unfold errandOf. simpl. rewrite Hi. reflexivity.
Qed.

(** X18. A training or a research that passes the gate starts: when the
    civilization owns the tile, the improvement lists the unit type or the
    knowledge and has no errand, a call of [trainUnitAt] or
    [researchKnowledgeAt] that returns leaves the improvement, of the same
    type, with one new errand: a unit training or a research of the option
    asked for, located at the tile, at the cost of the cost table, with
    nothing stored and not completed. *)
Theorem gated_action_starts_errand (m m' : Map) (c : Coords) (x : string) (ownerID : Z)
    (tile : Tile) (i : Improvement) :
  getTile m c = Some tile -> improvement tile = Some i -> errand i = None ->
  ownerCivID m tile = Some ownerID ->
  (x ∈ getTrainableUnitTypes tile ->
   trainUnitAt m c x ownerID = Ok m' ->
   errandOf <$> getTile m' c
   = Some (Some (i_type i,
                 Some {| e_type := UNIT_TRAINING; e_option := x;
                         e_location := Some c;
                         e_cost := errandCostTable UNIT_TRAINING x;
                         e_storedThisTurn := newYield noParams;
                         e_completed := false |})))
  /\ (forall names, getResearchableKnowledgeNames i = Ok names -> x ∈ names ->
      researchKnowledgeAt m c x ownerID = Ok m' ->
      errandOf <$> getTile m' c
      = Some (Some (i_type i,
                    Some {| e_type := RESEARCH; e_option := x;
                            e_location := Some c;
                            e_cost := errandCostTable RESEARCH x;
                            e_storedThisTurn := newYield noParams;
                            e_completed := false |}))).
Proof.
  intros Ht Hi He Ho. split; [intros Hx | intros names Hnames Hx].
  - unfold trainUnitAt. rewrite Ht. cbn [defined mbind result_bind].
    rewrite Hi, He.
    rewrite !bool_decide_eq_true_2 by done.
    rewrite (bool_decide_eq_false_2 (is_Some None)) by (by intros [? ?]).
    cbn [andb negb].
    destruct (errandCostAt _ (pos m c)) as [cost | |];
      cbn [mbind result_bind]; try discriminate.
    destruct (createTradeRoutes _ ownerID c (pos m c) cost 5 LAND) as [m3 | |] eqn:Hm3;
      cbn [mbind result_bind]; try discriminate.
    intros [= <-].
    exact (started_errand m m3 c tile i _ ownerID cost Ht Hi Hm3).
  - unfold researchKnowledgeAt. rewrite Ht. cbn [defined mbind result_bind].
    rewrite Hi, He, Hnames.
    rewrite (bool_decide_eq_true_2 _ Ho). cbn [mbind result_bind].
    rewrite (bool_decide_eq_true_2 _ Hx).
    rewrite (bool_decide_eq_false_2 (is_Some None)) by (by intros [? ?]).
    cbn [andb negb].
    destruct (errandCostAt _ (pos m c)) as [cost | |];
      cbn [mbind result_bind]; try discriminate.
    destruct (createTradeRoutes _ ownerID c (pos m c) cost 5 LAND) as [m3 | |] eqn:Hm3;
      cbn [mbind result_bind]; try discriminate.
    intros [= <-].
    exact (started_errand m m3 c tile i _ ownerID cost Ht Hi Hm3).
Qed.

End Starts.

Lemma gated_action_starts_errand_witness :
  getTile encampmentMap (mkCoords 1 1) = Some encampmentTile
  /\ trainUnitAt (H := sampleExternals) encampmentMap (mkCoords 1 1) "warrior" 0
     = Ok trainingMap
  /\ errandOf <$> getTile trainingMap (mkCoords 1 1)
     = Some (Some ("encampment",
                   Some {| e_type := UNIT_TRAINING; e_option := "warrior";
                           e_location := Some (mkCoords 1 1);
                           e_cost := {| food := 5; production := 0 |};
                           e_storedThisTurn := newYield noParams;
                           e_completed := false |})).
Proof.
  assert (Ht : getTile encampmentMap (mkCoords 1 1) = Some encampmentTile)
    by (vm_compute; reflexivity).
  assert (Hi : improvement encampmentTile = Some encampment)
    by (vm_compute; reflexivity).
  assert (He : errand encampment = None) by (vm_compute; reflexivity).
  assert (Ho : ownerCivID encampmentMap encampmentTile = Some 0)
    by (vm_compute; reflexivity).
  assert (Hrun : trainUnitAt (H := sampleExternals) encampmentMap (mkCoords 1 1)
                   "warrior" 0 = Ok trainingMap) by (vm_compute; reflexivity).
  assert (Hx : "warrior" ∈ getTrainableUnitTypes (Externals := sampleExternals)
                             encampmentTile).
  { apply list_elem_of_In. vm_compute. auto. }
  split; [exact Ht |]. split; [exact Hrun |].
  exact (proj1 (gated_action_starts_errand (H := sampleExternals) encampmentMap
                  trainingMap (mkCoords 1 1) "warrior" 0 encampmentTile encampment
                  Ht Hi He Ho) Hx Hrun).
Defined.

(** ** The queue of updates never holds an update without a tile *)

Lemma is_Some_tileAt_sameShape (m s : Map) (p : Z) :
  sameShape m s -> is_Some (tileAt m p) -> is_Some (tileAt s p).
Proof. intros [_ Hl]. rewrite !is_Some_tileAt, Hl. done. Qed.

Lemma defined_sameShape (m s : Map) (u : Update) :
  sameShape m s -> is_Some (up_tile u ≫= tileAt m) -> is_Some (up_tile u ≫= tileAt s).
Proof.
  intros Hsh. destruct (up_tile u) as [p |]; simpl; [| done].
  by apply is_Some_tileAt_sameShape.
Qed.

Lemma queueExtends_refl (m : Map) : queueExtends m m.
Proof.
  split; [apply sameShape_refl |]. exists []. by rewrite app_nil_r.
Qed.

Lemma queueExtends_trans (m s s' : Map) :
  queueExtends m s -> queueExtends s s' -> queueExtends m s'.
Proof.
  intros [Hsh (n1 & Hu1 & Hn1)] [Hsh' (n2 & Hu2 & Hn2)].
  split; [by eapply sameShape_trans |].
  exists (n1 ++ n2). split; [by rewrite Hu2, Hu1, app_assoc |].
  apply Forall_app. split; [done |].
  eapply Forall_impl; [exact Hn2 |]. intros u. apply defined_sameShape.
  destruct Hsh. by split.
Qed.

Lemma queueExtends_defined (m s : Map) :
  queueExtends m s -> queueDefined m -> queueDefined s.
Proof.
  intros [Hsh (new & Hu & Hnew)] Hm. unfold queueDefined. rewrite Hu.
  apply Forall_app. split; (eapply Forall_impl; [eassumption |]);
    intros u; by apply defined_sameShape.
Qed.

(** A change that keeps the shape and the queue. *)
Lemma queueExtends_quiet (m s : Map) :
  sameShape m s -> updates s = updates m -> queueExtends m s.
Proof.
  intros Hsh Hu. split; [done |]. exists []. by rewrite app_nil_r.
Qed.

Lemma queueExtends_updateTileAt (m : Map) (p : Z) (f : Tile -> Tile) :
  queueExtends m (updateTileAt m p f).
Proof.
  apply queueExtends_quiet; [apply sameShape_updateTileAt | apply updateTileAt_frame].
Qed.

Lemma updates_updateCity (m : Map) (o : nat) (f : City -> City) :
  updates (updateCity m o f) = updates m.
Proof. unfold updateCity. by destruct (cities m !! o). Qed.

Lemma updates_updateTileAt (m : Map) (p : Z) (f : Tile -> Tile) :
  updates (updateTileAt m p f) = updates m.
Proof. apply updateTileAt_frame. Qed.

Section Queue.
Context `{Externals}.

Lemma queueExtends_tileUpdate (m : Map) (c : Coords) :
  is_Some (getTile m c) -> queueExtends m (tileUpdate m c).
Proof.
  intros [t Ht]. split; [by split |].
  eexists. split; [reflexivity |]. apply Forall_singleton. simpl.
  rewrite Ht. simpl. change (tileAt m (pos m c)) with (getTile m c). eauto.
Qed.

Lemma queueExtends_setTileVisibility (m m' : Map) (civID : Z) (c : Coords)
    (visible : bool) :
  setTileVisibility m civID c visible = Ok m' -> queueExtends m m'.
Proof.
  unfold setTileVisibility. destruct (getTile m c) as [t |] eqn:Ht; simpl;
    [| discriminate].
  intros [= <-].
  eapply queueExtends_trans; [apply queueExtends_updateTileAt |].
  apply queueExtends_tileUpdate.
  eapply getTile_sameShape; [apply sameShape_updateTileAt | eauto].
Qed.

Lemma queueExtends_lights (civID : Z) (visible : bool) (l : list Coords) :
  forall m m',
    forEach l (fun s c => setTileVisibility s civID c visible) m = Ok m' ->
    queueExtends m m'.
Proof.
  induction l as [| c l IH]; intros m m'; simpl.
  - intros [= <-]. apply queueExtends_refl.
  - destruct (setTileVisibility m civID c visible) as [m1 | |] eqn:Hm1;
      simpl; try discriminate.
    intros Hrest. eapply queueExtends_trans; [| by apply IH].
    by eapply queueExtends_setTileVisibility.
Qed.

Lemma queueExtends_moveUnitTo (m m' : Map) (unit unit' : Unit) (c : Coords) :
  moveUnitTo m unit c = Ok (m', unit') -> queueExtends m m'.
Proof.
  unfold moveUnitTo.
  destruct (getVisibleTilesCoords m unit None) as [srcVisible | |];
    cbn [mbind result_bind]; try discriminate.
  destruct (forEach srcVisible _ m) as [m1 | |] eqn:Hm1;
    cbn [mbind result_bind]; try discriminate.
  destruct (getTile m1 (u_coords unit)) as [told |] eqn:Hold;
    cbn [defined mbind result_bind]; [| discriminate].
  set (m2 := updateTileAt m1 (pos m1 (u_coords unit)) (fun t => setUnit t None)).
  set (m3 := tileUpdate m2 (u_coords unit)).
  destruct (getTile m3 c) as [tnew |] eqn:Hnew3;
    cbn [defined mbind result_bind]; [| discriminate].
  set (m4 := updateTileAt m3 (pos m3 c) (fun t => setUnit t (Some (set_coords unit c)))).
  set (m5 := tileUpdate m4 c).
  destruct (getVisibleTilesCoords m5 (set_coords unit c) None)
    as [newVisible | |]; cbn [mbind result_bind]; try discriminate.
  destruct (forEach newVisible _ m5) as [m6 | |] eqn:Hm6;
    cbn [mbind result_bind]; try discriminate.
  intros [= <- <-].
  eapply queueExtends_trans; [by eapply queueExtends_lights |].
  eapply queueExtends_trans; [apply (queueExtends_updateTileAt m1) |].
  eapply queueExtends_trans.
  { apply (queueExtends_tileUpdate m2 (u_coords unit)).
    eapply getTile_sameShape; [apply sameShape_updateTileAt | eauto]. }
  eapply queueExtends_trans; [apply (queueExtends_updateTileAt m3) |].
  eapply queueExtends_trans; [| by eapply queueExtends_lights].
  apply (queueExtends_tileUpdate m4 c).
  eapply getTile_sameShape; [apply sameShape_updateTileAt | eauto].
Qed.

Lemma setTileOwner_quiet (s s' : Map) (c : Coords) (o : nat) (overwrite : bool) :
  setTileOwner s c o overwrite = Ok s' ->
  queueExtends s s' /\ is_Some (getTile s c).
Proof.
  unfold setTileOwner.
  destruct (getTile s c) as [tile |] eqn:Ht; cbn [defined mbind result_bind];
    [| discriminate].
  intros Hrun. split; [| eauto].
  assert (Hassign : forall m0 m1,
            (city ← defined (cities m0 !! o);
             Ok (updateCity
                   (updateTileAt
                      (updateTileAt m0 (pos s c) (fun t => set_owner t (Some o)))
                      (pos s c) (fun t => setVisibility t (c_civID city) true))
                   o (fun ci => addTile ci c))) = Ok m1 ->
            queueExtends m0 m1).
  { intros m0 m1. destruct (cities m0 !! o) as [city |];
      cbn [defined mbind result_bind]; [| discriminate].
    intros [= <-]. apply queueExtends_quiet.
    - eapply sameShape_trans; [| apply sameShape_updateCity].
      eapply sameShape_trans; apply sameShape_updateTileAt.
    - by rewrite updates_updateCity, !updates_updateTileAt. }
  destruct (owner tile) as [old |]; [| by apply Hassign].
  destruct overwrite; cbn [negb] in Hrun;
    [| inversion Hrun; apply queueExtends_refl].
  destruct (cities s !! old) as [oldCity |] eqn:Hold;
    cbn [defined mbind result_bind] in Hrun; [| discriminate].
  eapply queueExtends_trans; [| by apply Hassign].
  apply queueExtends_quiet.
  - eapply sameShape_trans; [apply sameShape_updateCity | apply sameShape_updateTileAt].
  - by rewrite updates_updateTileAt, updates_updateCity.
Qed.

Lemma queueExtends_buildImprovementAt (m m' : Map) (c : Coords) (type : string)
    (ownerID : Z) :
  buildImprovementAt m c type ownerID = Ok m' -> queueExtends m m'.
Proof.
  unfold buildImprovementAt.
  destruct (getTile m c) as [tile |] eqn:Ht; cbn [defined mbind result_bind];
    [| discriminate].
  destruct (negb (bool_decide _)); [intros [= <-]; apply queueExtends_refl |].
  destruct (negb (canBuildOn tile)); [intros [= <-]; apply queueExtends_refl |].
  intros [= <-].
  eapply queueExtends_trans; [apply queueExtends_updateTileAt |].
  apply queueExtends_tileUpdate.
  eapply getTile_sameShape; [apply sameShape_updateTileAt | eauto].
Qed.

Lemma queueExtends_settleCityAt (m m' : Map) (c : Coords) (name : string)
    (civID : Z) (ok : bool) :
  settleCityAt m c name civID = Ok (m', ok) -> queueExtends m m'.
Proof.
  unfold settleCityAt.
  destruct (getTile m c) as [tile |]; cbn [defined mbind result_bind];
    [| discriminate].
  destruct (negb (canSettleOn tile)); [intros [= <- <-]; apply queueExtends_refl |].
  set (m1 := set_cities m (cities m ++ [newCity c name civID])).
  destruct (forEach _ _ m1) as [m2 | |] eqn:Hloop;
    cbn [mbind result_bind]; try discriminate.
  destruct (buildImprovementAt m2 c "settlement" civID) as [m3 | |] eqn:Hbuild;
    cbn [mbind result_bind]; try discriminate.
  intros [= <- <-].
  eapply queueExtends_trans; [| by eapply queueExtends_buildImprovementAt].
  eapply queueExtends_trans; [apply (queueExtends_quiet m m1); by split |].
  eapply (forEach_invariant (queueExtends m1)); [| apply queueExtends_refl | exact Hloop].
  intros s nb s' _ Hs. cbn beta.
  destruct (setTileOwner s nb (length (cities m)) false) as [s1 | |] eqn:Hset;
    cbn [mbind result_bind]; try discriminate.
  intros [= <-]. destruct (setTileOwner_quiet _ _ _ _ _ Hset) as [Hq Hnb].
  eapply queueExtends_trans; [exact Hs |].
  eapply queueExtends_trans; [exact Hq |].
  apply queueExtends_tileUpdate.
  eapply getTile_sameShape; [apply Hq | exact Hnb].
Qed.

Lemma queueExtends_tradeRoutes (m m' : Map) (civID : Z) (c : Coords) (sink : Z)
    (requirement : Yield) (range : Z) (mode : MovementClass) :
  createTradeRoutes m civID c sink requirement range mode = Ok m' ->
  queueExtends m m'.
Proof.
  unfold createTradeRoutes.
  destruct (getPathTree m c range mode) as [[ps ds] | |];
    cbn [mbind result_bind]; try discriminate.
  generalize (sortByDist ds (keysOf ds)). intros posKeys. revert m.
  induction posKeys as [| p posKeys IH]; intros m; cbn [tradeRoutesLoop].
  { intros [= <-]. apply queueExtends_refl. }
  destruct (tileAt m p) as [tile |]; cbn [defined mbind result_bind];
    [| discriminate].
  match goal with
  | |- mbind _ ?a = _ -> _ => destruct a as [m1 | |] eqn:Hm1
  end; cbn [mbind result_bind]; try discriminate.
  intros Hrest. eapply queueExtends_trans; [| by apply IH].
  destruct (bool_decide _ && canSupply tile requirement);
    [| inversion Hm1; apply queueExtends_refl].
  destruct (findRoute m ps ds p c) as [[route |] | |];
    cbn [mbind result_bind] in Hm1; try discriminate.
  - destruct (addNewTrader_effect _ _ _ _ _ _ _ Hm1) as (Hsh & _ & Hu & _).
    by apply queueExtends_quiet.
  - inversion Hm1. apply queueExtends_refl.
Qed.

Lemma queueExtends_startErrandAt (m : Map) (c : Coords) (action : ErrandAction) :
  is_Some (getTile m c) -> queueExtends m (startErrandAt m c (pos m c) action).
Proof.
  intros Ht. unfold startErrandAt.
  eapply queueExtends_trans; [apply queueExtends_updateTileAt |].
  apply queueExtends_tileUpdate.
  eapply getTile_sameShape; [apply sameShape_updateTileAt | done].
Qed.

(** A handler that has read the tile at [c], run [body] and ends with
    [tileUpdate(c)]. *)
Lemma queueExtends_gated (m m' : Map) (c : Coords) (body : result Map) :
  is_Some (getTile m c) ->
  (forall s, body = Ok s -> queueExtends m s) ->
  (s ← body; Ok (tileUpdate s c)) = Ok m' ->
  queueExtends m m'.
Proof.
  intros Ht Hbody. destruct body as [s | |]; cbn [mbind result_bind];
    try discriminate.
  intros [= <-]. specialize (Hbody s eq_refl).
  eapply queueExtends_trans; [exact Hbody |].
  apply queueExtends_tileUpdate. eapply getTile_sameShape; [apply Hbody | done].
Qed.

(** Starting an errand at [c] and creating its trade routes. *)
Lemma queueExtends_errand (m s : Map) (c : Coords) (action : ErrandAction)
    (ownerID : Z) :
  is_Some (getTile m c) ->
  (cost ← errandCostAt (startErrandAt m c (pos m c) action) (pos m c);
   createTradeRoutes (startErrandAt m c (pos m c) action) ownerID c (pos m c)
     cost 5 LAND) = Ok s ->
  queueExtends m s.
Proof.
  intros Ht.
  destruct (errandCostAt _ (pos m c)) as [cost | |]; cbn [mbind result_bind];
    try discriminate.
  intros Hroutes.
  eapply queueExtends_trans; [by apply queueExtends_startErrandAt |].
  by eapply queueExtends_tradeRoutes.
Qed.

(** X20. The handlers of the map only append to the queue of updates, and
    only updates whose tile exists.  After a call of [setTileVisibility],
    [moveUnitTo], [settleCityAt], [buildImprovementAt],
    [startConstructionAt], [trainUnitAt] or [researchKnowledgeAt] that
    returns, the map has the width and the number of tiles it had, and its
    queue is the queue from before the call followed by new updates, each of
    which has captured a tile of the map.  So when no update of the queue was
    without a tile before the call, none is after it. *)
Theorem handlers_only_append_updates (m : Map) :
  (forall civID c visible m',
     setTileVisibility m civID c visible = Ok m' -> queueExtends m m')
  /\ (forall unit c m' unit',
        moveUnitTo m unit c = Ok (m', unit') -> queueExtends m m')
  /\ (forall c name civID m' ok,
        settleCityAt m c name civID = Ok (m', ok) -> queueExtends m m')
  /\ (forall c type ownerID m',
        buildImprovementAt m c type ownerID = Ok m' -> queueExtends m m')
  /\ (forall c improvementType ownerID m',
        startConstructionAt m c improvementType ownerID = Ok m' -> queueExtends m m')
  /\ (forall c unitType ownerID m',
        trainUnitAt m c unitType ownerID = Ok m' -> queueExtends m m')
  /\ (forall c knowledgeName ownerID m',
        researchKnowledgeAt m c knowledgeName ownerID = Ok m' -> queueExtends m m')
  /\ (forall m', queueExtends m m' -> queueDefined m -> queueDefined m').
Proof.
  split; [| split; [| split; [| split; [| split; [| split; [| split]]]]]].
  - intros civID c visible m' Hrun. by eapply queueExtends_setTileVisibility.
  - intros unit c m' unit' Hrun. by eapply queueExtends_moveUnitTo.
  - intros c name civID m' ok Hrun. by eapply queueExtends_settleCityAt.
  - intros c type ownerID m' Hrun. by eapply queueExtends_buildImprovementAt.
  - intros c improvementType ownerID m'. unfold startConstructionAt.
    destruct (getTile m c) as [tile |] eqn:Ht; cbn [defined mbind result_bind];
      [| discriminate].
    destruct (negb (bool_decide _)); [intros [= <-]; apply queueExtends_refl |].
    set (m1 := updateTileAt m (pos m c) _).
    intros Hrun.
    assert (Hp1 : pos m1 c = pos m c)
      by (apply pos_width, (proj1 (updateTileAt_frame _ _ _))).
    assert (Ht1 : is_Some (getTile m1 c))
      by (eapply getTile_sameShape; [apply sameShape_updateTileAt | eauto]).
    eapply queueExtends_trans; [apply (queueExtends_updateTileAt m (pos m c)) |].
    fold m1. rewrite <- Hp1 in Hrun.
    destruct (errandCostAt _ (pos m1 c)) as [cost | |] eqn:Hcost;
      cbn [mbind result_bind] in Hrun; try discriminate.
    eapply (queueExtends_gated m1 m' c); [exact Ht1 | | exact Hrun].
    intros s Hs.
    eapply queueExtends_trans; [by apply queueExtends_startErrandAt |].
    by eapply queueExtends_tradeRoutes.
  - intros c unitType ownerID m'. unfold trainUnitAt.
    destruct (getTile m c) as [tile |] eqn:Ht; cbn [defined mbind result_bind];
      [| discriminate].
    intros Hrun.
    eapply queueExtends_gated; [eauto | | exact Hrun].
    intros s. destruct (improvement tile) as [i |];
      [| intros [= <-]; apply queueExtends_refl].
    destruct (_ && _); [| intros [= <-]; apply queueExtends_refl].
    apply queueExtends_errand. eauto.
  - intros c knowledgeName ownerID m'. unfold researchKnowledgeAt.
    destruct (getTile m c) as [tile |] eqn:Ht; cbn [defined mbind result_bind];
      [| discriminate].
    intros Hrun.
    eapply queueExtends_gated; [eauto | | exact Hrun].
    intros s. destruct (improvement tile) as [i |];
      [| intros [= <-]; apply queueExtends_refl].
    destruct (bool_decide _); [| intros [= <-]; apply queueExtends_refl].
    destruct (getResearchableKnowledgeNames i) as [names | |];
      cbn [mbind result_bind]; try discriminate.
    destruct (_ && _); [| intros [= <-]; apply queueExtends_refl].
    apply queueExtends_errand. eauto.
  - intros m' Hext Hq. by eapply queueExtends_defined.
Qed.

End Queue.

Lemma handlers_only_append_updates_witness :
  moveUnitTo (H := sampleExternals) litMap (scoutAt (mkCoords 4 4)) (mkCoords 4 5)
  = Ok (movedMap, scoutAt (mkCoords 4 5))
  /\ queueExtends litMap movedMap
  /\ updates litMap = []
  /\ length (updates movedMap) = 40%nat.
Proof.
  assert (Hmove : moveUnitTo (H := sampleExternals) litMap (scoutAt (mkCoords 4 4))
                    (mkCoords 4 5)
                  = Ok (movedMap, scoutAt (mkCoords 4 5)))
    by (vm_compute; reflexivity).
  split; [exact Hmove |]. split.
  - exact (proj1 (proj2 (handlers_only_append_updates (H := sampleExternals) litMap))
             (scoutAt (mkCoords 4 4)) (mkCoords 4 5) movedMap
             (scoutAt (mkCoords 4 5)) Hmove).
  - split; vm_compute; reflexivity.
Defined.

(** ** The path tree is a fixed point of its relaxation *)

(** [forEach] with the elements that have been visited so far. *)
Lemma forEach_prefix {St : Type} (P : list Coords -> St -> Prop) (l : list Coords)
    (body : St -> Coords -> result St) :
  (forall pre c s s', c ∈ l -> P pre s -> body s c = Ok s' -> P (pre ++ [c]) s') ->
  forall s s', P [] s -> forEach l body s = Ok s' -> P l s'.
Proof.
  intros Hbody.
  assert (Hgen : forall post pre s s',
            (forall c, c ∈ post -> c ∈ l) ->
            P pre s -> forEach post body s = Ok s' -> P (pre ++ post) s').
  { induction post as [| c post IH]; intros pre s s' Hsub Hs; simpl.
    - intros [= <-]. by rewrite app_nil_r.
    - destruct (body s c) as [s1 | |] eqn:Hb; simpl; try discriminate.
      intros Hfe. rewrite (cons_middle c pre post), app_assoc.
      apply (IH (pre ++ [c]) s1 s'); [| | exact Hfe].
      + intros c0 Hc0. apply Hsub. by right.
      + eapply Hbody; [apply Hsub; by left | exact Hs | exact Hb]. }
  intros s s' Hs Hfe. apply (Hgen l [] s s'); auto.
Qed.

Lemma dist_gt_irrefl (d : dist) : dist_gt d d = false.
Proof. destruct d; simpl; try done. apply Z.ltb_irrefl. Qed.

(** A distance below one that is not greater than [b] is not greater than
    [b]. *)
Lemma dist_gt_below (a b c : dist) :
  dist_gt a c = true -> dist_gt a b = false -> dist_gt c b = false.
Proof.
  destruct a, b, c; simpl; try done.
  intros H1%Z.ltb_lt H2%Z.ltb_ge. apply Z.ltb_ge. lia.
Qed.

Section PathFixed.
Context `{Externals}.
Variables (m : Map) (range : Z) (mode : MovementClass) (srcPos : Coords).

(** A relaxed step looks at the index of its target only. *)
Lemma relaxedStep_pos (ds : gmap Z dist) (d : Z) (v v' : Coords) :
  pos m v' = pos m v -> relaxedStep m mode ds d v -> relaxedStep m mode ds d v'.
Proof.
  intros Hp (tile & cost & dv & Ht & Hc & Hdv & Hle).
  exists tile, cost, dv. unfold getTile in *. rewrite Hp. auto.
Qed.

(** A relaxed step stays relaxed when an entry of [dst] is lowered. *)
Lemma relaxedStep_insert (ds : gmap Z dist) (d : Z) (v adj : Coords) (cand : dist) :
  (forall dv, ds !! pos m adj = Some dv -> dist_gt dv cand = true) ->
  relaxedStep m mode ds d v ->
  relaxedStep m mode (<[pos m adj := cand]> ds) d v.
Proof.
  intros Hold (tile & cost & dv & Ht & Hc & Hdv & Hle).
  destruct (decide (pos m adj = pos m v)) as [Heq | Hne].
  - exists tile, cost, cand. rewrite Heq, lookup_insert_eq.
    repeat split; try done.
    eapply dist_gt_below; [| exact Hle]. apply Hold. by rewrite Heq.
  - exists tile, cost, dv. by rewrite lookup_insert_ne.
Qed.

(** The body of the inner loop relaxes the step to [adjPos] and keeps the
    other steps relaxed. *)
Lemma relax_expanding (atPos adjPos : Coords) (L : Z) (done : list Coords)
    (st st' : PathState) :
  wellCosted m ->
  treeInv m range mode srcPos st ->
  expanding m range mode srcPos atPos L done st ->
  relax m range mode atPos st adjPos = Ok st' ->
  expanding m range mode srcPos atPos L (done ++ [adjPos]) st'.
Proof.
  intros Hwc ((Hsrc & _ & _) & Hnn & _ & _) (HL & Hdone & Hrest) Hrelax.
  destruct (relax_cases _ _ _ _ _ _ _ Hrelax) as (tile & cost & Ht & Hcost & Hcases).
  destruct (getTile_elem _ _ _ Ht) as [Htile _].
  cbv zeta in Hcases. unfold distAt in Hcases. rewrite HL in Hcases.
  set (candidate := dist_add (Fin L) cost) in *.
  pose proof (Hnn _ _ HL) as HL0.
  assert (Hcand0 : forall y, candidate = Fin y -> L < y).
  { intros y Hy. subst candidate.
    destruct (movementCostFor_cases mode _ _ Hcost) as [-> | [c ->]]; [discriminate |].
    assert (0 < c) by (by eapply movementCostFor_positive).
    simpl in Hy. inversion Hy. lia. }
  destruct Hcases as [[-> (d & Hd & Hgt)] | [Hold Hnew]].
  - (* the test fails: the step is relaxed already *)
    split; [exact HL |]. split; [| exact Hrest].
    intros v [Hv | ->%list_elem_of_singleton]%elem_of_app; [by apply Hdone |].
    by exists tile, cost, d.
  - (* the test holds: the entry of [adjPos] is lowered *)
    assert (Hgt : forall dv, dst st !! pos m adjPos = Some dv ->
                             dist_gt dv candidate = true).
    { intros dv Hdv. destruct Hold as [Hnone | (d' & Hd' & Hg)]; congruence. }
    assert (Hless : forall d, dst st !! pos m adjPos = Some (Fin d) ->
                              exists y, candidate = Fin y /\ y < d).
    { intros d Hd. apply dist_gt_Fin. by apply Hgt. }
    assert (Hnsrc : pos m adjPos <> pos m srcPos).
    { intros Heq. rewrite Heq in Hless. destruct (Hless _ Hsrc) as (y & Hy & Hlt).
      specialize (Hcand0 _ Hy). lia. }
    assert (Hnat : pos m adjPos <> pos m atPos).
    { intros Heq. rewrite Heq in Hless. destruct (Hless _ HL) as (y & Hy & Hlt).
      specialize (Hcand0 _ Hy). lia. }
    assert (Hst' : dst st' = <[pos m adjPos := candidate]> (dst st)
                   /\ (forall a, a ∈ queue st -> a ∈ queue st')
                   /\ (forall y, candidate = Fin y -> y <= range -> adjPos ∈ queue st')).
    { destruct Hnew as [[Hle ->] | [Hle ->]]; cbn [queue dst].
      - split; [done |]. split.
        + intros a Ha. apply elem_of_app. by left.
        + intros ? ? ?. apply elem_of_app. right. by apply list_elem_of_singleton.
      - split; [done |]. split; [done |].
        intros y Hy Hyr. rewrite Hy in Hle. simpl in Hle.
        apply Z.leb_gt in Hle. lia. }
    destruct Hst' as (Hdst' & Hqueue & Hpush). unfold expanding. rewrite Hdst'.
    split; [by rewrite lookup_insert_ne |]. split.
    + intros v [Hv | ->%list_elem_of_singleton]%elem_of_app.
      * apply relaxedStep_insert; [exact Hgt | by apply Hdone].
      * exists tile, cost, candidate. rewrite lookup_insert_eq.
        repeat split; try done. apply dist_gt_irrefl.
    + intros q d Hq Hr Hne.
      destruct (decide (pos m adjPos = q)) as [<- | Hnq].
      * rewrite lookup_insert_eq in Hq. inversion Hq as [Hc].
        destruct Hr as [Hr | Hr]; [| done].
        left. exists adjPos. split; [| done]. by apply (Hpush d).
      * rewrite lookup_insert_ne in Hq by done.
        destruct (Hrest q d Hq Hr Hne) as [(a & Ha & Hpa) | Hset].
        -- left. exists a. split; [by apply Hqueue | done].
        -- right. intros u v Hu Hv.
           apply relaxedStep_insert; [exact Hgt | by apply (Hset u v)].
Qed.

(** The body of the inner loop writes no [NaN], as long as the tile that is
    expanded has a distance. *)
Lemma relax_numeric (atPos adjPos : Coords) (L : Z) (st st' : PathState) :
  dst st !! pos m atPos = Some (Fin L) -> numeric (dst st) ->
  relax m range mode atPos st adjPos = Ok st' ->
  numeric (dst st').
Proof.
  intros HL Hnum Hrelax.
  destruct (relax_cases _ _ _ _ _ _ _ Hrelax) as (tile & cost & Ht & Hcost & Hcases).
  cbv zeta in Hcases. unfold distAt in Hcases. rewrite HL in Hcases.
  assert (Hcand : dist_add (Fin L) cost <> NotANumber).
  { by destruct (movementCostFor_cases mode _ _ Hcost) as [-> | [c ->]]. }
  destruct Hcases as [[-> _] | [_ Hnew]]; [done |].
  assert (Hdst' : dst st' = <[pos m adjPos := dist_add (Fin L) cost]> (dst st)).
  { by destruct Hnew as [[_ ->] | [_ ->]]. }
  rewrite Hdst'. intros p d.
  destruct (decide (pos m adjPos = p)) as [<- | Hne].
  - rewrite lookup_insert_eq. by intros [= <-].
  - rewrite lookup_insert_ne by done. apply Hnum.
Qed.

(** One round of the outer loop keeps the invariants. *)
Lemma round_settling (atPos : Coords) (rest : list Coords) (ps : gmap Z Coords)
    (ds : gmap Z dist) (st' : PathState) :
  wellCosted m -> neighboursByIndex m ->
  treeInv m range mode srcPos {| queue := atPos :: rest; paths := ps; dst := ds |} ->
  settling m range mode srcPos {| queue := atPos :: rest; paths := ps; dst := ds |} ->
  numeric ds ->
  forEach (getNeighborsCoords m atPos 1 None) (relax m range mode atPos)
    {| queue := rest; paths := ps; dst := ds |} = Ok st' ->
  treeInv m range mode srcPos st' /\ settling m range mode srcPos st'
  /\ numeric (dst st').
Proof.
  intros Hwc Hidx Hinv Hset Hnum Hfe.
  pose proof Hinv as ((Hsrc & Hnosrc & Hgood) & Hnn & Hpw & Hq).
  cbn [queue paths dst] in *.
  assert (Hat : pos m atPos = pos m srcPos \/ is_Some (ps !! pos m atPos)).
  { apply (Hq atPos). by left. }
  assert (HL : exists L, ds !! pos m atPos = Some (Fin L)).
  { destruct Hat as [Heq | [a Ha]].
    - exists 0. by rewrite Heq.
    - destruct (Hgood _ _ Ha) as (dp & ? & ? & ? & ? & Hdp & ?). by exists dp. }
  destruct HL as [L HL].
  assert (Hend : (treeInv m range mode srcPos st'
                  /\ (pos m atPos = pos m srcPos \/ is_Some (paths st' !! pos m atPos)))
                 /\ expanding m range mode srcPos atPos L
                      (getNeighborsCoords m atPos 1 None) st'
                 /\ numeric (dst st')).
  { eapply (forEach_prefix
              (fun pre st =>
                 (treeInv m range mode srcPos st
                  /\ (pos m atPos = pos m srcPos \/ is_Some (paths st !! pos m atPos)))
                 /\ expanding m range mode srcPos atPos L pre st
                 /\ numeric (dst st)));
      [| | exact Hfe].
    - intros pre c s s' Hc (Hs & Hex & Hn) Hrel. split; [| split].
      + by eapply relax_treeInv.
      + eapply relax_expanding; [exact Hwc | exact (proj1 Hs) | exact Hex | exact Hrel].
      + eapply relax_numeric; [exact (proj1 Hex) | exact Hn | exact Hrel].
    - split; [split; [| exact Hat] | split; [| exact Hnum]].
      + split; [by split |]. split; [exact Hnn |]. split; [exact Hpw |].
        intros a Ha. apply Hq. by right.
      + split; [exact HL |]. split; [by intros v ?%elem_of_nil |].
        cbn [queue dst]. intros q d Hqd Hr Hne.
        destruct (Hset q d Hqd Hr) as [(a & Ha & Hpa) | Hs]; [| by right].
        left. exists a. split; [| done].
        apply elem_of_cons in Ha as [-> | Ha]; [done | exact Ha]. }
  destruct Hend as ([Hinv' _] & (HL' & Hdone & Hrest) & Hnum').
  split; [exact Hinv' |]. split; [| exact Hnum'].
  intros q d Hqd Hr.
  destruct (decide (q = pos m atPos)) as [-> | Hne]; [| by apply Hrest].
  right. rewrite HL' in Hqd. inversion Hqd; subst d.
  intros u v Hu Hv.
  destruct (Hidx u atPos v Hu Hv) as (v' & Hv' & Hpv).
  apply (relaxedStep_pos _ _ v'); [done | by apply Hdone].
Qed.

(** What [getPathTree] returns: a rooted tree whose distances are numbers or
    [Infinity], with every tile within the range settled. *)
Lemma getPathTree_settled (ps : gmap Z Coords) (ds : gmap Z dist) :
  wellCosted m -> neighboursByIndex m ->
  getPathTree m srcPos range mode = Ok (ps, ds) ->
  rootedTree m mode srcPos ps ds /\ parentsWithinRange range ps ds
  /\ numeric ds
  /\ forall q d, ds !! q = Some (Fin d) -> d <= range \/ q = pos m srcPos ->
       settledAt m mode ds q d.
Proof.
  intros Hwc Hidx Hloop. unfold getPathTree in Hloop.
  destruct (pathLoop_invariant m range mode
              (fun st => treeInv m range mode srcPos st
                         /\ settling m range mode srcPos st
                         /\ numeric (dst st)))
    with (fuel := pathFuel m range)
         (st := {| queue := [srcPos]; paths := ∅; dst := {[pos m srcPos := Fin 0]} |})
         (res := (ps, ds))
    as (st' & (Hinv & Hset & Hnum) & Hempty & Hres).
  - intros atPos rest ps0 ds0 st' (Hinv & Hset & Hnum) Hfe. by eapply round_settling.
  - split; [| split].
    + split; [| split; [| split]]; simpl.
      * split; [apply lookup_singleton_eq |]. split; [apply lookup_empty |].
        intros p a Hp. by rewrite lookup_empty in Hp.
      * intros p d Hp. apply lookup_singleton_Some in Hp as [_ [= <-]]. lia.
      * intros p a Hp. by rewrite lookup_empty in Hp.
      * intros a ->%list_elem_of_singleton. by left.
    + intros q d Hq _. simpl in Hq. apply lookup_singleton_Some in Hq as [<- _].
      left. exists srcPos. split; [by apply list_elem_of_singleton | done].
    + intros p d Hp. simpl in Hp. by apply lookup_singleton_Some in Hp as [_ <-].
  - exact Hloop.
  - inversion Hres; subst ps ds.
    destruct Hinv as (Hroot & _ & Hpw & _).
    split; [exact Hroot |]. split; [exact Hpw |]. split; [exact Hnum |].
    intros q d Hq Hr.
    destruct (Hset q d Hq Hr) as [(a & Ha & _) | Hs]; [| exact Hs].
    rewrite Hempty in Ha. by apply elem_of_nil in Ha.
Qed.

(** X21. The distances that [getPathTree] returns are a fixed point of its
    relaxation. On a map whose movement costs are not negative and whose
    neighbourhoods depend on the index of a coordinate only: for every
    coordinate [u] whose distance [du] is within the range, or which is the
    source, and every [v] of [getNeighborsCoords(u)], [v] has a distance
    [dst[v]], which is not [NaN], and [dst[v] > dst[u] + cost(v)] is
    false. *)
Theorem getPathTree_fixed_point (ps : gmap Z Coords) (ds : gmap Z dist)
    (u v : Coords) (du : Z) :
  wellCosted m -> neighboursByIndex m ->
  getPathTree m srcPos range mode = Ok (ps, ds) ->
  ds !! pos m u = Some (Fin du) ->
  du <= range \/ pos m u = pos m srcPos ->
  v ∈ getNeighborsCoords m u 1 None ->
  exists tile cost dv,
    getTile m v = Some tile /\ movementCostFor mode tile = Ok cost
    /\ ds !! pos m v = Some dv /\ dv <> NotANumber
    /\ dist_gt dv (dist_add (Fin du) cost) = false.
Proof.
  intros Hwc Hidx Hres Hdu Hr Hv.
  destruct (getPathTree_settled ps ds Hwc Hidx Hres) as (_ & _ & Hnum & Hset).
  destruct (Hset (pos m u) du Hdu Hr u v eq_refl Hv)
    as (tile & cost & dv & Ht & Hc & Hdv & Hgt).
  exists tile, cost, dv. repeat split; try done. by apply (Hnum (pos m v)).
Qed.

(** A step from a settled tile: the distance of the tile entered is a
    number, at most the distance of the tile left plus the cost. *)
Lemma settled_step (ds : gmap Z dist) (u v : Coords) (du cost : Z) (tile : Tile) :
  numeric ds -> settledAt m mode ds (pos m u) du ->
  v ∈ getNeighborsCoords m u 1 None ->
  getTile m v = Some tile -> movementCostFor mode tile = Ok (Fin cost) ->
  exists dv, ds !! pos m v = Some (Fin dv) /\ dv <= du + cost.
Proof.
  intros Hnum Hset Hv Ht Hc.
  destruct (Hset u v eq_refl Hv) as (tile' & cost' & dv & Ht' & Hc' & Hdv & Hgt).
  rewrite Ht in Ht'. inversion Ht'; subst tile'.
  rewrite Hc in Hc'. inversion Hc'; subst cost'.
  pose proof (Hnum _ _ Hdv) as Hn.
  destruct dv as [y | |]; simpl in Hgt; try done.
  exists y. split; [done |]. apply Z.ltb_ge in Hgt. lia.
Qed.

(** X22. [getPathTree] finds the shortest distances. On a map whose
    movement costs are not negative and whose neighbourhoods depend on the
    index of a coordinate only: the distance of the source and of every
    index with a parent is the cost of a walk from the source that ends on
    that tile; and no walk from the source is cheaper than the distance of
    the tile it ends on, which is a number.  A walk steps from a coordinate
    to one of its [getNeighborsCoords], pays the movement cost of the tile it
    enters, and leaves no coordinate it has reached beyond the range. *)
Theorem getPathTree_shortest (ps : gmap Z Coords) (ds : gmap Z dist) :
  wellCosted m -> neighboursByIndex m ->
  getPathTree m srcPos range mode = Ok (ps, ds) ->
  (forall p, is_Some (ps !! p) \/ p = pos m srcPos ->
     exists d v, ds !! p = Some (Fin d) /\ pos m v = p
                 /\ reach m range mode srcPos v d)
  /\ (forall v total, reach m range mode srcPos v total ->
        exists d, ds !! pos m v = Some (Fin d) /\ d <= total).
Proof.
  intros Hwc Hidx Hres.
  destruct (getPathTree_settled ps ds Hwc Hidx Hres)
    as ((Hsrc & Hnosrc & Hgood) & Hpw & Hnum & Hset).
  split.
  - (* attained: by induction on the distance *)
    assert (Hind : forall n p d, ds !! p = Some (Fin d) -> d <= Z.of_nat n ->
              is_Some (ps !! p) \/ p = pos m srcPos ->
              exists v, pos m v = p /\ reach m range mode srcPos v d).
    { induction n as [| n IH]; intros p d Hd Hn [[a Ha] | ->].
      - destruct (Hgood _ _ Ha) as (dp & da & ? & ? & ? & Hdp & ? & ? & ? & ? & ? & ?
                                    & ? & ? & ?).
        rewrite Hd in Hdp. inversion Hdp. lia.
      - rewrite Hsrc in Hd. inversion Hd. exists srcPos. split; [done | constructor].
      - destruct (Hgood _ _ Ha)
          as (dp & da & adj & tile & cost & Hdp & Hda & Hin & Hpos & Htl & Hco & Hc0
              & Hda0 & Hsum & Hroot).
        rewrite Hd in Hdp. inversion Hdp; subst dp.
        destruct (Hpw _ _ Ha) as (d' & Hd' & Hdr).
        rewrite Hd in Hd'. inversion Hd'; subst d'.
        destruct (IH (pos m a) da Hda ltac:(lia) ltac:(tauto)) as (va & Hva & Hreach).
        assert (Hsa : settledAt m mode ds (pos m a) da).
        { apply Hset; [done | left; lia]. }
        destruct (settled_step ds a adj da cost tile Hnum Hsa Hin Htl Hco)
          as (dv & Hdv & Hle).
        rewrite Hpos, Hd in Hdv. inversion Hdv; subst dv.
        destruct (Hidx a va adj (eq_sym Hva) Hin) as (adj' & Hin' & Hpos').
        exists adj'. split; [congruence |].
        replace d with (da + cost) by lia.
        apply (reach_step _ _ _ _ va adj' da tile cost); try done; [lia |].
        unfold getTile in *. by rewrite Hpos'.
      - rewrite Hsrc in Hd. inversion Hd. exists srcPos. split; [done | constructor]. }
    intros p Hp.
    assert (Hd : exists d, ds !! p = Some (Fin d) /\ 0 <= d).
    { destruct Hp as [[a Ha] | ->].
      - destruct (Hgood _ _ Ha) as (dp & da & ? & ? & ? & Hdp & ? & ? & ? & ? & ? & ?
                                    & ? & ? & ?).
        exists dp. split; [done | lia].
      - exists 0. split; [done | lia]. }
    destruct Hd as (d & Hd & Hd0).
    destruct (Hind (Z.to_nat d) p d Hd ltac:(lia) Hp) as (v & Hv & Hreach).
    by exists d, v.
  - (* no walk is cheaper: by induction on the walk *)
    intros v total Hreach.
    induction Hreach as [| w v total tile cost Hreach IH Hr Hin Ht Hc].
    + exists 0. split; [done | lia].
    + destruct IH as (dw & Hdw & Hle).
      assert (Hsw : settledAt m mode ds (pos m w) dw).
      { apply Hset; [done | left; lia]. }
      destruct (settled_step ds w v dw cost tile Hnum Hsw Hin Ht Hc) as (dv & Hdv & Hle').
      exists dv. split; [done | lia].
Qed.

End PathFixed.

(** Every adjacent coordinate with a tile has its index in what [addFresh]
    keeps, unless the index has been seen. *)
Lemma addFresh_complete (m : Map) (l : list Coords) (b : Coords) :
  forall seen, b ∈ l -> is_Some (getTile m b) ->
    pos m b ∈ seen \/ exists b', b' ∈ addFresh m seen l /\ pos m b' = pos m b.
Proof.
  induction l as [| a l IH]; intros seen Hb Ht; [by apply elem_of_nil in Hb |].
  cbn [addFresh].
  apply elem_of_cons in Hb as [-> | Hb].
  - rewrite (bool_decide_eq_true_2 _ Ht).
    destruct (bool_decide (pos m a ∈ seen)) eqn:Hs; simpl.
    + left. by apply bool_decide_eq_true in Hs.
    + right. exists a. split; [by left | done].
  - destruct (bool_decide (is_Some (getTile m a)) && negb (bool_decide (pos m a ∈ seen))).
    + destruct (IH ({[pos m a]} ∪ seen) Hb Ht) as [Hin | (b' & Hb' & Hp)].
      * apply elem_of_union in Hin as [Hin%elem_of_singleton | Hin]; [| by left].
        right. exists a. split; [by left | done].
      * right. exists b'. split; [by right | done].
    + by apply IH.
Qed.

(** When the adjacent coordinates depend on the index of a coordinate only,
    so do the neighbourhoods. *)
Lemma neighboursByIndex_adjacent `{Externals} (m : Map) :
  (forall a a' b, pos m a = pos m a' -> b ∈ getAdjacentCoords a ->
     exists b', b' ∈ getAdjacentCoords a' /\ pos m b' = pos m b) ->
  neighboursByIndex m.
Proof.
  intros Hadj a a' v Hp Hv.
  destruct (getTile m a) as [t |] eqn:Ht.
  - assert (Ht' : is_Some (getTile m a')).
    { unfold getTile in *. rewrite <- Hp. eauto. }
    rewrite getNeighborsCoords_one in Hv by eauto.
    apply elem_of_cons in Hv as [-> | Hv].
    + exists a'. split; [| done]. rewrite getNeighborsCoords_one by done. by left.
    + destruct (addFresh_subset _ _ _ _ Hv) as [Hin Htv].
      destruct (Hadj a a' v Hp Hin) as (b' & Hb' & Hpb).
      assert (Htb : is_Some (getTile m b')).
      { unfold getTile in *. by rewrite Hpb. }
      rewrite getNeighborsCoords_one by done.
      destruct (addFresh_complete m _ b' {[pos m a']} Hb' Htb)
        as [Hin'%elem_of_singleton | (b'' & Hb'' & Hpb'')].
      * exists a'. split; [by left | congruence].
      * exists b''. split; [by right | congruence].
  - unfold getNeighborsCoords in Hv. change (Z.to_nat (1 + 1)) with 2%nat in Hv.
    cbn [getNeighborsRecurse] in Hv. rewrite Ht in Hv. by apply elem_of_nil in Hv.
Qed.

(** On a map of even width the sample hex layout depends on the index
    only. *)
Lemma neighboursByIndex_even (m : Map) :
  0 < width m -> (2 | width m) ->
  neighboursByIndex (H := sampleExternals) m.
Proof.
  intros Hw Heven. apply neighboursByIndex_adjacent.
  intros [x y] [x' y'] b. unfold pos, mod_. cbn [cx cy getAdjacentCoords sampleExternals].
  intros Hp Hb.
  pose proof (Z.mod_pos_bound x (width m) Hw) as Hbx.
  pose proof (Z.mod_pos_bound x' (width m) Hw) as Hbx'.
  assert (Hy : y = y').
  { destruct (Z.lt_trichotomy y y') as [? | [? | ?]]; [nia | done | nia]. }
  subst y'.
  assert (Hx : x mod width m = x' mod width m) by lia.
  assert (Hpar : x mod 2 = x' mod 2).
  { rewrite <- (Z.mod_mod_divide x (width m) 2), <- (Z.mod_mod_divide x' (width m) 2)
      by done. by rewrite Hx. }
  assert (Hshift : forall z, (z + (x' - x)) mod width m = z mod width m).
  { intros z. rewrite Z.add_mod, (Zminus_mod x' x), <- Hx, Z.sub_diag by lia.
    rewrite Z.mod_0_l, Z.add_0_r, Z.mod_mod by lia. done. }
  exists (mkCoords (cx b + (x' - x)) (cy b)).
  split; [| cbn [cx cy]; by rewrite Hshift].
  unfold sampleAdjacentCoords, mod_ in *. cbn [cx cy] in *. rewrite <- Hpar.
  destruct (x mod 2 =? 1);
    repeat (apply elem_of_cons in Hb as [-> | Hb]);
    try (by apply elem_of_nil in Hb); cbn [cx cy];
    repeat (apply elem_of_cons; first [left; f_equal; lia | right]).
Qed.

Lemma getPathTree_fixed_point_witness :
  wellCosted (plainsMap 4 4)
  /\ neighboursByIndex (H := sampleExternals) (plainsMap 4 4)
  /\ mkCoords 1 2
       ∈ getNeighborsCoords (H := sampleExternals) (plainsMap 4 4) (mkCoords 1 1) 1 None
  /\ exists ps ds,
       getPathTree (H := sampleExternals) (plainsMap 4 4) (mkCoords 1 1) 1 LAND
       = Ok (ps, ds)
       /\ ds !! pos (plainsMap 4 4) (mkCoords 1 1) = Some (Fin 0)
       /\ exists tile cost dv,
            getTile (plainsMap 4 4) (mkCoords 1 2) = Some tile
            /\ movementCostFor LAND tile = Ok cost
            /\ ds !! pos (plainsMap 4 4) (mkCoords 1 2) = Some dv
            /\ dv <> NotANumber
            /\ dist_gt dv (dist_add (Fin 0) cost) = false.
Proof.
  pose proof (wellCosted_plainsMap 4 4) as Hwc.
  assert (Hidx : neighboursByIndex (H := sampleExternals) (plainsMap 4 4)).
  { apply neighboursByIndex_even; [reflexivity | by exists 2]. }
  assert (Hv : mkCoords 1 2
                 ∈ getNeighborsCoords (H := sampleExternals) (plainsMap 4 4)
                     (mkCoords 1 1) 1 None).
  { apply list_elem_of_In. vm_compute. tauto. }
  split; [exact Hwc |]. split; [exact Hidx |]. split; [exact Hv |].
  destruct (getPathTree_returns (H := sampleExternals) (plainsMap 4 4) 1 LAND
              (mkCoords 1 1) Hwc) as (ps & ds & Hres).
  destruct (getPathTree_treeInv (H := sampleExternals) (plainsMap 4 4) 1 LAND
              (mkCoords 1 1) ps ds Hwc Hres) as [(Hsrc & _) _].
  exists ps, ds. split; [exact Hres |]. split; [exact Hsrc |].
  exact (getPathTree_fixed_point (H := sampleExternals) (plainsMap 4 4) 1 LAND
           (mkCoords 1 1) ps ds (mkCoords 1 1) (mkCoords 1 2) 0
           Hwc Hidx Hres Hsrc (or_intror eq_refl) Hv).
Defined.

Lemma getPathTree_shortest_witness :
  wellCosted (plainsMap 4 4)
  /\ neighboursByIndex (H := sampleExternals) (plainsMap 4 4)
  /\ exists ps ds,
       getPathTree (H := sampleExternals) (plainsMap 4 4) (mkCoords 1 1) 1 LAND
       = Ok (ps, ds)
       /\ forall v total,
            reach (H := sampleExternals) (plainsMap 4 4) 1 LAND (mkCoords 1 1) v total ->
            exists d, ds !! pos (plainsMap 4 4) v = Some (Fin d) /\ d <= total.
Proof.
  pose proof (wellCosted_plainsMap 4 4) as Hwc.
  assert (Hidx : neighboursByIndex (H := sampleExternals) (plainsMap 4 4)).
  { apply neighboursByIndex_even; [reflexivity | by exists 2]. }
  split; [exact Hwc |]. split; [exact Hidx |].
  destruct (getPathTree_returns (H := sampleExternals) (plainsMap 4 4) 1 LAND
              (mkCoords 1 1) Hwc) as (ps & ds & Hres).
  exists ps, ds. split; [exact Hres |].
  exact (proj2 (getPathTree_shortest (H := sampleExternals) (plainsMap 4 4) 1 LAND
                  (mkCoords 1 1) ps ds Hwc Hidx Hres)).
Defined.

(** ** Counters at rest *)

Section Counters.
Context `{Externals}.

Lemma sameCounters_refl (m : Map) : sameCounters m m.
Proof. by split. Qed.

Lemma sameCounters_trans (m s s' : Map) :
  sameCounters m s -> sameCounters s s' -> sameCounters m s'.
Proof.
  intros [Hw He] [Hw' He']. split; [congruence |].
  intros p. by rewrite He', He.
Qed.

Lemma sameCounters_updateTileAt (m : Map) (p : Z) (f : Tile -> Tile) :
  (forall t, visibleTo (f t) = visibleTo t) -> sameCounters m (updateTileAt m p f).
Proof.
  intros Hf. split; [apply updateTileAt_frame |].
  intros q. rewrite tileAt_updateTileAt. case_decide as Hpq; [| done].
  destruct (tileAt m q); simpl; [| done]. by rewrite Hf.
Qed.

Lemma sameCounters_tileUpdate (m : Map) (c : Coords) : sameCounters m (tileUpdate m c).
Proof. by split. Qed.

(** A new trader subscribes to two improvements: no counter changes. *)
Lemma addNewTrader_sameCounters (m m' : Map) (civID : Z)
    (route : list Coords * dist) (source sink : Z) (capacity : Yield) :
  addNewTrader m civID route source sink capacity = Ok m' -> sameCounters m m'.
Proof.
  unfold addNewTrader.
  destruct (tileAt m source ≫= improvement); simpl; [| discriminate].
  destruct (tileAt m sink ≫= improvement); simpl; [| discriminate].
  intros [= <-].
  eapply sameCounters_trans; [| eapply sameCounters_trans];
    [apply (sameCounters_updateTileAt m source) | apply sameCounters_updateTileAt
     | by split]; done.
Qed.

Lemma tradeRoutesLoop_sameCounters (posKeys : list Z) (civID : Z) (c : Coords)
    (sink : Z) (requirement : Yield) (pathTree : gmap Z Coords) (dst : gmap Z dist) :
  forall m m',
    tradeRoutesLoop posKeys m civID c sink requirement pathTree dst = Ok m' ->
    sameCounters m m'.
Proof.
  induction posKeys as [| p posKeys IH]; intros m m'; cbn [tradeRoutesLoop].
  - intros [= <-]. apply sameCounters_refl.
  - destruct (tileAt m p) as [tile |]; cbn [defined mbind result_bind];
      [| discriminate].
    match goal with
    | |- mbind _ ?a = _ -> _ => destruct a as [m1 | |] eqn:Hm1
    end; cbn [mbind result_bind]; try discriminate.
    intros Hrest. eapply sameCounters_trans; [| exact (IH _ _ Hrest)].
    destruct (bool_decide _ && canSupply tile requirement);
      [| inversion Hm1; apply sameCounters_refl].
    destruct (findRoute m pathTree dst p c) as [[route |] | |];
      cbn [mbind result_bind] in Hm1; try discriminate.
    + by eapply addNewTrader_sameCounters.
    + inversion Hm1. apply sameCounters_refl.
Qed.

Lemma createTradeRoutes_sameCounters (m m' : Map) (civID : Z) (c : Coords)
    (sink : Z) (requirement : Yield) (range : Z) (mode : MovementClass) :
  createTradeRoutes m civID c sink requirement range mode = Ok m' ->
  sameCounters m m'.
Proof.
  unfold createTradeRoutes.
  destruct (getPathTree m c range mode) as [[pathTree dst] | |];
    cbn [mbind result_bind]; try discriminate.
  apply tradeRoutesLoop_sameCounters.
Qed.

Lemma startErrandAt_sameCounters (m : Map) (c : Coords) (p : Z) (action : ErrandAction) :
  sameCounters m (startErrandAt m c p action).
Proof.
  unfold startErrandAt.
  eapply sameCounters_trans; [| apply sameCounters_tileUpdate].
  by apply sameCounters_updateTileAt.
Qed.

(** Starting an errand and creating its trade routes. *)
Lemma errand_sameCounters (m s : Map) (c : Coords) (p : Z) (action : ErrandAction)
    (ownerID : Z) :
  (cost ← errandCostAt (startErrandAt m c p action) p;
   createTradeRoutes (startErrandAt m c p action) ownerID c p cost 5 LAND) = Ok s ->
  sameCounters m s.
Proof.
  destruct (errandCostAt _ p) as [cost | |]; cbn [mbind result_bind];
    try discriminate.
  intros Hroutes.
  eapply sameCounters_trans; [apply startErrandAt_sameCounters |].
  by eapply createTradeRoutes_sameCounters.
Qed.

(** [buildImprovementAt] changes the improvement of one tile at most. *)
Lemma buildImprovementAt_tiles (m m' : Map) (c : Coords) (type : string) (ownerID : Z) :
  buildImprovementAt m c type ownerID = Ok m' ->
  width m' = width m /\ cities m' = cities m
  /\ forall p t, tileAt m p = Some t ->
       exists t', tileAt m' p = Some t'
                  /\ owner t' = owner t /\ visibleTo t' = visibleTo t.
Proof.
  unfold buildImprovementAt.
  destruct (getTile m c) as [tile |]; cbn [defined mbind result_bind]; [| discriminate].
  destruct (negb (bool_decide _)); [intros [= <-]; eauto 10 |].
  destruct (negb (canBuildOn tile)); [intros [= <-]; eauto 10 |].
  intros [= <-].
  destruct (updateTileAt_frame m (pos m c)
              (fun t => set_improvement t (Some (newImprovement type (baseYield t)))))
    as (Hw & _ & Hci & _).
  split; [exact Hw |]. split; [exact Hci |].
  intros p t Ht. rewrite tileAt_tileUpdate, tileAt_updateTileAt, Ht.
  case_decide; simpl; eauto.
Qed.

(** [setTileOwner(coords, city, false)] on a map that has the city. *)
Lemma setTileOwner_cityLight (m m' : Map) (c : Coords) (o : nat) (city : City) :
  cities m !! o = Some city ->
  setTileOwner m c o false = Ok m' ->
  width m' = width m
  /\ (exists city', cities m' !! o = Some city' /\ c_civID city' = c_civID city)
  /\ forall p t, tileAt m p = Some t ->
       exists t', tileAt m' p = Some t'
                  /\ ((owner t' = owner t /\ visibleTo t' = visibleTo t)
                      \/ (owner t = None /\ owner t' = Some o
                          /\ visibleTo t' = visibleTo (setVisibility t (c_civID city) true))).
Proof.
  intros Hcity Hset.
  destruct (getTile m c) as [tile |] eqn:Htile;
    [| unfold setTileOwner in Hset; rewrite Htile in Hset; discriminate].
  destruct (owner tile) as [old |] eqn:Howner.
  { rewrite (setTileOwner_owned _ _ _ _ _ Htile Howner) in Hset.
    inversion Hset; subst m'. split; [done |]. split; [eauto |]. eauto 10. }
  rewrite (setTileOwner_unowned _ _ _ _ _ _ Htile Howner Hcity) in Hset.
  inversion Hset; subst m'. clear Hset.
  split; [| split].
  - rewrite width_updateCity. by rewrite !(proj1 (updateTileAt_frame _ _ _)).
  - rewrite cities_updateCity. rewrite decide_True by done.
    destruct (updateTileAt_frame
                (updateTileAt m (pos m c) (fun t => set_owner t (Some o)))
                (pos m c) (fun t => setVisibility t (c_civID city) true))
      as (_ & _ & Hci & _).
    destruct (updateTileAt_frame m (pos m c) (fun t => set_owner t (Some o)))
      as (_ & _ & Hci' & _).
    rewrite Hci, Hci', Hcity. simpl. eauto.
  - intros p t Ht.
    rewrite tileAt_updateCity, !tileAt_updateTileAt, Ht.
    case_decide as Hp; simpl.
    + eexists. split; [reflexivity |]. right.
      subst p. change (tileAt m (pos m c)) with (getTile m c) in Ht.
      rewrite Htile in Ht. inversion Ht; subst t. auto.
    + eauto.
Qed.

(** A tile that a city has lit keeps the counters that hold a number, or
    raises them by 1. *)
Lemma cityLight_counter (civID : Z) (city : nat) (t t' : Tile) (civ n : Z) :
  cityLight civID city t t' -> visibleTo t !! civ = Some (Num n) ->
  exists n', visibleTo t' !! civ = Some (Num n') /\ n <= n' <= n + 1.
Proof.
  intros [[_ Hv] | (_ & _ & Hv)] Hn; rewrite Hv.
  - exists n. split; [done | lia].
  - destruct (decide (civ = civID)) as [-> | Hne].
    + rewrite setVisibility_counter, Hn. simpl. exists (n + 1). split; [done | lia].
    + rewrite setVisibility_counter_other by done. exists n. split; [done | lia].
Qed.

(** The loop and the settlement of [settleCityAt]. *)
Lemma settleCityAt_cityLight (m m' : Map) (c : Coords) (name : string) (civID : Z)
    (ok : bool) :
  settleCityAt m c name civID = Ok (m', ok) ->
  forall p t, tileAt m p = Some t ->
    exists t', tileAt m' p = Some t' /\ cityLight civID (length (cities m)) t t'.
Proof.
  unfold settleCityAt.
  destruct (getTile m c) as [tile |]; cbn [defined mbind result_bind]; [| discriminate].
  destruct (negb (canSettleOn tile)).
  { intros [= <- <-] p t Ht. exists t. split; [done |]. by left. }
  set (city := length (cities m)).
  set (m1 := set_cities m (cities m ++ [newCity c name civID])).
  set (Inv := fun s : Map =>
    width s = width m
    /\ (exists ci, cities s !! city = Some ci /\ c_civID ci = civID)
    /\ forall p t, tileAt m p = Some t ->
         exists t', tileAt s p = Some t' /\ cityLight civID city t t').
  destruct (forEach (getNeighborsCoords m1 c 1 None) _ m1) as [m2 | |] eqn:Hloop;
    cbn [mbind result_bind]; try discriminate.
  assert (H2 : Inv m2).
  { eapply (forEach_invariant Inv); [| | exact Hloop].
    - intros s nb s' _ (Hw & (ci & Hci & Hciv) & Hall) Hstep.
      destruct (setTileOwner s nb city false) as [s1 | |] eqn:Hs1;
        cbn [mbind result_bind] in Hstep; try discriminate.
      inversion Hstep; subst s'. clear Hstep.
      destruct (setTileOwner_cityLight s s1 nb city ci Hci Hs1)
        as (Hw1 & (ci1 & Hci1 & Hciv1) & Hstep).
      split; [simpl; congruence |].
      split; [exists ci1; split; [exact Hci1 | congruence] |].
      intros p t Ht. destruct (Hall p t Ht) as (t0 & Ht0 & Hlight).
      destruct (Hstep p t0 Ht0) as (t1 & Ht1 & Hcases).
      exists t1. rewrite tileAt_tileUpdate. split; [exact Ht1 |].
      rewrite Hciv in Hcases.
      destruct Hcases as [[Ho Hv] | (Ho & Ho1 & Hv)].
      + destruct Hlight as [[Ho0 Hv0] | (Ho0 & Ho0' & Hv0)].
        * left. split; congruence.
        * right. split; [done |]. split; congruence.
      + destruct Hlight as [[Ho0 Hv0] | (Ho0 & Ho0' & Hv0)]; [| congruence].
        right. split; [congruence |]. split; [done |].
        rewrite Hv. unfold setVisibility. simpl. by rewrite Hv0.
    - split; [done |]. split.
      + exists (newCity c name civID). split; [| done].
        unfold m1, city. simpl. by rewrite lookup_app_r, Nat.sub_diag by lia.
      + intros p t Ht. exists t. split; [exact Ht |]. by left. }
  destruct (buildImprovementAt m2 c "settlement" civID) as [m3 | |] eqn:Hbuild;
    cbn [mbind result_bind]; try discriminate.
  intros [= <- <-] p t Ht.
  destruct H2 as (_ & _ & Hall).
  destruct (Hall p t Ht) as (t2 & Ht2 & Hlight).
  destruct (buildImprovementAt_tiles _ _ _ _ _ Hbuild) as (_ & _ & Hkeep).
  destruct (Hkeep p t2 Ht2) as (t3 & Ht3 & Ho & Hv).
  exists t3. split; [exact Ht3 |].
  destruct Hlight as [[Ho2 Hv2] | (Ho2 & Ho2' & Hv2)].
  - left. split; congruence.
  - right. split; [done |]. split; congruence.
Qed.

(** C1, amended.  [setVisibility] moves an initialised counter up or down by
    exactly 1, without a floor, and [clearVisibility] sets it to 0.
    [buildImprovementAt], [startConstructionAt], [trainUnitAt],
    [researchKnowledgeAt] and [startErrandAt] leave every counter as it is.
    [setTileOwner(coords, city, false)] and [settleCityAt] leave a tile its
    owner and its counters, or give a tile that was free to the city and
    light it once for the civilization of the city: a counter that holds a
    number keeps it or goes up by 1.  After [updateCivTileVisibility(civID)]
    every counter of [civID] is a number that is not negative, and the other
    counters are as before.  At the end of [moveUnitTo], the counter of the
    unit's civilization on every tile is its value before the move, minus 1
    when the tile is in the cone enumerated from the old position, plus 1
    when it is in the cone enumerated from the new position (a cone names no
    tile twice): it is not negative after the move when it was not negative
    before and was at least 1 on every tile of the old cone. *)
Theorem counters_after_handlers (m : Map) :
  (forall t civID n,
     visibleTo t !! civID = Some (Num n) ->
     visibleTo (setVisibility t civID true) !! civID = Some (Num (n + 1))
     /\ visibleTo (setVisibility t civID false) !! civID = Some (Num (n - 1))
     /\ visibleTo (clearVisibility t civID) !! civID = Some (Num 0))
  /\ (forall c type ownerID m',
        buildImprovementAt m c type ownerID = Ok m' -> sameCounters m m')
  /\ (forall c improvementType ownerID m',
        startConstructionAt m c improvementType ownerID = Ok m' -> sameCounters m m')
  /\ (forall c unitType ownerID m',
        trainUnitAt m c unitType ownerID = Ok m' -> sameCounters m m')
  /\ (forall c knowledgeName ownerID m',
        researchKnowledgeAt m c knowledgeName ownerID = Ok m' -> sameCounters m m')
  /\ (forall c p action, sameCounters m (startErrandAt m c p action))
  /\ (forall c o city m',
        cities m !! o = Some city -> setTileOwner m c o false = Ok m' ->
        forall p t, tileAt m p = Some t ->
          exists t', tileAt m' p = Some t' /\ cityLight (c_civID city) o t t')
  /\ (forall c name civID m' ok,
        settleCityAt m c name civID = Ok (m', ok) ->
        forall p t, tileAt m p = Some t ->
          exists t', tileAt m' p = Some t'
                     /\ cityLight civID (length (cities m)) t t')
  /\ (forall civID city t t' civ n,
        cityLight civID city t t' -> visibleTo t !! civ = Some (Num n) ->
        exists n', visibleTo t' !! civ = Some (Num n') /\ n <= n' <= n + 1)
  /\ (forall civID units p t,
        tileAt m p = Some t ->
        exists t' n,
          tileAt (updateCivTileVisibility m civID units) p = Some t'
          /\ visibleTo t' !! civID = Some (Num n) /\ 0 <= n
          /\ forall c, c <> civID -> visibleTo t' !! c = visibleTo t !! c)
  /\ (forall unit c m' unit',
        moveUnitTo m unit c = Ok (m', unit') ->
        exists srcVisible newVisible,
          getVisibleTilesCoords m unit None = Ok srcVisible
          /\ getVisibleTilesCoords m (set_coords unit c) None = Ok newVisible
          /\ NoDup (pos m <$> srcVisible)
          /\ NoDup (pos m <$> newVisible)
          /\ forall p t n,
               tileAt m p = Some t -> visibleTo t !! u_civID unit = Some (Num n) ->
               exists t',
                 tileAt m' p = Some t'
                 /\ visibleTo t' !! u_civID unit
                    = Some (Num (n - hits m p srcVisible + hits m p newVisible))
                 /\ (0 <= n -> (0 < hits m p srcVisible -> 1 <= n) ->
                     0 <= n - hits m p srcVisible + hits m p newVisible)).
Proof.
  split; [| split; [| split; [| split; [| split; [| split; [| split; [| split;
    [| split; [| split]]]]]]]]].
  - intros t civID n Hn.
    rewrite !setVisibility_counter, clearVisibility_counter, Hn. simpl.
    repeat split; do 2 f_equal; lia.
  - intros c type ownerID m' Hrun.
    destruct (buildImprovementAt_tiles _ _ _ _ _ Hrun) as (Hw & _ & Hkeep).
    split; [exact Hw |]. intros p.
    destruct (tileAt m p) as [t |] eqn:Ht.
    + destruct (Hkeep p t Ht) as (t' & -> & _ & Hv). simpl. by rewrite Hv.
    + revert Hrun. unfold buildImprovementAt.
      destruct (getTile m c) as [tile |]; cbn [defined mbind result_bind];
        [| discriminate].
      destruct (negb (bool_decide _)); [intros [= <-]; by rewrite Ht |].
      destruct (negb (canBuildOn tile)); [intros [= <-]; by rewrite Ht |].
      intros [= <-]. rewrite tileAt_tileUpdate, tileAt_updateTileAt, Ht.
      by case_decide.
  - intros c improvementType ownerID m'. unfold startConstructionAt.
    destruct (getTile m c) as [tile |]; cbn [defined mbind result_bind];
      [| discriminate].
    destruct (negb (bool_decide _)); [intros [= <-]; apply sameCounters_refl |].
    set (m1 := updateTileAt m (pos m c) _).
    set (m2 := startErrandAt m1 c (pos m c) _).
    destruct (errandCostAt m2 (pos m c)) as [cost | |] eqn:Hcost;
      cbn [mbind result_bind]; try discriminate.
    destruct (createTradeRoutes m2 ownerID c (pos m c) cost 5 LAND) as [m3 | |] eqn:Hm3;
      cbn [mbind result_bind]; try discriminate.
    intros [= <-].
    apply (sameCounters_trans m m1); [by apply sameCounters_updateTileAt |].
    apply (sameCounters_trans m1 m2); [apply startErrandAt_sameCounters |].
    apply (sameCounters_trans m2 m3); [| apply sameCounters_tileUpdate].
    exact (createTradeRoutes_sameCounters _ _ _ _ _ _ _ _ Hm3).
  - intros c unitType ownerID m'. unfold trainUnitAt.
    destruct (getTile m c) as [tile |]; cbn [defined mbind result_bind];
      [| discriminate].
    match goal with
    | |- mbind _ ?a = _ -> _ => destruct a as [s | |] eqn:Hs
    end; cbn [mbind result_bind]; try discriminate.
    intros [= <-].
    eapply sameCounters_trans; [| apply sameCounters_tileUpdate].
    destruct (improvement tile) as [i |];
      [| inversion Hs; apply sameCounters_refl].
    destruct (_ && _); [| inversion Hs; apply sameCounters_refl].
    by eapply errand_sameCounters.
  - intros c knowledgeName ownerID m'. unfold researchKnowledgeAt.
    destruct (getTile m c) as [tile |]; cbn [defined mbind result_bind];
      [| discriminate].
    match goal with
    | |- mbind _ ?a = _ -> _ => destruct a as [s | |] eqn:Hs
    end; cbn [mbind result_bind]; try discriminate.
    intros [= <-].
    eapply sameCounters_trans; [| apply sameCounters_tileUpdate].
    destruct (improvement tile) as [i |];
      [| inversion Hs; apply sameCounters_refl].
    destruct (bool_decide _); [| inversion Hs; apply sameCounters_refl].
    destruct (getResearchableKnowledgeNames i) as [names | |];
      cbn [mbind result_bind] in Hs; try discriminate.
    destruct (_ && _); [| inversion Hs; apply sameCounters_refl].
    by eapply errand_sameCounters.
  - intros c p action. apply startErrandAt_sameCounters.
  - intros c o city m' Hcity Hset p t Ht.
    destruct (setTileOwner_cityLight m m' c o city Hcity Hset) as (_ & _ & Hall).
    exact (Hall p t Ht).
  - intros c name civID m' ok. apply settleCityAt_cityLight.
  - intros civID city t t' civ n. apply cityLight_counter.
  - intros civID units p t Ht.
    unfold updateCivTileVisibility.
    set (m0 := set_tiles m (map (fun t => clearVisibility t civID) (tiles m))).
    set (Inv := fun s : Map =>
      width s = width m
      /\ length (tiles s) = length (tiles m)
      /\ forall q t, tileAt m q = Some t ->
           exists t' n,
             tileAt s q = Some t'
             /\ visibleTo t' !! civID = Some (Num n) /\ 0 <= n
             /\ (forall c, c <> civID -> visibleTo t' !! c = visibleTo t !! c)
             /\ tile_unit t' = tile_unit t /\ improvement t' = improvement t
             /\ owner t' = owner t).
    assert (H0 : Inv m0).
    { split; [done |]. split; [unfold m0; simpl; apply length_map |].
      intros q t0 Ht0. exists (clearVisibility t0 civID), 0.
      split.
      - unfold tileAt, m0 in *. simpl. destruct (q <? 0); [done |].
        by rewrite list_lookup_fmap, Ht0.
      - rewrite clearVisibility_counter. split; [done |]. split; [lia |].
        split; [| done]. intros c Hc. unfold clearVisibility; simpl.
        by rewrite lookup_insert_ne. }
    assert (Hend : Inv (foldl (fun s unit =>
                          foldl (fun s' c =>
                                   updateTileAt s' (pos s' c)
                                     (fun t => setVisibility t civID true))
                                s (getNeighborsCoords s (u_coords unit) 3 None))
                        m0 units)).
    { apply (foldl_preserves Inv); [| exact H0].
      intros s unit _ Hs. apply (foldl_preserves Inv); [| exact Hs].
      intros s' c _ Hs'. by apply rebuild_step. }
    destruct Hend as (_ & _ & Hall).
    destruct (Hall p t Ht) as (t' & n & Ht' & Hn & Hn0 & Hother & _).
    exists t', n. auto.
  - intros unit c m' unit' Hmove.
    destruct (moveUnitTo_counters m m' unit unit' c Hmove)
      as (srcVisible & newVisible & Hsrc & Hnew & _ & Hcount).
    exists srcVisible, newVisible.
    split; [done |]. split; [done |].
    split; [by eapply getVisibleTilesCoords_NoDup |].
    split; [by eapply getVisibleTilesCoords_NoDup |].
    intros p t n Ht Hn.
    destruct (Hcount p t n Ht Hn) as (Hs & Hn' & t' & Ht' & Hc).
    exists t'. split; [done |]. split; [done |]. lia.
Qed.

End Counters.

(** The counters after a construction and a move.  The bound after
    [moveUnitTo] needs its hypothesis on the old cone.  From (5, 4) the scout
    does not see the tile at (3, 5), which is behind the forest and counts 0.
    The worksite that takes the place of the forest opens the line of sight;
    the next move darkens the cone as it is then, and the tile, which the
    scout at (6, 5) does not see, counts -1. *)
Example move_after_construction_undercounts :
  settleCityAt (H := sampleExternals) forestMap (mkCoords 5 5) "Rome" 0
  = Ok (forestRomeMap, true)
  /\ moveUnitTo (H := sampleExternals) forestRomeMap (scoutAt (mkCoords 4 4))
       (mkCoords 5 4)
     = Ok (forestMovedMap, scoutAt (mkCoords 5 4))
  /\ counterAt forestMovedMap (mkCoords 3 5) 0 = Some (Num 0)
  /\ (exists srcVisible,
        getVisibleTilesCoords (H := sampleExternals) forestMovedMap
          (scoutAt (mkCoords 5 4)) None = Ok srcVisible
        /\ mkCoords 3 5 ∉ srcVisible)
  /\ startConstructionAt (H := sampleExternals) forestMovedMap (mkCoords 4 5)
       "farm" 0
     = Ok clearingMap
  /\ counterAt clearingMap (mkCoords 3 5) 0 = Some (Num 0)
  /\ (exists srcVisible,
        getVisibleTilesCoords (H := sampleExternals) clearingMap
          (scoutAt (mkCoords 5 4)) None = Ok srcVisible
        /\ mkCoords 3 5 ∈ srcVisible)
  /\ moveUnitTo (H := sampleExternals) clearingMap (scoutAt (mkCoords 5 4))
       (mkCoords 6 5)
     = Ok (clearingMovedMap, scoutAt (mkCoords 6 5))
  /\ counterAt clearingMovedMap (mkCoords 3 5) 0 = Some (Num (-1)).
Proof.
  repeat apply conj; try (vm_compute; reflexivity).
  - eexists. split; [vm_compute; reflexivity |].
    intros Hin. apply list_elem_of_In in Hin. vm_compute in Hin.
    repeat (destruct Hin as [Hin | Hin]; [discriminate |]). exact Hin.
  - eexists. split; [vm_compute; reflexivity |].
    apply list_elem_of_In. vm_compute. tauto.
Qed.

(** C1, as the specification states it, fails on the code: a counter is not
    the number of vision cones that overlap on the tile, because a city
    lights the tiles it takes for its civilization.  On a map whose counters
    have been cleared, civilization 0, which has no unit, settles Rome: at
    the end of [settleCityAt] no unit sees the tile of Rome, and its counter
    is 1.  On the map of the scout, the civilization settles Rome out of
    sight of its scout and the scout moves: after the move the one cone
    there is does not reach the tile of Rome, and its counter is 1. *)
Lemma city_light_is_no_vision_cone :
  settleCityAt (H := sampleExternals) clearedMap (mkCoords 1 1) "Rome" 0
  = Ok (romeMap, true)
  /\ unitsOn romeMap = []
  /\ coneCount (H := sampleExternals) romeMap 0 (pos romeMap (mkCoords 1 1)) = Ok 0
  /\ counterAt romeMap (mkCoords 1 1) 0 = Some (Num 1)
  /\ settleCityAt (H := sampleExternals) scoutMap (mkCoords 0 0) "Rome" 0
     = Ok (scoutRomeMap, true)
  /\ moveUnitTo (H := sampleExternals) scoutRomeMap (scoutAt (mkCoords 4 4))
       (mkCoords 4 5)
     = Ok (scoutMovedMap, scoutAt (mkCoords 4 5))
  /\ unitsOn scoutMovedMap = [scoutAt (mkCoords 4 5)]
  /\ coneCount (H := sampleExternals) scoutMovedMap 0
       (pos scoutMovedMap (mkCoords 0 0)) = Ok 0
  /\ counterAt scoutMovedMap (mkCoords 0 0) 0 = Some (Num 1)
  /\ counterAt scoutMovedMap (mkCoords 0 0) 0
     <> Some (Num 0).
Proof.
  repeat apply conj; try (vm_compute; reflexivity).
  vm_compute. discriminate.
Qed.

Lemma counters_after_handlers_witness :
  moveUnitTo (H := sampleExternals) litMap (scoutAt (mkCoords 4 4)) (mkCoords 4 5)
  = Ok (movedMap, scoutAt (mkCoords 4 5))
  /\ exists srcVisible newVisible,
       getVisibleTilesCoords (H := sampleExternals) litMap (scoutAt (mkCoords 4 4)) None
       = Ok srcVisible
       /\ getVisibleTilesCoords (H := sampleExternals) litMap
            (set_coords (scoutAt (mkCoords 4 4)) (mkCoords 4 5)) None
          = Ok newVisible
       /\ NoDup (pos litMap <$> srcVisible)
       /\ NoDup (pos litMap <$> newVisible).
Proof.
  assert (Hmove : moveUnitTo (H := sampleExternals) litMap (scoutAt (mkCoords 4 4))
                    (mkCoords 4 5)
                  = Ok (movedMap, scoutAt (mkCoords 4 5)))
    by (vm_compute; reflexivity).
  split; [exact Hmove |].
  destruct (proj2 (proj2 (proj2 (proj2 (proj2 (proj2 (proj2 (proj2 (proj2 (proj2
              (counters_after_handlers (H := sampleExternals) litMap))))))))))
              (scoutAt (mkCoords 4 4)) (mkCoords 4 5) movedMap
              (scoutAt (mkCoords 4 5)) Hmove)
    as (srcVisible & newVisible & Hs & Hn & Hds & Hdn & _).
  exists srcVisible, newVisible. auto.
Defined.
